(** * Audio: positional-audio scheduling (Audio.cpp)

    A shallow embedding of Audio.cpp: the request coalescer [QueueEntry],
    the per-frame channel scheduler ([Update], [Play], [Step]), the
    background loader ([Load], [Name]) and [Progress].

    Conventions of the embedding:
    - a C++ [double] is a real number of [R]; rounding, infinities and NaN
      are outside the model;
    - an [unsigned] or [size_t] is an [N], a string index is a [nat];
    - a [std::vector] is a [list] whose last element is [back()];
    - a [std::map] is the list of its bindings in key order;
    - the globals of the anonymous namespace are the fields of one record
      that every operation takes and returns; [this_thread::get_id()] is
      an explicit argument;
    - the calls into OpenAL, and the lock scopes around the accesses to the
      [deferred] map, are appended to a trace. *)

From Stdlib Require Import Reals Lra Lia List Sorted Permutation Bool NArith
  PeanoNat String Ascii.
Import ListNotations.

Local Open Scope R_scope.

(** ** Point *)

(** Modelled from the spec: Point.h is not part of the sources.  The spec
    treats it as a primitive 2D vector type with addition, scalar multiply,
    dot product and length; subtraction and division by a scalar are the
    component-wise operations Audio.cpp uses. *)
Record Point : Type := mkPoint { X : R; Y : R }.

(** [Point()] *)
Definition Point_zero : Point := mkPoint 0 0.

Definition Point_add (a b : Point) : Point := mkPoint (X a + X b) (Y a + Y b).

Definition Point_sub (a b : Point) : Point := mkPoint (X a - X b) (Y a - Y b).

(** [scalar * point] *)
Definition Point_scale (k : R) (a : Point) : Point := mkPoint (k * X a) (k * Y a).

(** [point * scalar] *)
Definition Point_mul (a : Point) (k : R) : Point := mkPoint (X a * k) (Y a * k).

(** [point / scalar] *)
Definition Point_div (a : Point) (k : R) : Point := mkPoint (X a / k) (Y a / k).

Definition Dot (a b : Point) : R := X a * X b + Y a * Y b.

Definition Length (a : Point) : R := sqrt (Dot a a).

(** ** QueueEntry: the coalesced request for one sound *)

Record QueueEntry : Type := mkQueueEntry {
  sum : Point;
  speed : R;
  weight : R
}.

(** A default-constructed entry: [sum] is [Point()], [speed] and [weight]
    are [0.]. *)
Definition QueueEntry_new : QueueEntry := mkQueueEntry Point_zero 0 0.

(** [weight ? (sum / weight) : sum] *)
Definition Position (e : QueueEntry) : Point :=
  if Req_dec_T (weight e) 0 then sum e else Point_div (sum e) (weight e).

Definition Velocity (e : QueueEntry) : Point :=
  let pos := Position e in
  let length := Length pos in
  if Req_dec_T length 0 then pos
  else Point_mul pos (speed e / length).

(** [QueueEntry::Add(const Point &position, const Point &velocity)];
    [max(1., x)] is [Rmax 1 x]. *)
Definition Add (e : QueueEntry) (position velocity : Point) : QueueEntry :=
  let d := 1 / Rmax 1 (Dot position position) in
  mkQueueEntry
    (Point_add (sum e) (Point_scale d position))
    (speed e + d * sqrt d * Dot position velocity)
    (weight e + d).

(** [QueueEntry::Add(const QueueEntry &other)] *)
Definition AddEntry (e other : QueueEntry) : QueueEntry :=
  mkQueueEntry
    (Point_add (sum e) (sum other))
    (speed e + speed other)
    (weight e + weight other).

(** A contribution is one [Add(position, velocity)] call; [Added cs] is the
    entry after the calls [cs], in order, on a fresh entry. *)
Definition Contribution : Type := (Point * Point)%type.

Definition AddAll (e : QueueEntry) (cs : list Contribution) : QueueEntry :=
  fold_left (fun acc c => Add acc (fst c) (snd c)) cs e.

Definition Added (cs : list Contribution) : QueueEntry :=
  AddAll QueueEntry_new cs.

(** *** The coalescer as the specification words it *)

(** [w = 1 / max(1, |position|^2)] *)
Definition contribution_weight (position : Point) : R :=
  1 / Rmax 1 (Length position * Length position).

Definition total_weight (cs : list Contribution) : R :=
  fold_right (fun c acc => contribution_weight (fst c) + acc) 0 cs.

Definition weighted_sum (cs : list Contribution) : Point :=
  fold_right
    (fun c acc =>
       Point_add (Point_scale (contribution_weight (fst c)) (fst c)) acc)
    Point_zero cs.

(** The [w]-weighted average of the contributed positions. *)
Definition weighted_average (cs : list Contribution) : Point :=
  Point_div (weighted_sum cs) (total_weight cs).

(** The accumulated radial speed: each contribution enters as
    [w * sqrt(w) * (position . velocity)]. *)
Definition radial_speed_sum (cs : list Contribution) : R :=
  fold_right
    (fun c acc =>
       contribution_weight (fst c) * sqrt (contribution_weight (fst c))
       * Dot (fst c) (snd c) + acc)
    0 cs.




(** ** std::map as a list of bindings in key order *)

Section AssocMap.

Variables K V : Type.
Variable eqb : K -> K -> bool.
Variable ltb : K -> K -> bool.

(** [m.find(k)], [None] for [m.end()] *)
Fixpoint map_find (k : K) (m : list (K * V)) : option V :=
  match m with
  | [] => None
  | (k', v) :: m' => if eqb k k' then Some v else map_find k m'
  end.

(** [m.erase(it)] for the iterator [it] that [m.find(k)] returned: the map
    without the binding of [k]. *)
Fixpoint map_erase (k : K) (m : list (K * V)) : list (K * V) :=
  match m with
  | [] => []
  | (k', v) :: m' =>
      if eqb k k' then map_erase k m' else (k', v) :: map_erase k m'
  end.

(** A new binding, placed before the first greater key. *)
Fixpoint map_insert (k : K) (v : V) (m : list (K * V)) : list (K * V) :=
  match m with
  | [] => [(k, v)]
  | (k', v') :: m' =>
      if ltb k k' then (k, v) :: m else (k', v') :: map_insert k v m'
  end.

(** The binding of [k] rewritten in place. *)
Fixpoint map_modify (k : K) (f : V -> V) (m : list (K * V)) : list (K * V) :=
  match m with
  | [] => []
  | (k', v) :: m' =>
      if eqb k k' then (k', f v) :: m' else (k', v) :: map_modify k f m'
  end.

(** [m[k].method(...)]: [operator[]] binds [k] to a default-constructed
    value when it is absent and returns a reference, which the method [f]
    then updates. *)
Definition map_at (dflt : V) (k : K) (f : V -> V) (m : list (K * V))
  : list (K * V) :=
  match map_find k m with
  | Some _ => map_modify k f m
  | None => map_insert k (f dflt) m
  end.

(** [m[k]] read as a value. *)
Definition map_get (dflt : V) (k : K) (m : list (K * V)) : V :=
  match map_find k m with
  | Some v => v
  | None => dflt
  end.

End AssocMap.

Arguments map_find {K V} eqb k m.
Arguments map_erase {K V} eqb k m.
Arguments map_insert {K V} ltb k v m.
Arguments map_modify {K V} eqb k f m.
Arguments map_at {K V} eqb ltb dflt k f m.
Arguments map_get {K V} eqb dflt k m.

(** ** Sounds, sources and the device *)

(** Modelled from the spec: Sound.h is not part of the sources.  A sound
    has an opaque decoded-buffer handle, [0] until it is decoded, and a
    looping flag. *)
Record Sound : Type := mkSound { Buffer : N; IsLooping : bool }.

(** [Sound()] *)
Definition Sound_new : Sound := mkSound 0 false.

(** [const Sound *]: the address of a sound; [0] is [nullptr]. *)
Definition SoundPtr : Type := N.

(** [thread::id] *)
Definition ThreadId : Type := nat.

(** [map<const Sound *, QueueEntry>] *)
Definition SoundQueue : Type := list (SoundPtr * QueueEntry).

Definition queue_find (sound : SoundPtr) (q : SoundQueue) : option QueueEntry :=
  map_find N.eqb sound q.

Definition queue_erase (sound : SoundPtr) (q : SoundQueue) : SoundQueue :=
  map_erase N.eqb sound q.

(** [q[sound].Add(...)] *)
Definition queue_at (sound : SoundPtr) (f : QueueEntry -> QueueEntry)
  (q : SoundQueue) : SoundQueue :=
  map_at N.eqb N.ltb QueueEntry_new sound f q.

Definition queue_get (sound : SoundPtr) (q : SoundQueue) : QueueEntry :=
  map_get N.eqb QueueEntry_new sound q.

(** [class Source]: a device source bound to a sound. *)
Record Source : Type := mkSource { GetSound : SoundPtr; ID : N }.

(** The ways Audio.cpp touches the [deferred] map: the range-for of
    [Update], [deferred[sound]] in [Play], and [deferred.clear()]. *)
Inductive DeferredAccess : Type := Iterate | Insert | Clear.

(** What is recorded of a run: the lock scopes of [audioMutex], the
    accesses to the [deferred] map, and the OpenAL calls that act on the
    device or ask it for a source. *)
Inductive Event : Type :=
| Lock
| Unlock
| Deferred (a : DeferredAccess)
| alListenerf_GAIN (level : R)
| alSourcef_PITCH (id : N) (v : R)
| alSourcef_GAIN (id : N) (v : R)
| alSourcei_LOOPING (id : N) (looping : bool)
| alSourcei_BUFFER (id : N) (buffer : N)
| alSource3f_POSITION (id : N) (x y z : R)
| alSource3f_VELOCITY (id : N) (x y z : R)
| alSourceStop (id : N)
| alSourcePlay (id : N)
| alGenSources (result : N).

(** The globals of Audio.cpp, with the device as Audio.cpp sees it:
    [heap] is the memory read through a [const Sound *], whatever table
    the sound lives in, [al_playing id]
    tells whether [alGetSourcei(id, AL_SOURCE_STATE, _)] reports
    [AL_PLAYING], and [al_pending] lists what the coming [alGenSources]
    calls hand out ([0], or nothing left: the call fails and leaves the
    identifier [0]). *)
Record Audio : Type := mkAudio {
  volume : R;
  mainThreadID : ThreadId;
  queue : SoundQueue;
  deferred : SoundQueue;
  sounds : list (string * Sound);
  sources : list Source;
  recycledSources : list N;
  maxSources : N;
  loadQueue : list string;
  listener : Point;
  listenerVelocity : Point;
  heap : SoundPtr -> Sound;
  al_playing : N -> bool;
  al_pending : list N;
  trace : list Event
}.

Definition set_volume (v : R) (st : Audio) : Audio :=
  mkAudio v (mainThreadID st) (queue st) (deferred st) (sounds st)
    (sources st) (recycledSources st) (maxSources st) (loadQueue st)
    (listener st) (listenerVelocity st) (heap st) (al_playing st)
    (al_pending st) (trace st).

Definition set_queue (q : SoundQueue) (st : Audio) : Audio :=
  mkAudio (volume st) (mainThreadID st) q (deferred st) (sounds st)
    (sources st) (recycledSources st) (maxSources st) (loadQueue st)
    (listener st) (listenerVelocity st) (heap st) (al_playing st)
    (al_pending st) (trace st).

Definition set_deferred (q : SoundQueue) (st : Audio) : Audio :=
  mkAudio (volume st) (mainThreadID st) (queue st) q (sounds st)
    (sources st) (recycledSources st) (maxSources st) (loadQueue st)
    (listener st) (listenerVelocity st) (heap st) (al_playing st)
    (al_pending st) (trace st).

Definition set_sounds (t : list (string * Sound)) (st : Audio) : Audio :=
  mkAudio (volume st) (mainThreadID st) (queue st) (deferred st) t
    (sources st) (recycledSources st) (maxSources st) (loadQueue st)
    (listener st) (listenerVelocity st) (heap st) (al_playing st)
    (al_pending st) (trace st).

Definition set_sources (l : list Source) (st : Audio) : Audio :=
  mkAudio (volume st) (mainThreadID st) (queue st) (deferred st) (sounds st)
    l (recycledSources st) (maxSources st) (loadQueue st)
    (listener st) (listenerVelocity st) (heap st) (al_playing st)
    (al_pending st) (trace st).

Definition set_recycledSources (l : list N) (st : Audio) : Audio :=
  mkAudio (volume st) (mainThreadID st) (queue st) (deferred st) (sounds st)
    (sources st) l (maxSources st) (loadQueue st)
    (listener st) (listenerVelocity st) (heap st) (al_playing st)
    (al_pending st) (trace st).

Definition set_maxSources (n : N) (st : Audio) : Audio :=
  mkAudio (volume st) (mainThreadID st) (queue st) (deferred st) (sounds st)
    (sources st) (recycledSources st) n (loadQueue st)
    (listener st) (listenerVelocity st) (heap st) (al_playing st)
    (al_pending st) (trace st).

Definition set_loadQueue (l : list string) (st : Audio) : Audio :=
  mkAudio (volume st) (mainThreadID st) (queue st) (deferred st) (sounds st)
    (sources st) (recycledSources st) (maxSources st) l
    (listener st) (listenerVelocity st) (heap st) (al_playing st)
    (al_pending st) (trace st).

Definition set_listener (p v : Point) (st : Audio) : Audio :=
  mkAudio (volume st) (mainThreadID st) (queue st) (deferred st) (sounds st)
    (sources st) (recycledSources st) (maxSources st) (loadQueue st)
    p v (heap st) (al_playing st) (al_pending st) (trace st).

Definition set_al_pending (l : list N) (st : Audio) : Audio :=
  mkAudio (volume st) (mainThreadID st) (queue st) (deferred st) (sounds st)
    (sources st) (recycledSources st) (maxSources st) (loadQueue st)
    (listener st) (listenerVelocity st) (heap st) (al_playing st)
    l (trace st).

(** The device moves on by itself between two calls: sources finish
    playing, and what it can still hand out changes. *)
Definition set_device (playing : N -> bool) (pending : list N) (st : Audio)
  : Audio :=
  mkAudio (volume st) (mainThreadID st) (queue st) (deferred st) (sounds st)
    (sources st) (recycledSources st) (maxSources st) (loadQueue st)
    (listener st) (listenerVelocity st) (heap st) playing pending (trace st).

(** The loader thread decodes sounds: the memory read through the sound
    pointers changes. *)
Definition set_heap (h : SoundPtr -> Sound) (st : Audio) : Audio :=
  mkAudio (volume st) (mainThreadID st) (queue st) (deferred st) (sounds st)
    (sources st) (recycledSources st) (maxSources st) (loadQueue st)
    (listener st) (listenerVelocity st) h (al_playing st) (al_pending st)
    (trace st).

(** The events [evs] happen, in order. *)
Definition emit (evs : list Event) (st : Audio) : Audio :=
  mkAudio (volume st) (mainThreadID st) (queue st) (deferred st) (sounds st)
    (sources st) (recycledSources st) (maxSources st) (loadQueue st)
    (listener st) (listenerVelocity st) (heap st) (al_playing st)
    (al_pending st) (trace st ++ evs).

(** ** The facade *)

(** [Audio::SetVolume]: the stored volume is clamped to [0, 1], the
    listener gain gets the level as given. *)
Definition SetVolume (level : R) (st : Audio) : Audio :=
  emit [alListenerf_GAIN level] (set_volume (Rmin 1 (Rmax 0 level)) st).

(** [Audio::Update]: the listener moves and every binding of [deferred] is
    merged into [queue]; no lock is taken. *)
Definition merge_deferred (q : SoundQueue) (it : SoundPtr * QueueEntry)
  : SoundQueue :=
  queue_at (fst it) (fun e => AddEntry e (snd it)) q.

Definition Update (listenerPosition velocity : Point) (st : Audio) : Audio :=
  let st1 := set_listener listenerPosition velocity st in
  let st2 :=
    emit [Deferred Iterate]
      (set_queue (fold_left merge_deferred (deferred st1) (queue st1)) st1) in
  emit [Deferred Clear] (set_deferred [] st2).

(** [!volume] *)
Definition is_zero (x : R) : bool :=
  if Req_dec_T x 0 then true else false.

(** [Audio::Play(sound, position, velocity)] called by thread [tid]. *)
Definition Play (tid : ThreadId) (sound : SoundPtr)
  (position velocity : Point) (st : Audio) : Audio :=
  if (sound =? 0)%N || (Buffer (heap st sound) =? 0)%N || is_zero (volume st)
  then st
  else
    let add := fun e =>
      Add e (Point_sub position (listener st))
            (Point_sub velocity (listenerVelocity st)) in
    if (tid =? mainThreadID st)%nat
    then set_queue (queue_at sound add (queue st)) st
    else
      emit [Unlock]
        (emit [Deferred Insert]
           (set_deferred (queue_at sound add (deferred st))
              (emit [Lock] st))).

(** [Audio::Play(sound)]: at the listener, at full volume. *)
Definition Play_here (tid : ThreadId) (sound : SoundPtr) (st : Audio) : Audio :=
  Play tid sound (listener st) Point_zero st.

(** [Source::Move] *)
Definition Move (source : Source) (position velocity : Point) : list Event :=
  [ alSource3f_POSITION (ID source) (X position * 0.001) (Y position * 0.001) 0;
    alSource3f_VELOCITY (ID source) (X velocity * 0.001) (Y velocity * 0.001) 0 ].

(** The constructor [Source::Source(sound, source)]. *)
Definition Source_init (st : Audio) (sound : SoundPtr) (source : N) : list Event :=
  [ alSourcef_PITCH source 1;
    alSourcef_GAIN source 1;
    alSourcei_LOOPING source (IsLooping (heap st sound));
    alSourcei_BUFFER source (Buffer (heap st sound)) ].

(** The body of the first loop of [Audio::Step], for one source;
    [newSources] is the local vector. *)
Definition advance_source (acc : list Source * Audio) (source : Source)
  : list Source * Audio :=
  let (newSources, st) := acc in
  if IsLooping (heap st (GetSound source)) then
    match queue_find (GetSound source) (queue st) with
    | Some e =>
        (newSources ++ [source],
         set_queue (queue_erase (GetSound source) (queue st))
           (emit (Move source (Position e) (Velocity e)) st))
    | None =>
        (newSources,
         set_recycledSources (recycledSources st ++ [ID source])
           (emit [alSourceStop (ID source)] st))
    end
  else if al_playing st (ID source) then (newSources ++ [source], st)
  else (newSources, set_recycledSources (recycledSources st ++ [ID source]) st).

(** The first loop of [Audio::Step] and [newSources.swap(sources)]. *)
Definition advance (st : Audio) : Audio :=
  let (newSources, st1) := fold_left advance_source (sources st) ([], st) in
  set_sources newSources st1.

(** The assignment of a [size_t] to an [unsigned]. *)
Definition to_unsigned (n : N) : N := (n mod 2 ^ 32)%N.

(** The end of the body of the second loop: the new [Source] joins
    [sources], is moved to the entry and starts playing. *)
Definition start_source (sound : SoundPtr) (e : QueueEntry) (source : N)
  (st : Audio) : Audio :=
  let s := mkSource sound source in
  emit [alSourcePlay source]
    (emit (Move s (Position e) (Velocity e))
       (set_sources (sources st ++ [s])
          (emit (Source_init st sound source) st))).

(** The second loop of [Audio::Step], over the bindings [entries] of the
    queue; the two [break]s end it. *)
Fixpoint allocate (entries : SoundQueue) (st : Audio) : Audio :=
  match entries with
  | [] => st
  | (sound, e) :: rest =>
      match recycledSources st with
      | [] =>
          if (maxSources st <=? N.of_nat (List.length (sources st)))%N
          then st
          else
            let source := hd 0%N (al_pending st) in
            let st1 :=
              emit [alGenSources source]
                (set_al_pending (tl (al_pending st)) st) in
            if (source =? 0)%N
            then set_maxSources
                   (to_unsigned (N.of_nat (List.length (sources st1)))) st1
            else allocate rest (start_source sound e source st1)
      | _ :: _ =>
          let source := last (recycledSources st) 0%N in
          allocate rest
            (start_source sound e source
               (set_recycledSources (removelast (recycledSources st)) st))
      end
  end.

(** [Audio::Step] called by thread [tid]. *)
Definition Step (tid : ThreadId) (st : Audio) : Audio :=
  if negb (tid =? mainThreadID st)%nat then st
  else
    let st1 := advance st in
    set_queue [] (allocate (queue st1) st1).

(** ** Loading *)

Local Open Scope string_scope.

(** [path.rfind(needle)]: the greatest index at which [needle] occurs,
    [None] for [string::npos]. *)
Fixpoint rfind_from (needle path : string) (i : nat) : option nat :=
  if String.eqb (substring i (String.length needle) path) needle then Some i
  else
    match i with
    | O => None
    | S i' => rfind_from needle path i'
    end.

Definition rfind (needle path : string) : option nat :=
  if (String.length path <? String.length needle)%nat then None
  else rfind_from needle path (String.length path - String.length needle).

(** [path[i] == c] *)
Definition char_is (i : nat) (c : ascii) (path : string) : bool :=
  match String.get i path with
  | Some c' => Ascii.eqb c' c
  | None => false
  end.

(** [Name(path)] *)
Definition Name (path : string) : string :=
  if (String.length path <? 4)%nat
     || negb (String.eqb (substring (String.length path - 4) 4 path) ".wav")
  then ""
  else
    match rfind "sounds/" path with
    | None => ""
    | Some found =>
        let start := (found + 7)%nat in
        let end_ := (String.length path - 4)%nat in
        let end_ := if char_is (end_ - 1) "~" path then (end_ - 1)%nat else end_ in
        substring start (end_ - start) path
    end.

(** Modelled from the spec: Sound.cpp is not part of the sources.
    [Sound::Load(path)] decodes the file into a buffer handle, through the
    opaque [decode], and derives the looping flag from the marker before
    the extension. *)
Definition Sound_Load (decode : string -> N) (path : string) (s : Sound) : Sound :=
  mkSound (decode path) (char_is (String.length path - 5) "~" path).

(** [map<string, Sound>]: [sounds[name].Load(path)] *)
Definition sounds_at (name : string) (f : Sound -> Sound)
  (t : list (string * Sound)) : list (string * Sound) :=
  map_at String.eqb String.ltb Sound_new name f t.

(** The body of the loop of [Load] before the lock. *)
Definition load_path (decode : string -> N) (path : string) (st : Audio) : Audio :=
  let name := Name path in
  if String.eqb name "" then st
  else set_sounds (sounds_at name (Sound_Load decode path) (sounds st)) st.

(** The loop of [Load], entered with the local [path]; a turn pops one
    path, so [fuel] turns are enough for a list of [fuel] paths.  [None]:
    the loop did not return within [fuel] turns. *)
Fixpoint Load_loop (decode : string -> N) (fuel : nat) (path : string)
  (st : Audio) : option Audio :=
  match fuel with
  | O => None
  | S fuel' =>
      let st1 := load_path decode path st in
      let st2 := set_loadQueue (removelast (loadQueue st1)) st1 in
      match loadQueue st2 with
      | [] => Some st2
      | _ :: _ => Load_loop decode fuel' (last (loadQueue st2) "") st2
      end
  end.

(** [Load()], which [Audio::Init] starts in a thread of its own when the
    list of paths is not empty. *)
Definition Load (decode : string -> N) (st : Audio) : option Audio :=
  Load_loop decode (List.length (loadQueue st)) "" st.

Local Close Scope string_scope.

(** [Audio::Progress] *)
Definition Progress (st : Audio) : R :=
  match loadQueue st with
  | [] => 1
  | _ :: _ =>
      let done := INR (List.length (sounds st)) in
      let total := done + INR (List.length (loadQueue st)) in
      done / total
  end.

(** *** Progress as the specification words it *)

(** The number of assets loaded so far: the sounds of the table that have
    a buffer. *)
Definition loadedCount (st : Audio) : nat :=
  List.length
    (filter (fun it => negb (Buffer (snd it) =? 0)%N) (sounds st)).

(** [loadedCount / (loadedCount + remainingCount)], and 1 when no path is
    left. *)
Definition spec_Progress (st : Audio) : R :=
  match loadQueue st with
  | [] => 1
  | _ :: _ =>
      INR (loadedCount st)
      / (INR (loadedCount st) + INR (List.length (loadQueue st)))
  end.

(** ** Invariants and observations *)

(** A [std::map] binds a key at most once. *)
Definition queue_ok (q : SoundQueue) : Prop := NoDup (map fst q).

(** The bindings of a [std::map] come in the order of their keys. *)
Definition queue_sorted (q : SoundQueue) : Prop :=
  StronglySorted N.lt (map fst q).

(** A trace keeps the lock discipline of the [deferred] map when every
    access to [deferred] falls between a [Lock] and the [Unlock] after it;
    [held] tells whether the mutex is held where the trace starts. *)
Fixpoint guarded_from (held : bool) (evs : list Event) : bool :=
  match evs with
  | [] => true
  | Lock :: evs' => guarded_from true evs'
  | Unlock :: evs' => guarded_from false evs'
  | Deferred _ :: evs' => held && guarded_from held evs'
  | _ :: evs' => guarded_from held evs'
  end.

(** *** The first loop of Step as the specification words it *)

(** A source is kept when its sound is looping and the queue holds an
    entry for the sound, or its sound is not looping and the device
    reports it playing. *)
Definition keeps (st : Audio) (source : Source) : bool :=
  if IsLooping (heap st (GetSound source))
  then match queue_find (GetSound source) (queue st) with
       | Some _ => true
       | None => false
       end
  else al_playing st (ID source).

(** What the device is told about a source: a kept looping source is moved
    to its entry, a looping source without an entry is stopped. *)
Definition advance_events (st : Audio) (source : Source) : list Event :=
  if IsLooping (heap st (GetSound source))
  then match queue_find (GetSound source) (queue st) with
       | Some e => Move source (Position e) (Velocity e)
       | None => [alSourceStop (ID source)]
       end
  else [].

(** The sounds of the looping sources among [l]. *)
Definition looping_sounds (st : Audio) (l : list Source) : list SoundPtr :=
  map GetSound (filter (fun s => IsLooping (heap st (GetSound s))) l).

(** No two active sources play the same looping sound. *)
Definition sources_ok (st : Audio) : Prop :=
  NoDup (looping_sounds st (sources st)).

(** The identifiers of the active and of the recycled sources are all
    different. *)
Definition ids_ok (st : Audio) : Prop :=
  NoDup (map ID (sources st) ++ recycledSources st).

(** The device hands out no identifier that an active source has. *)
Definition pending_fresh (st : Audio) : Prop :=
  forall id,
    In id (al_pending st) -> id <> 0%N -> ~ In id (map ID (sources st)).

(** The identifiers around: those of the active sources, the recycled
    ones, and those the device is still to hand out. *)
Definition all_ids (st : Audio) : list N :=
  map ID (sources st) ++ recycledSources st
  ++ filter (fun id => negb (id =? 0)%N) (al_pending st).

(** Every identifier is in one place only. *)
Definition device_ok (st : Audio) : Prop := NoDup (all_ids st).

(** The queue without the entries of the sounds [l]. *)
Definition erase_all (l : list SoundPtr) (q : SoundQueue) : SoundQueue :=
  fold_left (fun q' sound => queue_erase sound q') l q.

(** *** The first loop of Step, source by source *)

(** The queue that the first loop finds when it comes to a source,
    [before] being the sources it has been through: the entries of their
    looping sounds are gone. *)
Definition queue_in_turn (st : Audio) (before : list Source) : SoundQueue :=
  erase_all (looping_sounds st before) (queue st).

(** A source is kept at its turn when its sound is looping, the queue
    holds an entry for the sound and no source before it plays the same
    sound, which would have taken the entry; or when its sound is not
    looping and the device reports it playing. *)
Definition keeps_in_turn (st : Audio) (before : list Source)
  (source : Source) : bool :=
  if IsLooping (heap st (GetSound source))
  then match queue_find (GetSound source) (queue st) with
       | Some _ =>
           negb (existsb (N.eqb (GetSound source)) (map GetSound before))
       | None => false
       end
  else al_playing st (ID source).

(** What the device is told about a source at its turn: the position and
    the velocity of the entry for a kept looping source, and to stop for a
    looping source that is not kept. *)
Definition events_in_turn (st : Audio) (before : list Source)
  (source : Source) : list Event :=
  if IsLooping (heap st (GetSound source))
  then match queue_find (GetSound source) (queue st) with
       | Some e =>
           if existsb (N.eqb (GetSound source)) (map GetSound before)
           then [alSourceStop (ID source)]
           else [ alSource3f_POSITION (ID source)
                    (X (Position e) * 0.001) (Y (Position e) * 0.001) 0;
                  alSource3f_VELOCITY (ID source)
                    (X (Velocity e) * 0.001) (Y (Velocity e) * 0.001) 0 ]
       | None => [alSourceStop (ID source)]
       end
  else [].

(** The sources [l], which come after [before], that are kept; the
    identifiers of those that are not; and what the device is told. *)
Fixpoint kept_in_turn (st : Audio) (before l : list Source) : list Source :=
  match l with
  | [] => []
  | s :: l' =>
      (if keeps_in_turn st before s then [s] else [])
      ++ kept_in_turn st (before ++ [s]) l'
  end.

Fixpoint recycled_in_turn (st : Audio) (before l : list Source) : list N :=
  match l with
  | [] => []
  | s :: l' =>
      (if keeps_in_turn st before s then [] else [ID s])
      ++ recycled_in_turn st (before ++ [s]) l'
  end.

Fixpoint events_of_turns (st : Audio) (before l : list Source)
  : list Event :=
  match l with
  | [] => []
  | s :: l' =>
      events_in_turn st before s ++ events_of_turns st (before ++ [s]) l'
  end.

(** *** The second loop of Step as the specification words it *)

(** [Allocates entries st st']: giving channels to the queue entries
    [entries], in order, leads from [st] to [st'].  An entry reuses the
    recycled identifier at the back when there is one; otherwise, only
    while the number of active sources is below the cap, the device is
    asked for a new identifier; when the device hands out none, the cap
    becomes the number of active sources and the entries left get
    nothing; at the cap, the entries left get nothing either. *)
Inductive Allocates : SoundQueue -> Audio -> Audio -> Prop :=
| Allocates_done (st : Audio) :
    Allocates [] st st
| Allocates_recycled (sound : SoundPtr) (e : QueueEntry) (rest : SoundQueue)
    (st st' : Audio) (ids : list N) (id : N) :
    recycledSources st = ids ++ [id] ->
    Allocates rest (start_source sound e id (set_recycledSources ids st)) st' ->
    Allocates ((sound, e) :: rest) st st'
| Allocates_at_cap (sound : SoundPtr) (e : QueueEntry) (rest : SoundQueue)
    (st : Audio) :
    recycledSources st = [] ->
    (maxSources st <= N.of_nat (List.length (sources st)))%N ->
    Allocates ((sound, e) :: rest) st st
| Allocates_new (sound : SoundPtr) (e : QueueEntry) (rest : SoundQueue)
    (st st' : Audio) (id : N) (pending : list N) :
    recycledSources st = [] ->
    (N.of_nat (List.length (sources st)) < maxSources st)%N ->
    al_pending st = id :: pending ->
    id <> 0%N ->
    Allocates rest
      (start_source sound e id
         (emit [alGenSources id] (set_al_pending pending st))) st' ->
    Allocates ((sound, e) :: rest) st st'
| Allocates_refused (sound : SoundPtr) (e : QueueEntry) (rest : SoundQueue)
    (st : Audio) :
    recycledSources st = [] ->
    (N.of_nat (List.length (sources st)) < maxSources st)%N ->
    hd 0%N (al_pending st) = 0%N ->
    Allocates ((sound, e) :: rest) st
      (set_maxSources (N.of_nat (List.length (sources st)))
         (emit [alGenSources 0]
            (set_al_pending (tl (al_pending st)) st))).

(** What the scheduler keeps true from frame to frame, whatever the
    loader does to the sounds in memory: the two request maps list their
    bindings in key order, the cap is an [unsigned], and every identifier
    is in one place only. *)
Definition Invariant (st : Audio) : Prop :=
  queue_sorted (queue st)
  /\ queue_sorted (deferred st)
  /\ (maxSources st < 2 ^ 32)%N
  /\ device_ok st.

(** ** Initial state and examples *)

(** The globals once [Audio::Init], called by thread [tid], has found the
    files [paths]; [heap], [playing] and [pending] describe the sounds in
    memory and the device. *)
Definition initial (tid : ThreadId) (paths : list string)
  (heap : SoundPtr -> Sound) (playing : N -> bool) (pending : list N)
  : Audio :=
  mkAudio 1 tid [] [] [] [] [] 255%N paths Point_zero Point_zero
    heap playing pending [].

(** A memory where the sound at address 7 is decoded and looping and every
    other sound is decoded and plays once. *)
Definition example_heap (sound : SoundPtr) : Sound :=
  if (sound =? 7)%N then mkSound 3 true else mkSound 4 false.

(** Thread 0 is the main thread; thread 1 has played sound 7. *)
Definition example_deferred : Audio :=
  Play 1%nat 7%N (mkPoint 3 4) (mkPoint 1 0)
    (initial 0%nat [] example_heap (fun _ => true) []).

(** The states the scheduler can be in: the initial state, and what the
    calls of the facade, by any thread, the device and the loader make of
    a state that can be reached.  The device hands out identifiers that
    are not around yet.  The loader runs in a thread of its own and may
    change any sound in memory at any time, the looping flag of a sound
    that sources play included: a second file of the same name is read
    into the same sound. *)
Inductive Reachable : Audio -> Prop :=
| Reachable_initial (tid : ThreadId) (paths : list string)
    (heap : SoundPtr -> Sound) (playing : N -> bool) (pending : list N) :
    device_ok (initial tid paths heap playing pending) ->
    Reachable (initial tid paths heap playing pending)
| Reachable_SetVolume (level : R) (st : Audio) :
    Reachable st -> Reachable (SetVolume level st)
| Reachable_Update (position velocity : Point) (st : Audio) :
    Reachable st -> Reachable (Update position velocity st)
| Reachable_Play (tid : ThreadId) (sound : SoundPtr)
    (position velocity : Point) (st : Audio) :
    Reachable st -> Reachable (Play tid sound position velocity st)
| Reachable_Step (tid : ThreadId) (st : Audio) :
    Reachable st -> Reachable (Step tid st)
| Reachable_device (playing : N -> bool) (pending : list N) (st : Audio) :
    Reachable st ->
    device_ok (set_device playing pending st) ->
    Reachable (set_device playing pending st)
| Reachable_loaded (h : SoundPtr -> Sound) (st : Audio) :
    Reachable st ->
    Reachable (set_heap h st).

(** Three sources are active: source 1 plays the looping sound 7, for
    which a request is queued; sources 2 and 3 play the sounds 8 and 9,
    which play once, and the device reports only source 2 as playing.  A
    request for sound 5 is queued too, and the device has two more sources
    to hand out. *)
Definition example_playing : Audio :=
  mkAudio 1 0%nat
    [ (5%N, Add QueueEntry_new (mkPoint 0 2) (mkPoint 0 1));
      (7%N, Add QueueEntry_new (mkPoint 3 4) (mkPoint 1 0)) ]
    [] []
    [ mkSource 7%N 1%N; mkSource 8%N 2%N; mkSource 9%N 3%N ]
    [] 255%N [] Point_zero Point_zero
    example_heap (fun id => (id =? 2)%N) [4%N; 5%N] [].

(** Source 1 plays the looping sound 7, the device has two sources to
    hand out, and another thread than the main one has handed in a
    request for the sound 7 and one for the sound 8, which plays once. *)
Definition example_handed_in : Audio :=
  mkAudio 1 0%nat []
    [ (7%N, Add QueueEntry_new (mkPoint 3 4) (mkPoint 1 0));
      (8%N, Add QueueEntry_new (mkPoint 0 2) (mkPoint 0 1)) ]
    []
    [ mkSource 7%N 1%N ]
    [] 255%N [] Point_zero Point_zero
    example_heap (fun _ => true) [4%N; 5%N]
    [Lock; Deferred Insert; Unlock; Lock; Deferred Insert; Unlock].

(** The sound 8, which plays once, is played in two frames and still
    plays on two sources when the loader reads a second file of the same
    name into it, one that loops. *)
Definition example_flipped : Audio :=
  set_heap (fun _ => mkSound 4 true)
    (Step 0%nat
       (Play 0%nat 8%N (mkPoint 1 0) (mkPoint 0 0)
          (Step 0%nat
             (Play 0%nat 8%N (mkPoint 1 0) (mkPoint 0 0)
                (initial 0%nat [] example_heap (fun _ => true)
                   [4%N; 5%N]))))).

(** Two sources play the looping sound 7, for which one request is
    queued. *)
Definition example_twice : Audio :=
  mkAudio 1 0%nat
    [ (7%N, Add QueueEntry_new (mkPoint 3 4) (mkPoint 1 0)) ]
    [] []
    [ mkSource 7%N 1%N; mkSource 7%N 2%N ]
    [] 255%N [] Point_zero Point_zero
    example_heap (fun _ => true) [4%N; 5%N] [].

(** Nothing is active; requests for the sounds 5, 8 and 9 are queued, and
    the device has two sources to hand out. *)
Definition example_requests : Audio :=
  mkAudio 1 0%nat
    [ (5%N, Add QueueEntry_new (mkPoint 0 2) (mkPoint 0 1));
      (8%N, Add QueueEntry_new (mkPoint 1 0) (mkPoint 0 0));
      (9%N, Add QueueEntry_new (mkPoint 3 4) (mkPoint 1 0)) ]
    [] [] [] [] 255%N [] Point_zero Point_zero
    example_heap (fun _ => true) [4%N; 5%N] [].

(** ** The rest of the facade *)

(** [Audio::Volume] *)
Definition Volume (st : Audio) : R := volume st.

(** [Audio::Get(name)]: [&sounds[name]], which binds [name] to a
    default-constructed sound when the table does not have it.  The
    pointer returned is given by the sound it points to. *)
Definition Get (name : string) (st : Audio) : Sound * Audio :=
  let t := sounds_at name (fun s => s) (sounds st) in
  (map_get String.eqb Sound_new name t, set_sounds t st).

(** One path is left to load and the sound named laser has been looked
    up, which no file has given a buffer yet. *)
Definition example_lookup : Audio :=
  snd (Get "laser"
         (initial 0%nat ["sounds/a.wav"%string] example_heap
            (fun _ => true) [])).

(** The calls [Audio::Quit] makes, in order. *)
Inductive Teardown : Type :=
| Quit_alSourceStop (id : N)
| alDeleteSources (id : N)
| alDeleteBuffers (buffer : N)
| loadThread_join
| alcMakeContextCurrent_null
| alcDestroyContext
| alcCloseDevice
| alutExit.

(** [Audio::Quit] from its lock up to the join: every active source is
    stopped and deleted, every recycled identifier is deleted, the buffer
    of every sound of the table is deleted, and the three containers are
    cleared. *)
Definition Quit_release (st : Audio) : Audio * list Teardown :=
  (set_sounds [] (set_recycledSources [] (set_sources [] st)),
   flat_map (fun source => [ Quit_alSourceStop (ID source);
                             alDeleteSources (ID source) ]) (sources st)
   ++ map alDeleteSources (recycledSources st)
   ++ map (fun it => alDeleteBuffers (Buffer (snd it))) (sounds st)).

(** The calls of [Audio::Quit] after the join. *)
Definition Quit_close : list Teardown :=
  [ alcMakeContextCurrent_null; alcDestroyContext; alcCloseDevice; alutExit ].

(** *** Quit and the thread of Load *)

(** Where the thread of [Load] stands: not started, in the loop before the
    lock with the local [path], at the [unique_lock] of the loop, or
    returned.  [std::thread::join] returns when the thread has returned,
    and throws [std::system_error] for a thread that was not started. *)
Inductive LoadThread : Type :=
| NotStarted
| Reading (path : string)
| AtLock
| LoadReturned.

(** Where the thread that calls [Audio::Quit] stands: at its
    [unique_lock], in [loadThread.join()] with the mutex held, returned,
    or left by the exception of the join. *)
Inductive QuitThread : Type :=
| AtEntry
| AtJoin
| QuitReturned
| QuitThrown.

(** The two threads, the state they share, whether [audioMutex] is held
    (by [Quit]: the locked part of the loop of [Load] is one step), and
    the calls [Quit] has made. *)
Record Threads : Type := mkThreads {
  audio : Audio;
  locked : bool;
  loader : LoadThread;
  quitter : QuitThread;
  calls : list Teardown
}.

(** A step of one of the two threads.  The loop of [Load] reads a file
    without the mutex and pops a path under it; [Quit] takes the mutex,
    releases the sources and the buffers, and joins the thread of [Load]
    with the mutex still held. *)
Inductive thread_step (decode : string -> N) : Threads -> Threads -> Prop :=
| Load_reads (path : string) (s : Threads) :
    loader s = Reading path ->
    thread_step decode s
      (mkThreads (load_path decode path (audio s)) (locked s) AtLock
         (quitter s) (calls s))
| Load_pops (s : Threads) :
    loader s = AtLock ->
    locked s = false ->
    thread_step decode s
      (mkThreads
         (set_loadQueue (removelast (loadQueue (audio s))) (audio s))
         false
         (match removelast (loadQueue (audio s)) with
          | [] => LoadReturned
          | _ :: _ =>
              Reading (last (removelast (loadQueue (audio s))) ""%string)
          end)
         (quitter s) (calls s))
| Quit_locks (s : Threads) :
    quitter s = AtEntry ->
    locked s = false ->
    thread_step decode s
      (mkThreads (fst (Quit_release (audio s))) true (loader s) AtJoin
         (calls s ++ snd (Quit_release (audio s))))
| Quit_joins (s : Threads) :
    quitter s = AtJoin ->
    loader s = LoadReturned ->
    thread_step decode s
      (mkThreads (audio s) false (loader s) QuitReturned
         (calls s ++ loadThread_join :: Quit_close))
| Quit_join_throws (s : Threads) :
    quitter s = AtJoin ->
    loader s = NotStarted ->
    thread_step decode s
      (mkThreads (audio s) false (loader s) QuitThrown
         (calls s ++ [loadThread_join])).

(** Any number of steps. *)
Inductive thread_steps (decode : string -> N) : Threads -> Threads -> Prop :=
| steps_none (s : Threads) : thread_steps decode s s
| steps_more (s s' s'' : Threads) :
    thread_step decode s s' ->
    thread_steps decode s' s'' ->
    thread_steps decode s s''.

(** The threads when [Quit] is called right after [Audio::Init], which
    starts the thread of [Load], with its local [path] empty, when the
    list of paths is not empty. *)
Definition threads_after_Init (st : Audio) : Threads :=
  mkThreads st false
    (match loadQueue st with
     | [] => NotStarted
     | _ :: _ => Reading ""%string
     end)
    AtEntry [].

(** The identifiers that a list of calls deletes, and the buffers. *)
Definition deleted_sources (calls : list Teardown) : list N :=
  flat_map (fun c => match c with alDeleteSources id => [id] | _ => [] end)
    calls.

Definition deleted_buffers (calls : list Teardown) : list N :=
  flat_map (fun c => match c with alDeleteBuffers b => [b] | _ => [] end)
    calls.

(** The sources the scheduler holds, active or recycled, are no more than
    the cap. *)
Definition pool_bounded (st : Audio) : Prop :=
  (N.of_nat (List.length (sources st) + List.length (recycledSources st))
   <= maxSources st)%N.

(** * Properties *)

(** ** Points *)

Lemma Point_eq (a b : Point) : X a = X b -> Y a = Y b -> a = b.
Proof. destruct a, b; simpl; intros -> ->; reflexivity. Qed.

Lemma Dot_self_nonneg (a : Point) : 0 <= Dot a a.
Proof. unfold Dot. nra. Qed.

Lemma Length_sqr (a : Point) : Length a * Length a = Dot a a.
Proof. unfold Length. apply sqrt_sqrt, Dot_self_nonneg. Qed.

Lemma Length_nonneg (a : Point) : 0 <= Length a.
Proof. unfold Length. apply sqrt_pos. Qed.

Lemma Point_add_zero_l (a : Point) : Point_add Point_zero a = a.
Proof. apply Point_eq; simpl; lra. Qed.

Lemma Point_add_assoc (a b c : Point) :
  Point_add (Point_add a b) c = Point_add a (Point_add b c).
Proof. apply Point_eq; simpl; lra. Qed.

(** ** The coalescer *)

(** The weight [Add] computes from the dot product is the weight of the
    specification, computed from the length. *)
Lemma Add_weight_spec (position : Point) :
  1 / Rmax 1 (Dot position position) = contribution_weight position.
Proof. unfold contribution_weight. now rewrite Length_sqr. Qed.

Lemma contribution_weight_pos (position : Point) :
  0 < contribution_weight position.
Proof.
  unfold contribution_weight.
  apply Rdiv_lt_0_compat; [lra|].
  apply Rlt_le_trans with 1; [lra | apply Rmax_l].
Qed.

Lemma contribution_weight_near (position : Point) :
  Length position <= 1 -> contribution_weight position = 1.
Proof.
  intros H. unfold contribution_weight.
  pose proof (Length_nonneg position) as H0.
  rewrite Rmax_left by nra. lra.
Qed.

Lemma total_weight_nonneg (cs : list Contribution) : 0 <= total_weight cs.
Proof.
  induction cs as [|c cs IH]; simpl; [lra|].
  pose proof (contribution_weight_pos (fst c)). lra.
Qed.

Lemma total_weight_pos (c : Contribution) (cs : list Contribution) :
  0 < total_weight (c :: cs).
Proof.
  simpl. pose proof (contribution_weight_pos (fst c)).
  pose proof (total_weight_nonneg cs). lra.
Qed.

Lemma Add_fields (e : QueueEntry) (position velocity : Point) :
  weight (Add e position velocity) = weight e + contribution_weight position
  /\ sum (Add e position velocity)
     = Point_add (sum e)
         (Point_scale (contribution_weight position) position)
  /\ speed (Add e position velocity)
     = speed e
       + contribution_weight position * sqrt (contribution_weight position)
         * Dot position velocity.
Proof. unfold Add; simpl. rewrite Add_weight_spec. auto. Qed.

Lemma AddAll_weight (cs : list Contribution) :
  forall e, weight (AddAll e cs) = weight e + total_weight cs.
Proof.
  induction cs as [|c cs IH]; intros e; simpl.
  - lra.
  - unfold AddAll in IH |- *. simpl. rewrite IH.
    destruct (Add_fields e (fst c) (snd c)) as [-> _]. lra.
Qed.

Lemma AddAll_sum (cs : list Contribution) :
  forall e, sum (AddAll e cs) = Point_add (sum e) (weighted_sum cs).
Proof.
  induction cs as [|c cs IH]; intros e; simpl.
  - apply Point_eq; simpl; lra.
  - unfold AddAll in IH |- *. simpl. rewrite IH.
    destruct (Add_fields e (fst c) (snd c)) as (_ & -> & _).
    apply Point_add_assoc.
Qed.

Lemma AddAll_speed (cs : list Contribution) :
  forall e, speed (AddAll e cs) = speed e + radial_speed_sum cs.
Proof.
  induction cs as [|c cs IH]; intros e; simpl.
  - lra.
  - unfold AddAll in IH |- *. simpl. rewrite IH.
    destruct (Add_fields e (fst c) (snd c)) as (_ & _ & ->). lra.
Qed.

Lemma Added_weight (cs : list Contribution) :
  weight (Added cs) = total_weight cs.
Proof. unfold Added. rewrite AddAll_weight. simpl. lra. Qed.

Lemma Added_sum (cs : list Contribution) :
  sum (Added cs) = weighted_sum cs.
Proof. unfold Added. rewrite AddAll_sum. simpl. apply Point_add_zero_l. Qed.

Lemma Added_speed (cs : list Contribution) :
  speed (Added cs) = radial_speed_sum cs.
Proof. unfold Added. rewrite AddAll_speed. simpl. lra. Qed.

(** C1.  Each [Add(position, velocity)] folded into an entry contributes
    with weight [w = 1 / max(1, |position|^2)], which is exactly [1] when
    [|position| <= 1]; after any sequence of such calls on a fresh entry
    the entry holds the sum of the weights and the weighted sum of the
    positions, [Position()] is the [w]-weighted average of the positions,
    and when the total weight is zero [Position()] is the raw accumulated
    sum. *)
Theorem Position_weighted_average (cs : list Contribution) :
  (forall e position velocity,
      weight (Add e position velocity)
      = weight e + contribution_weight position
      /\ sum (Add e position velocity)
         = Point_add (sum e)
             (Point_scale (contribution_weight position) position))
  /\ (forall position,
         Length position <= 1 -> contribution_weight position = 1)
  /\ weight (Added cs) = total_weight cs
  /\ sum (Added cs) = weighted_sum cs
  /\ (total_weight cs <> 0 -> Position (Added cs) = weighted_average cs)
  /\ (total_weight cs = 0 -> Position (Added cs) = sum (Added cs)).
Proof.
  split; [|split; [|split; [|split; [|split]]]].
  - intros e position velocity.
    destruct (Add_fields e position velocity) as (Hw & Hs & _). now split.
  - apply contribution_weight_near.
  - apply Added_weight.
  - apply Added_sum.
  - intros Hne. unfold Position, weighted_average.
    rewrite Added_weight, Added_sum.
    destruct (Req_dec_T (total_weight cs) 0) as [Hz|_]; [contradiction|reflexivity].
  - intros Hz. unfold Position. rewrite Added_weight.
    destruct (Req_dec_T (total_weight cs) 0) as [_|Hne]; [reflexivity|contradiction].
Qed.

Lemma Length_unit_x : Length (mkPoint 1 0) = 1.
Proof.
  unfold Length, Dot; simpl.
  replace (1 * 1 + 0 * 0) with 1 by lra. apply sqrt_1.
Qed.

(** C1 at three contributions at distances 5, 0 and 1, and at no
    contribution at all. *)
Lemma Position_weighted_average_witness :
  Length (mkPoint 1 0) <= 1
  /\ contribution_weight (mkPoint 1 0) = 1
  /\ total_weight
       [ (mkPoint 3 4, mkPoint 1 0); (mkPoint 0 0, mkPoint 0 1);
         (mkPoint 1 0, mkPoint 0 0) ] <> 0
  /\ Position
       (Added
          [ (mkPoint 3 4, mkPoint 1 0); (mkPoint 0 0, mkPoint 0 1);
            (mkPoint 1 0, mkPoint 0 0) ])
     = weighted_average
         [ (mkPoint 3 4, mkPoint 1 0); (mkPoint 0 0, mkPoint 0 1);
           (mkPoint 1 0, mkPoint 0 0) ]
  /\ total_weight [] = 0
  /\ Position (Added []) = sum (Added []).
Proof.
  assert (H1 : Length (mkPoint 1 0) <= 1) by (rewrite Length_unit_x; lra).
  assert (H2 : total_weight
                 [ (mkPoint 3 4, mkPoint 1 0); (mkPoint 0 0, mkPoint 0 1);
                   (mkPoint 1 0, mkPoint 0 0) ] <> 0).
  { apply Rgt_not_eq, total_weight_pos. }
  assert (H3 : total_weight [] = 0) by reflexivity.
  destruct (Position_weighted_average
              [ (mkPoint 3 4, mkPoint 1 0); (mkPoint 0 0, mkPoint 0 1);
                (mkPoint 1 0, mkPoint 0 0) ])
    as (_ & Hnear & _ & _ & Havg & _).
  destruct (Position_weighted_average []) as (_ & _ & _ & _ & _ & Hzero).
  split; [exact H1|]. split; [exact (Hnear _ H1)|].
  split; [exact H2|]. split; [exact (Havg H2)|].
  split; [exact H3 | exact (Hzero H3)].
Defined.

(** Three requests at the distances 5, 0 and 1 weigh 1/25, 1 and 1: the
    coalesced position is [(28/51, 4/51)]. *)
Example Position_three_distances :
  Position
    (Added
       [ (mkPoint 3 4, mkPoint 1 0); (mkPoint 0 0, mkPoint 0 1);
         (mkPoint 1 0, mkPoint 0 0) ])
  = mkPoint (28 / 51) (4 / 51).
Proof.
  unfold Position. rewrite Added_weight, Added_sum.
  assert (H5 : contribution_weight (mkPoint 3 4) = 1 / 25).
  { rewrite <- Add_weight_spec. unfold Dot; simpl.
    rewrite Rmax_right by lra. f_equal. lra. }
  assert (H0 : contribution_weight (mkPoint 0 0) = 1).
  { rewrite <- Add_weight_spec. unfold Dot; simpl.
    rewrite Rmax_left by lra. lra. }
  assert (H1 : contribution_weight (mkPoint 1 0) = 1).
  { rewrite <- Add_weight_spec. unfold Dot; simpl.
    rewrite Rmax_left by lra. lra. }
  unfold total_weight, weighted_sum; simpl. rewrite H5, H0, H1.
  destruct (Req_dec_T (1 / 25 + (1 + (1 + 0))) 0) as [H|_]; [lra|].
  apply Point_eq; simpl; lra.
Qed.

(** An [Add] at a position with [|position|^2 <= 1]: the weight is [1]. *)
Lemma Add_near (e : QueueEntry) (position velocity : Point) :
  Dot position position <= 1 ->
  Add e position velocity
  = mkQueueEntry (Point_add (sum e) position)
      (speed e + Dot position velocity) (weight e + 1).
Proof.
  intros H. unfold Add. rewrite Rmax_left by exact H.
  replace (1 / 1) with 1 by lra. rewrite sqrt_1.
  f_equal; [apply Point_eq; simpl; lra | lra].
Qed.


Lemma Position_twice :
  Position (mkQueueEntry (mkPoint 2 0) 2 2) = mkPoint 1 0.
Proof.
  unfold Position; simpl.
  destruct (Req_dec_T 2 0) as [H|_]; [lra|].
  apply Point_eq; simpl; lra.
Qed.






(** ** Maps *)

Section AssocMapFacts.

Variables K V : Type.
Variable eqb : K -> K -> bool.
Hypothesis eqb_eq : forall a b : K, eqb a b = true <-> a = b.

Lemma eqb_refl' (k : K) : eqb k k = true.
Proof. now apply eqb_eq. Qed.

Lemma eqb_neq' (a b : K) : a <> b -> eqb a b = false.
Proof.
  intros H. destruct (eqb a b) eqn:E; [|reflexivity].
  apply eqb_eq in E. contradiction.
Qed.

Lemma map_find_None (k : K) (m : list (K * V)) :
  map_find eqb k m = None <-> ~ In k (map fst m).
Proof.
  induction m as [|[k' v] m IH]; simpl.
  - tauto.
  - destruct (eqb k k') eqn:E.
    + apply eqb_eq in E. subst. split; [discriminate | intros H; exfalso; auto].
    + rewrite IH. split.
      * intros H [H1|H1]; [subst; rewrite eqb_refl' in E; discriminate | auto].
      * intros H H1. apply H. now right.
Qed.

Lemma map_find_In (k : K) (v : V) (m : list (K * V)) :
  map_find eqb k m = Some v -> In (k, v) m.
Proof.
  induction m as [|[k' v'] m IH]; simpl; [discriminate|].
  destruct (eqb k k') eqn:E.
  - apply eqb_eq in E. intros [= ->]. subst. now left.
  - intros H. right. now apply IH.
Qed.

Lemma map_find_erase_same (k : K) (m : list (K * V)) :
  map_find eqb k (map_erase eqb k m) = None.
Proof.
  induction m as [|[k' v] m IH]; simpl; [reflexivity|].
  destruct (eqb k k') eqn:E; simpl; [exact IH|]. now rewrite E.
Qed.

Lemma map_find_erase_other (k k' : K) (m : list (K * V)) :
  k <> k' -> map_find eqb k' (map_erase eqb k m) = map_find eqb k' m.
Proof.
  intros Hne. induction m as [|[k0 v] m IH]; simpl; [reflexivity|].
  destruct (eqb k k0) eqn:E; simpl.
  - apply eqb_eq in E. subst k0.
    rewrite (eqb_neq' k' k) by congruence. exact IH.
  - now rewrite IH.
Qed.

Variable ltb : K -> K -> bool.

Lemma map_find_insert_same (k : K) (v : V) (m : list (K * V)) :
  map_find eqb k m = None -> map_find eqb k (map_insert ltb k v m) = Some v.
Proof.
  induction m as [|[k' v'] m IH]; simpl.
  - now rewrite eqb_refl'.
  - destruct (eqb k k') eqn:E; [discriminate|]. intros H.
    destruct (ltb k k'); simpl.
    + now rewrite eqb_refl'.
    + rewrite E. now apply IH.
Qed.

Lemma map_find_insert_other (k k' : K) (v : V) (m : list (K * V)) :
  k <> k' -> map_find eqb k' (map_insert ltb k v m) = map_find eqb k' m.
Proof.
  intros Hne. induction m as [|[k0 v0] m IH]; simpl.
  - now rewrite (eqb_neq' k' k) by congruence.
  - destruct (ltb k k0); simpl.
    + now rewrite (eqb_neq' k' k) by congruence.
    + now rewrite IH.
Qed.

Lemma map_find_modify_same (k : K) (f : V -> V) (v : V) (m : list (K * V)) :
  map_find eqb k m = Some v ->
  map_find eqb k (map_modify eqb k f m) = Some (f v).
Proof.
  induction m as [|[k' v'] m IH]; simpl; [discriminate|].
  destruct (eqb k k') eqn:E; simpl; rewrite E.
  - now intros [= ->].
  - exact IH.
Qed.

Lemma map_find_modify_other (k k' : K) (f : V -> V) (m : list (K * V)) :
  k <> k' -> map_find eqb k' (map_modify eqb k f m) = map_find eqb k' m.
Proof.
  intros Hne. induction m as [|[k0 v0] m IH]; simpl; [reflexivity|].
  destruct (eqb k k0) eqn:E; simpl.
  - apply eqb_eq in E. subst k0. now rewrite (eqb_neq' k' k) by congruence.
  - now rewrite IH.
Qed.

Lemma map_find_at_same (dflt : V) (k : K) (f : V -> V) (m : list (K * V)) :
  map_find eqb k (map_at eqb ltb dflt k f m)
  = Some (f (map_get eqb dflt k m)).
Proof.
  unfold map_at, map_get. destruct (map_find eqb k m) as [v|] eqn:E.
  - now apply map_find_modify_same.
  - now apply map_find_insert_same.
Qed.

Lemma map_find_at_other (dflt : V) (k k' : K) (f : V -> V) (m : list (K * V)) :
  k <> k' ->
  map_find eqb k' (map_at eqb ltb dflt k f m) = map_find eqb k' m.
Proof.
  intros Hne. unfold map_at. destruct (map_find eqb k m).
  - now apply map_find_modify_other.
  - now apply map_find_insert_other.
Qed.

Lemma map_get_at_other (dflt : V) (k k' : K) (f : V -> V) (m : list (K * V)) :
  k <> k' ->
  map_get eqb dflt k' (map_at eqb ltb dflt k f m) = map_get eqb dflt k' m.
Proof. intros Hne. unfold map_get. now rewrite map_find_at_other. Qed.

End AssocMapFacts.

Arguments map_find_None {K V} eqb eqb_eq k m.
Arguments map_find_In {K V} eqb eqb_eq k v m.

(** The same for the request queues, keyed by sound. *)

Lemma queue_find_at_same (sound : SoundPtr) (f : QueueEntry -> QueueEntry)
  (q : SoundQueue) :
  queue_find sound (queue_at sound f q) = Some (f (queue_get sound q)).
Proof. apply map_find_at_same, N.eqb_eq. Qed.

Lemma queue_find_at_other (sound sound' : SoundPtr)
  (f : QueueEntry -> QueueEntry) (q : SoundQueue) :
  sound <> sound' ->
  queue_find sound' (queue_at sound f q) = queue_find sound' q.
Proof. apply map_find_at_other, N.eqb_eq. Qed.

Lemma queue_get_at_other (sound sound' : SoundPtr)
  (f : QueueEntry -> QueueEntry) (q : SoundQueue) :
  sound <> sound' ->
  queue_get sound' (queue_at sound f q) = queue_get sound' q.
Proof. apply map_get_at_other, N.eqb_eq. Qed.

Lemma queue_find_erase_same (sound : SoundPtr) (q : SoundQueue) :
  queue_find sound (queue_erase sound q) = None.
Proof. apply map_find_erase_same. Qed.

Lemma queue_find_erase_other (sound sound' : SoundPtr) (q : SoundQueue) :
  sound <> sound' ->
  queue_find sound' (queue_erase sound q) = queue_find sound' q.
Proof. apply map_find_erase_other, N.eqb_eq. Qed.

Lemma queue_find_None (sound : SoundPtr) (q : SoundQueue) :
  queue_find sound q = None <-> ~ In sound (map fst q).
Proof. exact (map_find_None N.eqb N.eqb_eq sound q). Qed.

Lemma map_modify_keys {K V : Type} (eqb : K -> K -> bool) (k : K)
  (f : V -> V) (m : list (K * V)) :
  map fst (map_modify eqb k f m) = map fst m.
Proof.
  induction m as [|[k' v] m IH]; simpl; [reflexivity|].
  destruct (eqb k k'); simpl; [reflexivity | now rewrite IH].
Qed.

Lemma map_insert_keys_In {K V : Type} (ltb : K -> K -> bool) (k k' : K)
  (v : V) (m : list (K * V)) :
  In k' (map fst (map_insert ltb k v m)) <-> k' = k \/ In k' (map fst m).
Proof.
  induction m as [|[k0 v0] m IH]; simpl.
  - intuition.
  - destruct (ltb k k0); simpl; [intuition|]. rewrite IH. intuition.
Qed.

Lemma map_insert_keys_NoDup {K V : Type} (ltb : K -> K -> bool) (k : K)
  (v : V) (m : list (K * V)) :
  ~ In k (map fst m) -> NoDup (map fst m) ->
  NoDup (map fst (map_insert ltb k v m)).
Proof.
  induction m as [|[k0 v0] m IH]; simpl; intros Hin Hnd.
  - constructor; [auto | constructor].
  - destruct (ltb k k0); simpl.
    + constructor; [exact Hin | exact Hnd].
    + inversion Hnd as [|? ? Hk0 Hm]; subst. constructor.
      * rewrite map_insert_keys_In. intros [->|H]; [apply Hin; now left | auto].
      * apply IH; [intros H; apply Hin; now right | exact Hm].
Qed.

Lemma queue_at_ok (sound : SoundPtr) (f : QueueEntry -> QueueEntry)
  (q : SoundQueue) :
  queue_ok q -> queue_ok (queue_at sound f q).
Proof.
  unfold queue_ok, queue_at, map_at. intros H.
  destruct (map_find N.eqb sound q) eqn:E.
  - now rewrite map_modify_keys.
  - apply map_insert_keys_NoDup; [|exact H].
    now apply (map_find_None N.eqb N.eqb_eq).
Qed.

(** ** Update: the deferred requests reach the queue *)

Lemma merge_deferred_find (d : SoundQueue) :
  queue_ok d ->
  forall (q : SoundQueue) (sound : SoundPtr),
    queue_find sound (fold_left merge_deferred d q)
    = match queue_find sound d with
      | Some x => Some (AddEntry (queue_get sound q) x)
      | None => queue_find sound q
      end.
Proof.
  unfold queue_ok.
  induction d as [|[k x] d IH]; intros Hnd q sound; simpl; [reflexivity|].
  inversion Hnd as [|? ? Hk Hd]; subst.
  rewrite (IH Hd).
  replace (merge_deferred q (k, x))
    with (queue_at k (fun e => AddEntry e x) q) by reflexivity.
  change (queue_find sound ((k, x) :: d))
    with (if (sound =? k)%N then Some x else queue_find sound d).
  destruct (N.eqb_spec sound k) as [->|Hne].
  - assert (Hnone : queue_find k d = None) by now apply queue_find_None.
    rewrite Hnone. apply queue_find_at_same.
  - rewrite queue_get_at_other, queue_find_at_other by congruence.
    reflexivity.
Qed.

Lemma Step_clears_queue (st : Audio) :
  queue (Step (mainThreadID st) st) = [].
Proof. unfold Step. now rewrite Nat.eqb_refl. Qed.

Lemma Play_deferred (tid : ThreadId) (sound : SoundPtr)
  (position velocity : Point) (st : Audio) :
  tid <> mainThreadID st -> sound <> 0%N ->
  Buffer (heap st sound) <> 0%N -> volume st <> 0 ->
  Play tid sound position velocity st
  = emit [Lock; Deferred Insert; Unlock]
      (set_deferred
         (queue_at sound
            (fun e =>
               Add e (Point_sub position (listener st))
                 (Point_sub velocity (listenerVelocity st)))
            (deferred st)) st).
Proof.
  intros Htid Hs Hb Hv. unfold Play, is_zero.
  apply N.eqb_neq in Hs, Hb. rewrite Hs, Hb.
  destruct (Req_dec_T (volume st) 0) as [|_]; [contradiction|]. simpl.
  apply Nat.eqb_neq in Htid. rewrite Htid.
  unfold emit, set_deferred; simpl. now rewrite <- !app_assoc.
Qed.

Lemma example_deferred_eq :
  example_deferred
  = emit [Lock; Deferred Insert; Unlock]
      (set_deferred
         [(7%N, Add QueueEntry_new (mkPoint 3 4) (mkPoint 1 0))]
         (initial 0%nat [] example_heap (fun _ => true) [])).
Proof.
  unfold example_deferred. rewrite Play_deferred; simpl;
    [|discriminate|discriminate|discriminate|lra].
  unfold Point_sub, Point_zero; simpl.
  replace (mkPoint (3 - 0) (4 - 0)) with (mkPoint 3 4)
    by (apply Point_eq; simpl; lra).
  replace (mkPoint (1 - 0) (0 - 0)) with (mkPoint 1 0)
    by (apply Point_eq; simpl; lra).
  reflexivity.
Qed.

(** ** Play: requests that are ignored *)

Lemma Play_null (tid : ThreadId) (position velocity : Point) (st : Audio) :
  Play tid 0%N position velocity st = st.
Proof. reflexivity. Qed.

Lemma Play_unloaded (tid : ThreadId) (sound : SoundPtr)
  (position velocity : Point) (st : Audio) :
  Buffer (heap st sound) = 0%N -> Play tid sound position velocity st = st.
Proof.
  intros H. unfold Play. rewrite H. simpl. now rewrite orb_true_r.
Qed.

Lemma Play_muted (tid : ThreadId) (sound : SoundPtr)
  (position velocity : Point) (st : Audio) :
  volume st = 0 -> Play tid sound position velocity st = st.
Proof.
  intros H. unfold Play, is_zero.
  destruct (Req_dec_T (volume st) 0) as [_|Hne]; [|contradiction].
  now rewrite orb_true_r.
Qed.

(** [Step] never reads the volume. *)
Lemma advance_source_volume (v : R) (acc : list Source) (st : Audio)
  (s : Source) :
  advance_source (acc, set_volume v st) s
  = (fst (advance_source (acc, st) s),
     set_volume v (snd (advance_source (acc, st) s))).
Proof.
  unfold advance_source. cbn [heap queue al_playing set_volume].
  destruct (IsLooping (heap st (GetSound s))).
  - now destruct (queue_find (GetSound s) (queue st)).
  - now destruct (al_playing st (ID s)).
Qed.

Lemma advance_volume (v : R) (st : Audio) :
  advance (set_volume v st) = set_volume v (advance st).
Proof.
  unfold advance. cbn [sources set_volume].
  assert (H : forall l acc s,
            fold_left advance_source l (acc, set_volume v s)
            = (fst (fold_left advance_source l (acc, s)),
               set_volume v (snd (fold_left advance_source l (acc, s))))).
  { induction l as [|x l IH]; intros acc s; cbn [fold_left]; [reflexivity|].
    rewrite advance_source_volume.
    destruct (advance_source (acc, s) x) as [acc' s']. apply IH. }
  rewrite H.
  now destruct (fold_left advance_source (sources st) ([], st)).
Qed.

Lemma allocate_volume (v : R) (entries : SoundQueue) :
  forall st,
    allocate entries (set_volume v st) = set_volume v (allocate entries st).
Proof.
  induction entries as [|[sound e] rest IH]; intros st; [reflexivity|].
  cbn [allocate]. cbn [recycledSources maxSources sources al_pending set_volume].
  destruct (recycledSources st) as [|id0 ids].
  - destruct (maxSources st <=? N.of_nat (List.length (sources st)))%N;
      [reflexivity|].
    destruct (hd 0%N (al_pending st) =? 0)%N; [reflexivity|].
    rewrite <- IH. reflexivity.
  - rewrite <- IH. reflexivity.
Qed.

Lemma Step_volume (v : R) (tid : ThreadId) (st : Audio) :
  Step tid (set_volume v st) = set_volume v (Step tid st).
Proof.
  unfold Step. cbn [mainThreadID set_volume].
  destruct (tid =? mainThreadID st)%nat; [|reflexivity]. cbn [negb].
  rewrite advance_volume. cbn [queue set_volume].
  now rewrite allocate_volume.
Qed.

(** C7.  A [Play] with a null sound, with a sound whose buffer is not
    loaded, or while the volume is zero returns the state it was given:
    neither [queue] nor [deferred] changes, no source is touched and no
    device call is made.  Setting the volume to zero makes the volume zero
    and tells the device the listener gain, leaving the active sources as
    they are and stopping none; and a [Step] does to the sources what it
    does at any other volume. *)
Theorem Play_ignored (tid : ThreadId) (sound : SoundPtr)
  (position velocity : Point) (st : Audio) :
  (sound = 0%N \/ Buffer (heap st sound) = 0%N \/ volume st = 0 ->
   Play tid sound position velocity st = st
   /\ Play_here tid sound st = st)
  /\ volume (SetVolume 0 st) = 0
  /\ sources (SetVolume 0 st) = sources st
  /\ recycledSources (SetVolume 0 st) = recycledSources st
  /\ trace (SetVolume 0 st) = trace st ++ [alListenerf_GAIN 0]
  /\ (forall tid', Step tid' (set_volume 0 st) = set_volume 0 (Step tid' st)).
Proof.
  split.
  - intros [->|[H|H]]; unfold Play_here.
    + now rewrite !Play_null.
    + now rewrite !Play_unloaded.
    + now rewrite !Play_muted.
  - split; [|split; [|split; [|split]]]; try reflexivity.
    + simpl. rewrite Rmax_left by lra. unfold Rmin.
      destruct (Rle_dec 1 0); lra.
    + intros tid'. apply Step_volume.
Qed.

(** C7 at a muted state with a request pending in [deferred]. *)
Lemma Play_ignored_witness :
  volume (set_volume 0 example_deferred) = 0
  /\ Play 0%nat 7%N (mkPoint 5 5) (mkPoint 1 1) (set_volume 0 example_deferred)
     = set_volume 0 example_deferred
  /\ Play 1%nat 0%N (mkPoint 5 5) (mkPoint 1 1) example_deferred
     = example_deferred.
Proof.
  assert (H : volume (set_volume 0 example_deferred) = 0) by reflexivity.
  split; [exact H|]. split.
  - exact (proj1
             (proj1
                (Play_ignored 0%nat 7%N (mkPoint 5 5) (mkPoint 1 1)
                   (set_volume 0 example_deferred))
                (or_intror (or_intror H)))).
  - exact (proj1
             (proj1
                (Play_ignored 1%nat 0%N (mkPoint 5 5) (mkPoint 1 1)
                   example_deferred)
                (or_introl eq_refl))).
Defined.

(** ** Step from another thread *)

(** C10.  A [Step] called by a thread other than the main one returns the
    state it was given: no source is advanced, stopped, recycled or
    allocated, and the queue is neither drained nor cleared. *)
Theorem Step_other_thread (tid : ThreadId) (st : Audio) :
  tid <> mainThreadID st -> Step tid st = st.
Proof.
  intros H. unfold Step. apply Nat.eqb_neq in H. now rewrite H.
Qed.

(** C10 at a state with a pending request, for thread 1. *)
Lemma Step_other_thread_witness :
  1%nat <> mainThreadID
             (Update (mkPoint 1 1) (mkPoint 0 0) example_deferred)
  /\ Step 1%nat (Update (mkPoint 1 1) (mkPoint 0 0) example_deferred)
     = Update (mkPoint 1 1) (mkPoint 0 0) example_deferred.
Proof.
  assert (H : 1%nat <> mainThreadID
                         (Update (mkPoint 1 1) (mkPoint 0 0)
                            example_deferred)).
  { rewrite example_deferred_eq. simpl. discriminate. }
  split; [exact H | exact (Step_other_thread 1%nat _ H)].
Defined.

(** ** Progress *)

(** The ratio of the specification lies below the ratio of the code:
    a count below the size of the table gives a smaller quotient. *)
Lemma ratio_le (a b r : R) :
  0 <= a <= b -> 0 < r -> a / (a + r) <= b / (b + r).
Proof.
  intros [Ha Hab] Hr.
  assert (Hdiff : b / (b + r) - a / (a + r)
                  = r * (b - a) / ((b + r) * (a + r))) by (field; lra).
  assert (Hpos : 0 <= r * (b - a) / ((b + r) * (a + r))).
  { apply Rmult_le_pos; [apply Rmult_le_pos; lra|].
    apply Rlt_le, Rinv_0_lt_compat, Rmult_lt_0_compat; lra. }
  lra.
Qed.

(** C9, the claim as worded refuted.  With one path left, a [Get] of a
    name that no file has filled yet puts an entry in the table: no asset
    is loaded, so the claim's ratio is 0, and [Progress()] is 1/2. *)
Theorem Progress_counts_lookups :
  loadQueue example_lookup = ["sounds/a.wav"%string]
  /\ loadedCount example_lookup = 0%nat
  /\ spec_Progress example_lookup = 0
  /\ Progress example_lookup = 1 / 2
  /\ Progress example_lookup <> spec_Progress example_lookup.
Proof.
  assert (Hs : spec_Progress example_lookup = 0).
  { unfold spec_Progress, example_lookup. simpl. lra. }
  assert (Hp : Progress example_lookup = 1 / 2).
  { unfold Progress, example_lookup. simpl. lra. }
  split; [reflexivity|]. split; [reflexivity|].
  split; [exact Hs|]. split; [exact Hp|].
  rewrite Hs, Hp. lra.
Qed.

(** C9.  [Progress()] is [1] when no path is left to load, and otherwise
    the number of entries of the table of sounds, which counts every name
    that [Get] or [Load] has put there, loaded or not, over that number
    plus the number of paths left; it always lies between 0 and 1.  It is
    the ratio of the specification when every sound of the table is
    loaded, and never below it. *)
Theorem Progress_range (st : Audio) :
  (loadQueue st = [] -> Progress st = 1)
  /\ (loadQueue st <> [] ->
      Progress st
      = INR (List.length (sounds st))
        / (INR (List.length (sounds st))
           + INR (List.length (loadQueue st))))
  /\ 0 <= Progress st <= 1
  /\ (loadedCount st = List.length (sounds st) ->
      Progress st = spec_Progress st)
  /\ spec_Progress st <= Progress st.
Proof.
  assert (Hcount : (loadedCount st <= List.length (sounds st))%nat)
    by apply filter_length_le.
  unfold Progress, spec_Progress. destruct (loadQueue st) as [|p ps] eqn:E.
  - split; [reflexivity|]. split; [intros H; now destruct H|].
    split; [lra|]. split; [reflexivity | lra].
  - split; [discriminate|]. split; [reflexivity|].
    set (done := INR (List.length (sounds st))).
    set (left := INR (List.length (p :: ps))).
    assert (Hd : 0 <= done) by apply pos_INR.
    assert (Hl : 0 < left) by (apply lt_0_INR; simpl; lia).
    assert (Hi : 0 < / (done + left)) by (apply Rinv_0_lt_compat; lra).
    assert (Hone : (done + left) * / (done + left) = 1)
      by (apply Rinv_r; lra).
    split; [unfold Rdiv; split; nra|]. split.
    + intros Hall. now rewrite Hall.
    + apply ratio_le; [|exact Hl]. split; [apply pos_INR|].
      now apply le_INR.
Qed.

(** C9 before any file is found; with one sound loaded, one looked up and
    not loaded, and one path left; and with every sound of the table
    loaded. *)
Lemma Progress_range_witness :
  loadQueue (initial 0%nat [] example_heap (fun _ => true) []) = []
  /\ Progress (initial 0%nat [] example_heap (fun _ => true) []) = 1
  /\ loadQueue
       (load_path (fun _ => 3%N) "sounds/a.wav" example_lookup) <> []
  /\ Progress (load_path (fun _ => 3%N) "sounds/a.wav" example_lookup)
     = INR 2 / (INR 2 + INR 1)
  /\ loadedCount
       (load_path (fun _ => 3%N) "sounds/a.wav"
          (initial 0%nat ["sounds/a.wav"%string; "sounds/b~.wav"%string]
             example_heap (fun _ => true) []))
     = List.length
         (sounds
            (load_path (fun _ => 3%N) "sounds/a.wav"
               (initial 0%nat
                  ["sounds/a.wav"%string; "sounds/b~.wav"%string]
                  example_heap (fun _ => true) [])))
  /\ Progress
       (load_path (fun _ => 3%N) "sounds/a.wav"
          (initial 0%nat ["sounds/a.wav"%string; "sounds/b~.wav"%string]
             example_heap (fun _ => true) []))
     = spec_Progress
         (load_path (fun _ => 3%N) "sounds/a.wav"
            (initial 0%nat ["sounds/a.wav"%string; "sounds/b~.wav"%string]
               example_heap (fun _ => true) [])).
Proof.
  assert (H1 : loadQueue (initial 0%nat [] example_heap (fun _ => true) []) = [])
    by reflexivity.
  assert (H2 : loadQueue
                 (load_path (fun _ => 3%N) "sounds/a.wav" example_lookup)
               <> []) by discriminate.
  assert (H3 : loadedCount
                 (load_path (fun _ => 3%N) "sounds/a.wav"
                    (initial 0%nat
                       ["sounds/a.wav"%string; "sounds/b~.wav"%string]
                       example_heap (fun _ => true) []))
               = List.length
                   (sounds
                      (load_path (fun _ => 3%N) "sounds/a.wav"
                         (initial 0%nat
                            ["sounds/a.wav"%string; "sounds/b~.wav"%string]
                            example_heap (fun _ => true) []))))
    by reflexivity.
  split; [exact H1|].
  split; [exact (proj1 (Progress_range _) H1)|].
  split; [exact H2|].
  split; [exact (proj1 (proj2 (Progress_range _)) H2)|].
  split; [exact H3|].
  exact (proj1 (proj2 (proj2 (proj2 (Progress_range _)))) H3).
Defined.

(** ** The lock discipline of [deferred] *)

Lemma Play_trace (tid : ThreadId) (sound : SoundPtr)
  (position velocity : Point) (st : Audio) :
  trace (Play tid sound position velocity st) = trace st
  \/ trace (Play tid sound position velocity st)
     = trace st ++ [Lock; Deferred Insert; Unlock].
Proof.
  unfold Play.
  destruct ((sound =? 0)%N || (Buffer (heap st sound) =? 0)%N
            || is_zero (volume st)); [now left|].
  destruct (tid =? mainThreadID st)%nat; [now left|].
  right. simpl. now rewrite <- !app_assoc.
Qed.

(** What [Play] adds to the trace keeps the lock discipline. *)
Lemma Play_guarded (tid : ThreadId) (sound : SoundPtr)
  (position velocity : Point) (st : Audio) :
  exists evs,
    trace (Play tid sound position velocity st) = trace st ++ evs
    /\ guarded_from false evs = true.
Proof.
  destruct (Play_trace tid sound position velocity st) as [H|H].
  - exists []. now rewrite app_nil_r.
  - now exists [Lock; Deferred Insert; Unlock].
Qed.

(** C6.  [Update] reads and clears [deferred] without taking the mutex:
    what it adds to the trace is the two accesses, outside any lock scope,
    whatever the state; [Play] from another thread does hold the mutex
    around its access. *)
Theorem Update_accesses_deferred_unlocked (listenerPosition velocity : Point)
  (st : Audio) :
  trace (Update listenerPosition velocity st)
  = trace st ++ [Deferred Iterate; Deferred Clear]
  /\ guarded_from false [Deferred Iterate; Deferred Clear] = false
  /\ trace (Update listenerPosition velocity example_deferred)
     = [Lock; Deferred Insert; Unlock; Deferred Iterate; Deferred Clear]
  /\ guarded_from false
       (trace (Update listenerPosition velocity example_deferred))
     = false.
Proof.
  assert (H : forall s, trace (Update listenerPosition velocity s)
                        = trace s ++ [Deferred Iterate; Deferred Clear]).
  { intros s. unfold Update; simpl. now rewrite <- app_assoc. }
  split; [apply H|]. split; [reflexivity|].
  rewrite H, example_deferred_eq. split; reflexivity.
Qed.

(** ** Load: the loop of the loader thread *)

Lemma load_path_loadQueue (decode : string -> N) (path : string) (st : Audio) :
  loadQueue (load_path decode path st) = loadQueue st.
Proof. unfold load_path. now destruct (String.eqb (Name path) ""). Qed.

Lemma load_path_set_loadQueue (decode : string -> N) (path : string)
  (l : list string) (st : Audio) :
  load_path decode path (set_loadQueue l st)
  = set_loadQueue l (load_path decode path st).
Proof. unfold load_path. now destruct (String.eqb (Name path) ""). Qed.

(** The paths [paths] decoded one after the other. *)
Lemma load_paths_set_loadQueue (decode : string -> N) (paths l : list string) :
  forall st,
    fold_left (fun s p => load_path decode p s) paths (set_loadQueue l st)
    = set_loadQueue l (fold_left (fun s p => load_path decode p s) paths st).
Proof.
  induction paths as [|p paths IH]; intros st; simpl; [reflexivity|].
  now rewrite load_path_set_loadQueue, IH.
Qed.

Lemma removelast_length {A : Type} (l : list A) :
  List.length (removelast l) = pred (List.length l).
Proof.
  induction l as [|a [|b l] IH]; simpl in *; [reflexivity|reflexivity|].
  now rewrite IH.
Qed.

Lemma rev_removelast_last {A : Type} (l : list A) (d : A) :
  l <> [] -> rev l = last l d :: rev (removelast l).
Proof.
  intros H. rewrite (app_removelast_last d H) at 1.
  now rewrite rev_app_distr.
Qed.

(** One turn of the loop. *)
Lemma Load_loop_turn (decode : string -> N) (fuel : nat) (path : string)
  (st : Audio) :
  Load_loop decode (S fuel) path st
  = match removelast (loadQueue (load_path decode path st)) with
    | [] => Some (set_loadQueue [] (load_path decode path st))
    | x :: q =>
        Load_loop decode fuel (last (x :: q) ""%string)
          (set_loadQueue (x :: q) (load_path decode path st))
    end.
Proof.
  simpl. now destruct (removelast (loadQueue (load_path decode path st))).
Qed.

(** The loop returns, with an empty list of paths, after decoding the
    local [path] it was entered with and then every path of the list but
    its last one, from the last but one down to the first. *)
Lemma Load_loop_all_but_last (decode : string -> N) (n : nat) :
  forall (path : string) (st : Audio),
    List.length (loadQueue st) = S n ->
    Load_loop decode (S n) path st
    = Some
        (set_loadQueue []
           (fold_left (fun s p => load_path decode p s)
              (rev (removelast (loadQueue st)))
              (load_path decode path st))).
Proof.
  induction n as [|n IH]; intros path st Hlen.
  - destruct (loadQueue st) as [|p [|p' ps]] eqn:E; try discriminate.
    simpl. rewrite load_path_loadQueue, E. reflexivity.
  - rewrite Load_loop_turn.
    set (st1 := load_path decode path st).
    assert (E1 : loadQueue st1 = loadQueue st) by apply load_path_loadQueue.
    assert (Hq : List.length (removelast (loadQueue st1)) = S n).
    { rewrite removelast_length, E1, Hlen. reflexivity. }
    destruct (removelast (loadQueue st1)) as [|x q'] eqn:Eq; [discriminate|].
    rewrite IH by exact Hq.
    change (loadQueue (set_loadQueue (x :: q') st1)) with (x :: q').
    rewrite load_path_set_loadQueue, load_paths_set_loadQueue.
    rewrite <- E1, Eq.
    rewrite (rev_removelast_last (x :: q') ""%string) by discriminate.
    reflexivity.
Qed.

(** [Load] on a non-empty list of paths returns; it has decoded the paths
    in reverse order and left out the last path of the list. *)
Lemma Load_all_but_last (decode : string -> N) (st : Audio) :
  loadQueue st <> [] ->
  Load decode st
  = Some
      (set_loadQueue []
         (fold_left (fun s p => load_path decode p s)
            (rev (removelast (loadQueue st))) st)).
Proof.
  intros H. unfold Load.
  destruct (List.length (loadQueue st)) as [|n] eqn:E.
  - destruct (loadQueue st); [contradiction | discriminate].
  - now rewrite Load_loop_all_but_last.
Qed.

(** The names of the specification's examples: the marker and the extension
    are stripped, and a path with another extension gives no name. *)
Example Name_examples :
  Name "data/sounds/explosion~.wav" = "explosion"%string
  /\ Name "data/sounds/ambient.wav" = "ambient"%string
  /\ Name "data/sounds/readme.txt" = ""%string
  /\ Name "data/music/theme.wav" = ""%string
  /\ Name "" = ""%string.
Proof. repeat split. Qed.

(** C8.  [Load] pops the last path of the list before it has read any:
    with the paths [sounds/a.wav] and [sounds/b~.wav] found, the loop
    returns with the list empty and only [a] in the table, [b] is never
    decoded; with a single path found nothing is decoded. *)
Theorem Load_skips_last_path :
  option_map (fun st => (map fst (sounds st), loadQueue st))
    (Load (fun _ => 1%N)
       (initial 0%nat ["sounds/a.wav"%string; "sounds/b~.wav"%string]
          example_heap (fun _ => true) []))
  = Some (["a"%string], [])
  /\ Name "sounds/b~.wav" = "b"%string
  /\ option_map (fun st => (map fst (sounds st), loadQueue st))
       (Load (fun _ => 1%N)
          (initial 0%nat ["sounds/a.wav"%string] example_heap
             (fun _ => true) []))
     = Some ([], [])
  /\ Name "sounds/a.wav" = "a"%string.
Proof. repeat split. Qed.

(** ** Step: the first loop *)

Lemma map_erase_absent {K V : Type} (eqb : K -> K -> bool) (k : K)
  (m : list (K * V)) :
  map_find eqb k m = None -> map_erase eqb k m = m.
Proof.
  induction m as [|[k' v] m IH]; simpl; [reflexivity|].
  destruct (eqb k k'); [discriminate|]. intros H. now rewrite IH.
Qed.

Lemma erase_all_find (l : list SoundPtr) :
  forall (q : SoundQueue) (sound : SoundPtr),
    queue_find sound (erase_all l q)
    = if existsb (N.eqb sound) l then None else queue_find sound q.
Proof.
  induction l as [|k l IH]; intros q sound; simpl; [reflexivity|].
  unfold erase_all in *; simpl. rewrite IH.
  destruct (N.eqb_spec sound k) as [->|Hne]; simpl.
  - rewrite queue_find_erase_same. now destruct (existsb (N.eqb k) l).
  - rewrite queue_find_erase_other by congruence. reflexivity.
Qed.

Lemma flat_map_agree {A B : Type} (f g : A -> list B) (l : list A) :
  (forall a, In a l -> f a = g a) -> flat_map f l = flat_map g l.
Proof.
  induction l as [|a l IH]; intros H; simpl; [reflexivity|].
  rewrite (H a) by now left. rewrite IH; [reflexivity|].
  intros a' Ha'. apply H. now right.
Qed.

(** The state after the first loop, in closed form. *)
Lemma advance_fold (l : list Source) :
  forall (acc : list Source) (st : Audio),
    NoDup (looping_sounds st l) ->
    fold_left advance_source l (acc, st)
    = (acc ++ filter (keeps st) l,
       set_queue (erase_all (looping_sounds st l) (queue st))
         (set_recycledSources
            (recycledSources st
             ++ map ID (filter (fun s => negb (keeps st s)) l))
            (emit (flat_map (advance_events st) l) st))).
Proof.
  induction l as [|s l IH]; intros acc st Hnd.
  - destruct st; simpl. unfold set_queue, set_recycledSources, emit; simpl.
    now rewrite !app_nil_r.
  - cbn [fold_left].
    assert (Hl : forall st', heap st' = heap st ->
                   looping_sounds st' l = looping_sounds st l).
    { intros st' Hh. unfold looping_sounds. now rewrite Hh. }
    assert (Hkeep : forall st', heap st' = heap st ->
              al_playing st' = al_playing st ->
              (forall s', In s' l ->
                 IsLooping (heap st (GetSound s')) = true ->
                 queue_find (GetSound s') (queue st')
                 = queue_find (GetSound s') (queue st)) ->
              filter (keeps st') l = filter (keeps st) l
              /\ filter (fun s => negb (keeps st' s)) l
                 = filter (fun s => negb (keeps st s)) l
              /\ flat_map (advance_events st') l
                 = flat_map (advance_events st) l).
    { intros st' Hh Hp Hq.
      assert (Hk : forall s', In s' l -> keeps st' s' = keeps st s').
      { intros s' Hin. unfold keeps. rewrite Hh, Hp.
        destruct (IsLooping (heap st (GetSound s'))) eqn:E;
          [now rewrite Hq | reflexivity]. }
      split; [|split].
      - apply filter_ext_in. exact Hk.
      - apply filter_ext_in. intros s' Hin. now rewrite Hk.
      - apply flat_map_agree. intros s' Hin. unfold advance_events.
        rewrite Hh.
        destruct (IsLooping (heap st (GetSound s'))) eqn:E;
          [now rewrite Hq | reflexivity]. }
    assert (Hstep : advance_source (acc, st) s
              = if IsLooping (heap st (GetSound s))
                then match queue_find (GetSound s) (queue st) with
                     | Some e =>
                         (acc ++ [s],
                          set_queue (queue_erase (GetSound s) (queue st))
                            (emit (Move s (Position e) (Velocity e)) st))
                     | None =>
                         (acc,
                          set_recycledSources (recycledSources st ++ [ID s])
                            (emit [alSourceStop (ID s)] st))
                     end
                else if al_playing st (ID s) then (acc ++ [s], st)
                     else (acc,
                           set_recycledSources
                             (recycledSources st ++ [ID s]) st))
      by reflexivity.
    rewrite Hstep. clear Hstep.
    assert (Hls : looping_sounds st (s :: l)
                  = if IsLooping (heap st (GetSound s))
                    then GetSound s :: looping_sounds st l
                    else looping_sounds st l).
    { unfold looping_sounds. cbn [filter].
      now destruct (IsLooping (heap st (GetSound s))). }
    rewrite Hls in Hnd |- *. cbn [filter flat_map].
    destruct (IsLooping (heap st (GetSound s))) eqn:Eloop.
    + inversion Hnd as [|? ? Hnotin Hnd']; subst.
      destruct (queue_find (GetSound s) (queue st)) as [e|] eqn:Efind.
      * assert (Hk : keeps st s = true)
          by (unfold keeps; now rewrite Eloop, Efind).
        assert (He : advance_events st s = Move s (Position e) (Velocity e))
          by (unfold advance_events; now rewrite Eloop, Efind).
        rewrite Hk, He. cbn [negb].
        rewrite IH by (rewrite Hl by reflexivity; exact Hnd').
        rewrite Hl by reflexivity.
        destruct (Hkeep
                    (set_queue (queue_erase (GetSound s) (queue st))
                       (emit (Move s (Position e) (Velocity e)) st)))
          as (-> & -> & ->); try reflexivity.
        { intros s' Hin Hloop. simpl.
          apply queue_find_erase_other. intros Heq. apply Hnotin.
          rewrite Heq. unfold looping_sounds.
          apply in_map, filter_In. now split. }
        rewrite <- app_assoc.
        destruct st; simpl. unfold set_queue, set_recycledSources, emit; simpl.
        now rewrite <- !app_assoc.
      * assert (Hk : keeps st s = false)
          by (unfold keeps; now rewrite Eloop, Efind).
        assert (He : advance_events st s = [alSourceStop (ID s)])
          by (unfold advance_events; now rewrite Eloop, Efind).
        rewrite Hk, He. cbn [negb map].
        rewrite IH by (rewrite Hl by reflexivity; exact Hnd').
        rewrite Hl by reflexivity.
        destruct (Hkeep
                    (set_recycledSources (recycledSources st ++ [ID s])
                       (emit [alSourceStop (ID s)] st)))
          as (-> & -> & ->); try reflexivity.
        assert (Her : erase_all (GetSound s :: looping_sounds st l) (queue st)
                      = erase_all (looping_sounds st l) (queue st)).
        { unfold erase_all at 1. cbn [fold_left]. unfold queue_erase at 2.
          now rewrite (map_erase_absent N.eqb) by exact Efind. }
        rewrite Her.
        destruct st; simpl. unfold set_queue, set_recycledSources, emit; simpl.
        now rewrite <- !app_assoc.
    + assert (He : advance_events st s = [])
        by (unfold advance_events; now rewrite Eloop).
      rewrite He. cbn [app].
      destruct (al_playing st (ID s)) eqn:Eplay.
      * assert (Hk : keeps st s = true)
          by (unfold keeps; now rewrite Eloop).
        rewrite Hk. cbn [negb].
        rewrite IH by exact Hnd. now rewrite <- app_assoc.
      * assert (Hk : keeps st s = false)
          by (unfold keeps; now rewrite Eloop).
        rewrite Hk. cbn [negb map].
        rewrite IH by (rewrite Hl by reflexivity; exact Hnd).
        rewrite Hl by reflexivity.
        destruct (Hkeep
                    (set_recycledSources (recycledSources st ++ [ID s]) st))
          as (-> & -> & ->); try reflexivity.
        destruct st; simpl. unfold set_queue, set_recycledSources, emit; simpl.
        now rewrite <- !app_assoc.
Qed.

Lemma advance_closed_form (st : Audio) :
  sources_ok st ->
  advance st
  = set_sources (filter (keeps st) (sources st))
      (set_queue (erase_all (looping_sounds st (sources st)) (queue st))
         (set_recycledSources
            (recycledSources st
             ++ map ID (filter (fun s => negb (keeps st s)) (sources st)))
            (emit (flat_map (advance_events st) (sources st)) st))).
Proof.
  intros H. unfold advance. now rewrite advance_fold.
Qed.

(** ** Step: the second loop *)

Lemma start_source_sources (sound : SoundPtr) (e : QueueEntry) (source : N)
  (st : Audio) :
  sources (start_source sound e source st)
  = sources st ++ [mkSource sound source].
Proof. reflexivity. Qed.

Lemma start_source_trace (sound : SoundPtr) (e : QueueEntry) (source : N)
  (st : Audio) :
  trace (start_source sound e source st)
  = trace st
    ++ (Source_init st sound source
        ++ Move (mkSource sound source) (Position e) (Velocity e)
        ++ [alSourcePlay source]).
Proof. simpl. now rewrite <- !app_assoc. Qed.

Lemma start_source_no_refusal (sound : SoundPtr) (e : QueueEntry)
  (source : N) (st : Audio) :
  ~ In (alGenSources 0)
      (Source_init st sound source
       ++ Move (mkSource sound source) (Position e) (Velocity e)
       ++ [alSourcePlay source]).
Proof. simpl. intuition discriminate. Qed.

(** The second loop only appends to [sources]. *)
Lemma allocate_sources (entries : SoundQueue) :
  forall st, exists started,
    sources (allocate entries st) = sources st ++ started.
Proof.
  induction entries as [|[sound e] rest IH]; intros st; simpl.
  - exists []. now rewrite app_nil_r.
  - destruct (recycledSources st) as [|id ids] eqn:Erec.
    + destruct (maxSources st <=? N.of_nat (List.length (sources st)))%N.
      * exists []. now rewrite app_nil_r.
      * destruct (hd 0%N (al_pending st) =? 0)%N.
        -- exists []. simpl. now rewrite app_nil_r.
        -- match goal with
           | |- context [allocate rest ?s] => destruct (IH s) as [l Hl]
           end.
           rewrite Hl, start_source_sources. simpl.
           rewrite <- app_assoc. eauto.
    + match goal with
      | |- context [allocate rest ?s] => destruct (IH s) as [l Hl]
      end.
      rewrite Hl, start_source_sources. simpl.
      rewrite <- app_assoc. eauto.
Qed.

Lemma In_removelast {A : Type} (l : list A) (x : A) :
  In x (removelast l) -> In x l.
Proof.
  induction l as [|a [|b l] IH]; simpl in *; [tauto|tauto|].
  intros [->|H]; [now left | right; now apply IH].
Qed.

Lemma In_last {A : Type} (l : list A) (d : A) : l <> [] -> In (last l d) l.
Proof.
  induction l as [|a [|b l] IH]; intros H; [contradiction|now left|].
  right. apply IH. discriminate.
Qed.

(** What the second loop tells the device: it stops no source, and it
    starts only sources whose identifier was recycled or is handed out by
    the device. *)
Lemma allocate_events (entries : SoundQueue) :
  forall st, exists evs,
    trace (allocate entries st) = trace st ++ evs
    /\ (forall id, ~ In (alSourceStop id) evs)
    /\ (forall id, In (alSourcePlay id) evs ->
          In id (recycledSources st)
          \/ (In id (al_pending st) /\ id <> 0%N)).
Proof.
  induction entries as [|[sound e] rest IH]; intros st; cbn [allocate].
  - exists []. rewrite app_nil_r. split; [reflexivity|]. split; intros ? [].
  - destruct (recycledSources st) as [|id0 ids] eqn:Erec.
    + destruct (maxSources st <=? N.of_nat (List.length (sources st)))%N.
      * exists []. rewrite app_nil_r.
        split; [reflexivity|]. split; intros ? [].
      * destruct (N.eqb_spec (hd 0%N (al_pending st)) 0) as [Hz|Hne].
        -- exists [alGenSources (hd 0%N (al_pending st))].
           split; [reflexivity|].
           split; intros id H; simpl in H; intuition discriminate.
        -- set (id := hd 0%N (al_pending st)) in *.
           set (st1 := emit [alGenSources id]
                         (set_al_pending (tl (al_pending st)) st)).
           destruct (IH (start_source sound e id st1))
             as (evs & Ht & Hstop & Hplay).
           rewrite start_source_trace in Ht.
           change (trace st1) with (trace st ++ [alGenSources id]) in Ht.
           exists (alGenSources id
                   :: (Source_init st1 sound id
                       ++ Move (mkSource sound id) (Position e) (Velocity e)
                       ++ [alSourcePlay id]) ++ evs).
           split; [rewrite Ht, <- !app_assoc; reflexivity|].
           assert (Hid : In id (al_pending st)).
           { unfold id in *. destruct (al_pending st);
               [contradiction | now left]. }
           split.
           ++ intros x [H|H]; [discriminate|].
              apply in_app_or in H. destruct H as [H|H];
                [simpl in H; intuition discriminate | exact (Hstop x H)].
           ++ intros x [H|H]; [discriminate|].
              apply in_app_or in H. destruct H as [H|H].
              ** simpl in H.
                 destruct H as [H|[H|[H|[H|[H|[H|[H|[]]]]]]]];
                   try discriminate.
                 injection H as <-. now right.
              ** apply Hplay in H. cbn [recycledSources start_source emit
                   set_sources al_pending st1 set_al_pending] in H.
                 rewrite Erec in H. destruct H as [[]|[H Hx]].
                 right. split; [|exact Hx].
                 destruct (al_pending st); [destruct H | now right].
    + set (id := last (id0 :: ids) 0%N).
      set (st1 := set_recycledSources (removelast (id0 :: ids)) st).
      destruct (IH (start_source sound e id st1))
        as (evs & Ht & Hstop & Hplay).
      rewrite start_source_trace in Ht.
      change (trace st1) with (trace st) in Ht.
      exists ((Source_init st1 sound id
               ++ Move (mkSource sound id) (Position e) (Velocity e)
               ++ [alSourcePlay id]) ++ evs).
      split; [rewrite Ht, <- !app_assoc; reflexivity|].
      split.
      * intros x H. apply in_app_or in H. destruct H as [H|H];
          [simpl in H; intuition discriminate | exact (Hstop x H)].
      * intros x H. apply in_app_or in H. destruct H as [H|H].
        -- simpl in H.
           destruct H as [H|[H|[H|[H|[H|[H|[H|[]]]]]]]]; try discriminate.
           injection H as <-. left. apply In_last. discriminate.
        -- apply Hplay in H. cbn [recycledSources start_source emit
             set_sources al_pending st1 set_recycledSources] in H.
           destruct H as [H|H]; [left; now apply In_removelast | now right].
Qed.

Lemma app_NoDup_apart {A : Type} (l1 l2 : list A) (a : A) :
  NoDup (l1 ++ l2) -> In a l1 -> ~ In a l2.
Proof.
  induction l1 as [|b l1 IH]; simpl; intros Hnd Hin; [contradiction|].
  inversion Hnd as [|? ? Hnotin Hnd']; subst.
  destruct Hin as [->|Hin]; [|now apply IH].
  intros H. apply Hnotin. apply in_or_app. now right.
Qed.

(** *** The first loop, source by source *)

Lemma looping_sounds_snoc (st : Audio) (before : list Source) (s : Source) :
  looping_sounds st (before ++ [s])
  = looping_sounds st before
    ++ (if IsLooping (heap st (GetSound s)) then [GetSound s] else []).
Proof.
  unfold looping_sounds. rewrite filter_app, map_app. cbn [filter].
  now destruct (IsLooping (heap st (GetSound s))).
Qed.

Lemma queue_in_turn_snoc (st : Audio) (before : list Source) (s : Source) :
  queue_in_turn st (before ++ [s])
  = if IsLooping (heap st (GetSound s))
    then queue_erase (GetSound s) (queue_in_turn st before)
    else queue_in_turn st before.
Proof.
  unfold queue_in_turn. rewrite looping_sounds_snoc. unfold erase_all.
  rewrite fold_left_app.
  now destruct (IsLooping (heap st (GetSound s))).
Qed.

(** The sources of a looping sound are all looping. *)
Lemma looping_before (st : Audio) (before : list Source) (sound : SoundPtr) :
  IsLooping (heap st sound) = true ->
  existsb (N.eqb sound) (looping_sounds st before)
  = existsb (N.eqb sound) (map GetSound before).
Proof.
  intros Hl. unfold looping_sounds.
  induction before as [|s b IH]; [reflexivity|].
  cbn [filter map existsb].
  destruct (IsLooping (heap st (GetSound s))) eqn:E.
  - cbn [map existsb]. now rewrite IH.
  - rewrite IH. destruct (N.eqb_spec sound (GetSound s)) as [->|Hne];
      [congruence | reflexivity].
Qed.

Lemma queue_in_turn_find (st : Audio) (before : list Source)
  (sound : SoundPtr) :
  queue_find sound (queue_in_turn st before)
  = if existsb (N.eqb sound) (looping_sounds st before)
    then None
    else queue_find sound (queue st).
Proof. apply erase_all_find. Qed.

(** One turn of the first loop. *)
Lemma advance_source_in_turn (st stc : Audio) (before acc : list Source)
  (s : Source) :
  heap stc = heap st ->
  al_playing stc = al_playing st ->
  queue stc = queue_in_turn st before ->
  fst (advance_source (acc, stc) s)
  = acc ++ (if keeps_in_turn st before s then [s] else [])
  /\ queue (snd (advance_source (acc, stc) s))
     = queue_in_turn st (before ++ [s])
  /\ recycledSources (snd (advance_source (acc, stc) s))
     = recycledSources stc
       ++ (if keeps_in_turn st before s then [] else [ID s])
  /\ trace (snd (advance_source (acc, stc) s))
     = trace stc ++ events_in_turn st before s
  /\ heap (snd (advance_source (acc, stc) s)) = heap st
  /\ al_playing (snd (advance_source (acc, stc) s)) = al_playing st
  /\ al_pending (snd (advance_source (acc, stc) s)) = al_pending stc.
Proof.
  intros Hh Hp Hq.
  pose proof (queue_in_turn_find st before (GetSound s)) as Hfind.
  rewrite queue_in_turn_snoc.
  unfold advance_source, keeps_in_turn, events_in_turn.
  rewrite Hh, Hp, Hq.
  destruct (IsLooping (heap st (GetSound s))) eqn:El.
  - rewrite (looping_before st before _ El) in Hfind. rewrite Hfind.
    destruct (existsb (N.eqb (GetSound s)) (map GetSound before)) eqn:Ex.
    + assert (Hsame : queue_erase (GetSound s) (queue_in_turn st before)
                      = queue_in_turn st before).
      { unfold queue_erase. now apply map_erase_absent. }
      rewrite Hsame.
      destruct (queue_find (GetSound s) (queue st));
        cbn; rewrite ?app_nil_r; repeat split; auto.
    + destruct (queue_find (GetSound s) (queue st)) as [e|] eqn:Ef.
      * cbn. rewrite ?app_nil_r. repeat split; auto.
      * assert (Hsame : queue_erase (GetSound s) (queue_in_turn st before)
                        = queue_in_turn st before).
        { unfold queue_erase. apply map_erase_absent. exact Hfind. }
        rewrite Hsame. cbn. rewrite ?app_nil_r. repeat split; auto.
  - destruct (al_playing st (ID s)); cbn; rewrite ?app_nil_r;
      repeat split; auto.
Qed.

(** The first loop over [l], entered after the sources [before]. *)
Lemma advance_fold_in_turn (st : Audio) (l : list Source) :
  forall (before acc : list Source) (stc : Audio),
    heap stc = heap st ->
    al_playing stc = al_playing st ->
    queue stc = queue_in_turn st before ->
    fst (fold_left advance_source l (acc, stc))
    = acc ++ kept_in_turn st before l
    /\ queue (snd (fold_left advance_source l (acc, stc)))
       = queue_in_turn st (before ++ l)
    /\ recycledSources (snd (fold_left advance_source l (acc, stc)))
       = recycledSources stc ++ recycled_in_turn st before l
    /\ trace (snd (fold_left advance_source l (acc, stc)))
       = trace stc ++ events_of_turns st before l
    /\ al_pending (snd (fold_left advance_source l (acc, stc)))
       = al_pending stc.
Proof.
  induction l as [|s l IH]; intros before acc stc Hh Hp Hq.
  - cbn. rewrite !app_nil_r. auto.
  - cbn [fold_left kept_in_turn recycled_in_turn events_of_turns].
    destruct (advance_source_in_turn st stc before acc s Hh Hp Hq)
      as (H1 & H2 & H3 & H4 & H5 & H6 & H7).
    destruct (advance_source (acc, stc) s) as [acc' stc'] eqn:E.
    cbn [fst snd] in *.
    destruct (IH (before ++ [s]) acc' stc' H5 H6 H2)
      as (I1 & I2 & I3 & I4 & I5).
    rewrite I1, I2, I3, I4, I5, H1, H3, H4, H7, <- !app_assoc.
    repeat split; reflexivity.
Qed.

(** The first loop, for every state. *)
Lemma advance_in_turn (st : Audio) :
  sources (advance st) = kept_in_turn st [] (sources st)
  /\ queue (advance st) = queue_in_turn st (sources st)
  /\ recycledSources (advance st)
     = recycledSources st ++ recycled_in_turn st [] (sources st)
  /\ trace (advance st) = trace st ++ events_of_turns st [] (sources st)
  /\ al_pending (advance st) = al_pending st.
Proof.
  unfold advance.
  destruct (advance_fold_in_turn st (sources st) [] [] st
              eq_refl eq_refl eq_refl) as (H1 & H2 & H3 & H4 & H5).
  destruct (fold_left advance_source (sources st) ([], st)) as [acc st1].
  cbn in *. repeat split; assumption.
Qed.

Lemma kept_in_turn_app (st : Audio) (l1 : list Source) :
  forall before l2,
    kept_in_turn st before (l1 ++ l2)
    = kept_in_turn st before l1 ++ kept_in_turn st (before ++ l1) l2.
Proof.
  induction l1 as [|x l1 IH]; intros before l2; cbn.
  - now rewrite app_nil_r.
  - now rewrite IH, <- !app_assoc.
Qed.

Lemma recycled_in_turn_app (st : Audio) (l1 : list Source) :
  forall before l2,
    recycled_in_turn st before (l1 ++ l2)
    = recycled_in_turn st before l1
      ++ recycled_in_turn st (before ++ l1) l2.
Proof.
  induction l1 as [|x l1 IH]; intros before l2; cbn.
  - now rewrite app_nil_r.
  - now rewrite IH, <- !app_assoc.
Qed.

Lemma events_of_turns_app (st : Audio) (l1 : list Source) :
  forall before l2,
    events_of_turns st before (l1 ++ l2)
    = events_of_turns st before l1
      ++ events_of_turns st (before ++ l1) l2.
Proof.
  induction l1 as [|x l1 IH]; intros before l2; cbn.
  - now rewrite app_nil_r.
  - now rewrite IH, <- !app_assoc.
Qed.

(** A recycled identifier is that of a source which was not kept at its
    turn. *)
Lemma recycled_in_turn_In (st : Audio) (l : list Source) :
  forall before id,
    In id (recycled_in_turn st before l) ->
    exists b s a,
      l = b ++ s :: a /\ ID s = id
      /\ keeps_in_turn st (before ++ b) s = false.
Proof.
  induction l as [|x l IH]; intros before id H; [destruct H|].
  cbn in H. apply in_app_or in H. destruct H as [H|H].
  - destruct (keeps_in_turn st before x) eqn:E; [destruct H|].
    destruct H as [<-|[]]. exists [], x, l. rewrite app_nil_r. auto.
  - destruct (IH _ _ H) as (b & s & a & -> & Hid & Hk).
    exists (x :: b), s, a. rewrite <- app_assoc in Hk. auto.
Qed.

(** The first loop stops only sources that it does not keep, and starts
    none. *)
Lemma events_of_turns_stop (st : Audio) (l : list Source) :
  forall before id,
    In (alSourceStop id) (events_of_turns st before l) ->
    In id (recycled_in_turn st before l).
Proof.
  induction l as [|x l IH]; intros before id H; [destruct H|].
  cbn in H |- *. apply in_app_or in H. apply in_or_app.
  destruct H as [H|H]; [left | right; now apply IH].
  unfold events_in_turn, keeps_in_turn in *.
  destruct (IsLooping (heap st (GetSound x))); [|destruct H].
  destruct (queue_find (GetSound x) (queue st)).
  - destruct (existsb (N.eqb (GetSound x)) (map GetSound before)).
    + destruct H as [H|[]]. injection H as <-. now left.
    + simpl in H. intuition discriminate.
  - destruct H as [H|[]]. injection H as <-. now left.
Qed.

Lemma events_of_turns_no_play (st : Audio) (l : list Source) :
  forall before id, ~ In (alSourcePlay id) (events_of_turns st before l).
Proof.
  induction l as [|x l IH]; intros before id H; [destruct H|].
  cbn in H. apply in_app_or in H. destruct H as [H|H];
    [|exact (IH _ _ H)].
  unfold events_in_turn in H.
  destruct (IsLooping (heap st (GetSound x))); [|destruct H].
  destruct (queue_find (GetSound x) (queue st));
    [destruct (existsb (N.eqb (GetSound x)) (map GetSound before))|];
    simpl in H; intuition discriminate.
Qed.

(** With distinct identifiers, an identifier tells the place of its
    source. *)
Lemma same_ID_same_place (b1 : list Source) :
  forall (l b2 a1 a2 : list Source) (x y : Source),
    NoDup (map ID l) ->
    l = b1 ++ x :: a1 -> l = b2 ++ y :: a2 -> ID x = ID y ->
    b1 = b2 /\ x = y.
Proof.
  induction b1 as [|z b1 IH]; intros l b2 a1 a2 x y Hnd H1 H2 Hid.
  - destruct b2 as [|z b2].
    + rewrite H1 in H2. injection H2 as -> _. now split.
    + exfalso. rewrite H1 in H2, Hnd. injection H2 as -> ->.
      inversion Hnd as [|? ? Hnotin _]; subst. apply Hnotin.
      rewrite Hid, map_app. apply in_or_app. right. now left.
  - destruct b2 as [|w b2].
    + exfalso. rewrite H2 in H1, Hnd. injection H1 as -> ->.
      inversion Hnd as [|? ? Hnotin _]; subst. apply Hnotin.
      rewrite <- Hid, map_app. apply in_or_app. right. now left.
    + rewrite H1 in H2, Hnd. injection H2 as -> H2.
      inversion Hnd as [|? ? _ Hnd']; subst.
      destruct (IH (b1 ++ x :: a1) b2 a1 a2 x y Hnd' eq_refl H2 Hid)
        as [-> ->].
      now split.
Qed.

(** A source kept at its turn is neither stopped nor started again in the
    frame, and a kept looping source is moved to its entry. *)
Lemma Step_kept_in_turn_untouched (st : Audio) (before after : list Source)
  (s : Source) (evs : list Event) :
  ids_ok st -> pending_fresh st ->
  sources st = before ++ s :: after ->
  keeps_in_turn st before s = true ->
  trace (Step (mainThreadID st) st) = trace st ++ evs ->
  ~ In (alSourceStop (ID s)) evs /\ ~ In (alSourcePlay (ID s)) evs.
Proof.
  intros Hids Hfresh Hsplit Hkeep Ht.
  assert (Hnd : NoDup (map ID (sources st)))
    by (apply NoDup_app_remove_r in Hids; exact Hids).
  destruct (advance_in_turn st) as (_ & _ & Hrec & Htr & Hpend).
  unfold Step in Ht. rewrite Nat.eqb_refl in Ht. cbn [negb] in Ht.
  destruct (allocate_events (queue (advance st)) (advance st))
    as (evs2 & Ht2 & Hstop2 & Hplay2).
  change (trace (allocate (queue (advance st)) (advance st))
          = trace st ++ evs) in Ht.
  rewrite Ht2, Htr, <- app_assoc in Ht. apply app_inv_head in Ht.
  subst evs. rewrite Hrec, Hpend in Hplay2.
  assert (Hnot : ~ In (ID s) (recycled_in_turn st [] (sources st))).
  { intros H. apply recycled_in_turn_In in H.
    destruct H as (b & s' & a & Hs' & Hid & Hk). cbn [app] in Hk.
    destruct (same_ID_same_place b (sources st) before a after s' s
                Hnd Hs' Hsplit Hid) as [-> ->].
    congruence. }
  assert (Hin : In (ID s) (map ID (sources st))).
  { rewrite Hsplit, map_app. apply in_or_app. right. now left. }
  split; intros H; apply in_app_or in H; destruct H as [H|H].
  - apply Hnot. now apply events_of_turns_stop in H.
  - exact (Hstop2 _ H).
  - exact (events_of_turns_no_play _ _ _ _ H).
  - apply Hplay2 in H. destruct H as [H|[H Hnz]].
    + apply in_app_or in H. destruct H as [H|H]; [|now apply Hnot].
      exact (app_NoDup_apart _ _ (ID s) Hids Hin H).
    + exact (Hfresh _ H Hnz Hin).
Qed.

(** C3.  In the first loop of every [Step], a source is kept exactly when,
    at its turn, its sound is looping and the queue still holds an entry
    for the sound, or its sound is not looping and the device reports it
    playing: [keeps_in_turn] is [keeps] of the queue that the loop has
    left when it comes to the source.  The queue still holds the entry
    when it held one at the start and no source before this one plays the
    same sound; a source before it that does has taken the entry.  The sources kept stay in
    their order, with their identifiers; the identifier of every other
    source is appended to [recycledSources]; the entries of the looping
    sounds with a source are gone from the queue and the other entries
    stay; the device is given the position and the velocity of the entry
    for each kept looping source, is told to stop each looping source
    that is not kept, and nothing else.  When no two sources play the same
    looping sound, the sources kept are those for which the condition
    holds of the queue as [Step] found it.  The kept sources are still
    active, before any source started in the same frame, when [Step]
    returns; and, the identifiers in use being all different and none of
    them handed out again by the device, a kept source is neither stopped
    nor started again in the frame. *)
Theorem advance_keeps_exactly (st : Audio) :
  sources (advance st) = kept_in_turn st [] (sources st)
  /\ recycledSources (advance st)
     = recycledSources st ++ recycled_in_turn st [] (sources st)
  /\ (forall before s after,
        sources st = before ++ s :: after ->
        queue (snd (fold_left advance_source before ([], st)))
        = queue_in_turn st before
        /\ keeps_in_turn st before s
           = keeps (set_queue (queue_in_turn st before) st) s
        /\ sources (advance st)
           = kept_in_turn st [] before
             ++ (if keeps_in_turn st before s then [s] else [])
             ++ kept_in_turn st (before ++ [s]) after
        /\ recycledSources (advance st)
           = recycledSources st
             ++ recycled_in_turn st [] before
             ++ (if keeps_in_turn st before s then [] else [ID s])
             ++ recycled_in_turn st (before ++ [s]) after
        /\ trace (advance st)
           = trace st
             ++ events_of_turns st [] before
             ++ events_in_turn st before s
             ++ events_of_turns st (before ++ [s]) after)
  /\ (forall sound,
        queue_find sound (queue (advance st))
        = if existsb (N.eqb sound) (looping_sounds st (sources st))
          then None
          else queue_find sound (queue st))
  /\ trace (advance st) = trace st ++ events_of_turns st [] (sources st)
  /\ (sources_ok st ->
      sources (advance st) = filter (keeps st) (sources st)
      /\ (forall s, In s (sources st) ->
            (In s (sources (advance st)) <-> keeps st s = true))
      /\ recycledSources (advance st)
         = recycledSources st
           ++ map ID (filter (fun s => negb (keeps st s)) (sources st))
      /\ trace (advance st)
         = trace st ++ flat_map (advance_events st) (sources st))
  /\ (exists started,
        sources (Step (mainThreadID st) st)
        = kept_in_turn st [] (sources st) ++ started)
  /\ (ids_ok st -> pending_fresh st ->
      forall before s after evs,
        sources st = before ++ s :: after ->
        keeps_in_turn st before s = true ->
        trace (Step (mainThreadID st) st) = trace st ++ evs ->
        ~ In (alSourceStop (ID s)) evs
        /\ ~ In (alSourcePlay (ID s)) evs
        /\ (IsLooping (heap st (GetSound s)) = true ->
            exists e,
              queue_find (GetSound s) (queue st) = Some e
              /\ In (alSource3f_POSITION (ID s)
                       (X (Position e) * 0.001) (Y (Position e) * 0.001) 0)
                   evs
              /\ In (alSource3f_VELOCITY (ID s)
                       (X (Velocity e) * 0.001) (Y (Velocity e) * 0.001) 0)
                   evs)).
Proof.
  destruct (advance_in_turn st) as (Hs & Hq & Hr & Ht & _).
  split; [exact Hs|]. split; [exact Hr|].
  split; [|split; [|split; [exact Ht|split; [|split]]]].
  - intros before s after Hsplit.
    split.
    { now destruct (advance_fold_in_turn st before [] [] st
                      eq_refl eq_refl eq_refl) as (_ & H & _). }
    split.
    { unfold keeps_in_turn, keeps. cbn [heap queue al_playing set_queue].
      destruct (IsLooping (heap st (GetSound s))) eqn:El; [|reflexivity].
      rewrite queue_in_turn_find, (looping_before st before _ El).
      destruct (existsb (N.eqb (GetSound s)) (map GetSound before));
        now destruct (queue_find (GetSound s) (queue st)). }
    rewrite Hs, Hr, Ht, Hsplit.
    rewrite kept_in_turn_app, recycled_in_turn_app, events_of_turns_app.
    cbn [app kept_in_turn recycled_in_turn events_of_turns].
    repeat split; reflexivity.
  - intros sound. rewrite Hq. apply queue_in_turn_find.
  - intros Hok. pose proof (advance_closed_form st Hok) as Hadv.
    assert (Hsrc : sources (advance st) = filter (keeps st) (sources st))
      by now rewrite Hadv.
    split; [exact Hsrc|]. split; [|split]; try now rewrite Hadv.
    intros s Hin. rewrite Hsrc, filter_In. tauto.
  - unfold Step. rewrite Nat.eqb_refl. simpl.
    destruct (allocate_sources (queue (advance st)) (advance st)) as [l Hl].
    exists l. now rewrite Hl, Hs.
  - intros Hids Hfresh before s after evs Hsplit Hkeep Hstep.
    destruct (Step_kept_in_turn_untouched st before after s evs
                Hids Hfresh Hsplit Hkeep Hstep) as [Hstop Hplay].
    split; [exact Hstop|]. split; [exact Hplay|].
    intros Hloop.
    unfold Step in Hstep. rewrite Nat.eqb_refl in Hstep.
    cbn [negb] in Hstep.
    destruct (allocate_events (queue (advance st)) (advance st))
      as (evs2 & Ht2 & _).
    change (trace (allocate (queue (advance st)) (advance st))
            = trace st ++ evs) in Hstep.
    rewrite Ht2, Ht, <- app_assoc in Hstep. apply app_inv_head in Hstep.
    subst evs. rewrite Hsplit, events_of_turns_app.
    cbn [app events_of_turns].
    unfold keeps_in_turn in Hkeep. unfold events_in_turn.
    rewrite Hloop in Hkeep |- *.
    destruct (queue_find (GetSound s) (queue st)) as [e|];
      [|discriminate].
    destruct (existsb (N.eqb (GetSound s)) (map GetSound before));
      [discriminate|].
    exists e. split; [reflexivity|].
    split; apply in_or_app; left; apply in_or_app; right;
      apply in_or_app; left; [now left | right; now left].
Qed.

Lemma example_playing_ok : sources_ok example_playing.
Proof.
  unfold sources_ok. simpl. constructor; [intros [] | constructor].
Qed.

Lemma example_playing_ids : ids_ok example_playing.
Proof.
  unfold ids_ok. simpl.
  repeat (constructor; [simpl; intuition discriminate|]). constructor.
Qed.

Lemma example_playing_fresh : pending_fresh example_playing.
Proof. intros id H _. simpl in *. intuition (subst; discriminate). Qed.

Lemma example_twice_ids : ids_ok example_twice.
Proof.
  unfold ids_ok. simpl.
  repeat (constructor; [simpl; intuition discriminate|]). constructor.
Qed.

Lemma example_twice_fresh : pending_fresh example_twice.
Proof. intros id H _. simpl in *. intuition (subst; discriminate). Qed.

(** C3 at three active sources: the looping source 1 with a request and
    the playing source 2 are kept, the finished source 3 is recycled, and
    source 1 is given the position and the velocity of its entry without
    being stopped or started again.  And at two sources on one looping
    sound with one request: the first takes the entry and is kept, the
    second finds none, is stopped and recycled. *)
Lemma advance_keeps_exactly_witness :
  sources_ok example_playing
  /\ sources (advance example_playing)
     = [ mkSource 7%N 1%N; mkSource 8%N 2%N ]
  /\ recycledSources (advance example_playing) = [ 3%N ]
  /\ queue_find 7%N (queue (advance example_playing)) = None
  /\ queue_find 5%N (queue (advance example_playing))
     = Some (Add QueueEntry_new (mkPoint 0 2) (mkPoint 0 1))
  /\ trace (advance example_playing)
     = [ alSource3f_POSITION 1
           (X (Position (Add QueueEntry_new (mkPoint 3 4) (mkPoint 1 0)))
            * 0.001)
           (Y (Position (Add QueueEntry_new (mkPoint 3 4) (mkPoint 1 0)))
            * 0.001) 0;
         alSource3f_VELOCITY 1
           (X (Velocity (Add QueueEntry_new (mkPoint 3 4) (mkPoint 1 0)))
            * 0.001)
           (Y (Velocity (Add QueueEntry_new (mkPoint 3 4) (mkPoint 1 0)))
            * 0.001) 0 ]
  /\ ids_ok example_playing
  /\ pending_fresh example_playing
  /\ ~ In (alSourceStop 1) (trace (Step 0%nat example_playing))
  /\ ~ In (alSourcePlay 1) (trace (Step 0%nat example_playing))
  /\ ~ sources_ok example_twice
  /\ sources (advance example_twice) = [ mkSource 7%N 1%N ]
  /\ recycledSources (advance example_twice) = [ 2%N ]
  /\ queue_find 7%N (queue (advance example_twice)) = None
  /\ trace (advance example_twice)
     = [ alSource3f_POSITION 1
           (X (Position (Add QueueEntry_new (mkPoint 3 4) (mkPoint 1 0)))
            * 0.001)
           (Y (Position (Add QueueEntry_new (mkPoint 3 4) (mkPoint 1 0)))
            * 0.001) 0;
         alSource3f_VELOCITY 1
           (X (Velocity (Add QueueEntry_new (mkPoint 3 4) (mkPoint 1 0)))
            * 0.001)
           (Y (Velocity (Add QueueEntry_new (mkPoint 3 4) (mkPoint 1 0)))
            * 0.001) 0;
         alSourceStop 2 ]
  /\ ~ In (alSourceStop 1) (trace (Step 0%nat example_twice))
  /\ ~ In (alSourcePlay 1) (trace (Step 0%nat example_twice)).
Proof.
  destruct (advance_keeps_exactly example_playing)
    as (_ & _ & _ & Hq & _ & Hok & _ & Hkept).
  destruct (Hok example_playing_ok) as (Hs & _ & Hr & Ht).
  destruct (Hkept example_playing_ids example_playing_fresh
              [] (mkSource 7%N 1%N) [ mkSource 8%N 2%N; mkSource 9%N 3%N ]
              (trace (Step 0%nat example_playing))
              eq_refl eq_refl eq_refl) as (Hstop & Hplay & _).
  destruct (advance_keeps_exactly example_twice)
    as (Hs' & Hr' & _ & Hq' & Ht' & _ & _ & Hkept').
  destruct (Hkept' example_twice_ids example_twice_fresh
              [] (mkSource 7%N 1%N) [ mkSource 7%N 2%N ]
              (trace (Step 0%nat example_twice))
              eq_refl eq_refl eq_refl) as (Hstop' & Hplay' & _).
  split; [exact example_playing_ok|].
  split; [exact Hs|]. split; [exact Hr|].
  split; [exact (Hq 7%N)|]. split; [exact (Hq 5%N)|].
  split; [exact Ht|].
  split; [exact example_playing_ids|].
  split; [exact example_playing_fresh|].
  split; [exact Hstop|]. split; [exact Hplay|].
  split.
  { unfold sources_ok. simpl. intros H.
    inversion H as [|? ? Hnotin _]; subst. apply Hnotin. now left. }
  split; [exact Hs'|]. split; [exact Hr'|].
  split; [exact (Hq' 7%N)|]. split; [exact Ht'|].
  split; [exact Hstop' | exact Hplay'].
Defined.

Lemma to_unsigned_small (n cap : N) :
  (n < cap)%N -> (cap < 2 ^ 32)%N -> to_unsigned n = n.
Proof. intros H1 H2. unfold to_unsigned. apply N.mod_small. lia. Qed.

(** The second loop follows the allocation rule. *)
Lemma allocate_Allocates (entries : SoundQueue) :
  forall st, (maxSources st < 2 ^ 32)%N ->
    Allocates entries st (allocate entries st).
Proof.
  induction entries as [|[sound e] rest IH]; intros st Hcap.
  - constructor.
  - cbn [allocate].
    destruct (recycledSources st) as [|id0 ids] eqn:Erec.
    + destruct (N.leb_spec (maxSources st) (N.of_nat (List.length (sources st))))
        as [Hle|Hlt].
      * now apply Allocates_at_cap.
      * destruct (al_pending st) as [|id pending] eqn:Epend.
        -- cbn [hd tl N.eqb]. cbn [emit set_al_pending sources].
           rewrite (to_unsigned_small _ _ Hlt Hcap).
           pose proof (Allocates_refused sound e rest st Erec Hlt) as H.
           rewrite Epend in H. now apply H.
        -- cbn [hd tl]. destruct (N.eqb_spec id 0) as [->|Hne].
           ++ cbn [emit set_al_pending sources].
              rewrite (to_unsigned_small _ _ Hlt Hcap).
              pose proof (Allocates_refused sound e rest st Erec Hlt) as H.
              rewrite Epend in H. now apply H.
           ++ eapply Allocates_new; eauto.
    + eapply Allocates_recycled with
          (ids := removelast (id0 :: ids)) (id := last (id0 :: ids) 0%N).
      * rewrite Erec. apply app_removelast_last. discriminate.
      * apply IH. exact Hcap.
Qed.

(** Where the second loop leaves the cap and the trace: either the device
    never refused and the cap stands, or the refusal is the last thing
    that happened and the cap is the number of active sources, below the
    cap as it was. *)
Lemma allocate_refusal (entries : SoundQueue) :
  forall st, (maxSources st < 2 ^ 32)%N ->
    exists front,
      ~ In (alGenSources 0) front
      /\ ((trace (allocate entries st) = trace st ++ front
           /\ maxSources (allocate entries st) = maxSources st)
          \/ (trace (allocate entries st)
              = trace st ++ front ++ [alGenSources 0]
              /\ maxSources (allocate entries st)
                 = N.of_nat (List.length (sources (allocate entries st)))
              /\ (maxSources (allocate entries st) < maxSources st)%N)).
Proof.
  induction entries as [|[sound e] rest IH]; intros st Hcap.
  - exists []. split; [intros []|]. left. simpl. now rewrite app_nil_r.
  - cbn [allocate].
    destruct (recycledSources st) as [|id0 ids] eqn:Erec.
    + destruct (N.leb_spec (maxSources st) (N.of_nat (List.length (sources st))))
        as [Hle|Hlt].
      * exists []. split; [intros []|]. left. now rewrite app_nil_r.
      * destruct (N.eqb_spec (hd 0%N (al_pending st)) 0) as [Hz|Hne].
        -- exists []. split; [intros []|]. right.
           cbn [emit set_al_pending set_maxSources sources trace maxSources].
           rewrite Hz, (to_unsigned_small _ _ Hlt Hcap). auto.
        -- set (id := hd 0%N (al_pending st)) in *.
           set (st1 := emit [alGenSources id]
                         (set_al_pending (tl (al_pending st)) st)).
           destruct (IH (start_source sound e id st1) Hcap)
             as (front & Hfront & Hcases).
           rewrite start_source_trace in Hcases.
           set (evs := Source_init st1 sound id
                       ++ Move (mkSource sound id) (Position e) (Velocity e)
                       ++ [alSourcePlay id]) in *.
           exists (alGenSources id :: evs ++ front). split.
           ++ intros [H|H]; [injection H as H; contradiction|].
              apply in_app_or in H. destruct H as [H|H]; [|contradiction].
              revert H. apply start_source_no_refusal.
           ++ change (trace st1) with (trace st ++ [alGenSources id]) in Hcases.
              change (maxSources (start_source sound e id st1))
                with (maxSources st) in Hcases.
              destruct Hcases as [[Ht Hm]|(Ht & Hm & Hlow)]; [left|right];
                rewrite Ht; repeat split; auto;
                rewrite <- ?app_assoc; reflexivity.
    + set (id := last (id0 :: ids) 0%N).
      set (st1 := set_recycledSources (removelast (id0 :: ids)) st).
      destruct (IH (start_source sound e id st1) Hcap)
        as (front & Hfront & Hcases).
      rewrite start_source_trace in Hcases.
      set (evs := Source_init st1 sound id
                  ++ Move (mkSource sound id) (Position e) (Velocity e)
                  ++ [alSourcePlay id]) in *.
      exists (evs ++ front). split.
      * intros H. apply in_app_or in H. destruct H as [H|H]; [|contradiction].
        revert H. apply start_source_no_refusal.
      * change (trace st1) with (trace st) in Hcases.
        change (maxSources (start_source sound e id st1))
          with (maxSources st) in Hcases.
        destruct Hcases as [[Ht Hm]|(Ht & Hm & Hlow)]; [left|right];
          rewrite Ht; repeat split; auto;
          rewrite <- ?app_assoc; reflexivity.
Qed.

Lemma advance_source_maxSources (acc : list Source) (st : Audio) (s : Source) :
  maxSources (snd (advance_source (acc, st) s)) = maxSources st.
Proof.
  unfold advance_source.
  destruct (IsLooping (heap st (GetSound s))).
  - now destruct (queue_find (GetSound s) (queue st)).
  - now destruct (al_playing st (ID s)).
Qed.

(** The first loop leaves the cap alone. *)
Lemma advance_maxSources (st : Audio) :
  maxSources (advance st) = maxSources st.
Proof.
  unfold advance.
  assert (H : forall l acc s,
            maxSources (snd (fold_left advance_source l (acc, s)))
            = maxSources s).
  { induction l as [|x l IH]; intros acc s; cbn [fold_left]; [reflexivity|].
    destruct (advance_source (acc, s) x) as [acc' s'] eqn:E.
    rewrite IH. change s' with (snd (acc', s')). rewrite <- E.
    apply advance_source_maxSources. }
  specialize (H (sources st) [] st).
  now destruct (fold_left advance_source (sources st) ([], st)).
Qed.

Lemma Play_maxSources (tid : ThreadId) (sound : SoundPtr)
  (position velocity : Point) (st : Audio) :
  maxSources (Play tid sound position velocity st) = maxSources st.
Proof.
  unfold Play.
  destruct ((sound =? 0)%N || (Buffer (heap st sound) =? 0)%N
            || is_zero (volume st)); [reflexivity|].
  now destruct (tid =? mainThreadID st)%nat.
Qed.

(** C4.  When [Step] runs in the main thread, its second loop gives
    channels to the entries the first loop left in the queue by the
    allocation rule: a recycled identifier is reused when there is one,
    otherwise the device is asked for a new one only while the number of
    active sources is below the cap.  Either the device never refuses and
    the cap stands, or its refusal is the last thing that happens in the
    frame, the cap becomes the number of active sources, which is below
    the cap as it was, and the entries left get no channel.  The queue is
    empty when [Step] returns, and neither [Play] nor [Update] nor
    [SetVolume] changes the cap. *)
Theorem allocate_by_rule (st : Audio) :
  (maxSources st < 2 ^ 32)%N ->
  Step (mainThreadID st) st
  = set_queue [] (allocate (queue (advance st)) (advance st))
  /\ Allocates (queue (advance st)) (advance st)
       (allocate (queue (advance st)) (advance st))
  /\ (exists front,
         ~ In (alGenSources 0) front
         /\ ((trace (Step (mainThreadID st) st) = trace (advance st) ++ front
              /\ maxSources (Step (mainThreadID st) st) = maxSources st)
             \/ (trace (Step (mainThreadID st) st)
                 = trace (advance st) ++ front ++ [alGenSources 0]
                 /\ maxSources (Step (mainThreadID st) st)
                    = N.of_nat
                        (List.length (sources (Step (mainThreadID st) st)))
                 /\ (maxSources (Step (mainThreadID st) st)
                     < maxSources st)%N)))
  /\ queue (Step (mainThreadID st) st) = []
  /\ (forall tid sound position velocity,
         maxSources (Play tid sound position velocity st) = maxSources st)
  /\ (forall position velocity,
         maxSources (Update position velocity st) = maxSources st)
  /\ (forall level, maxSources (SetVolume level st) = maxSources st).
Proof.
  intros Hcap.
  assert (Hcap' : (maxSources (advance st) < 2 ^ 32)%N)
    by now rewrite advance_maxSources.
  assert (Hstep : Step (mainThreadID st) st
                  = set_queue [] (allocate (queue (advance st)) (advance st))).
  { unfold Step. now rewrite Nat.eqb_refl. }
  split; [exact Hstep|]. split; [now apply allocate_Allocates|].
  split; [|split; [|split; [|split]]].
  - destruct (allocate_refusal (queue (advance st)) (advance st) Hcap')
      as (front & Hfront & Hcases).
    exists front. split; [exact Hfront|]. rewrite Hstep.
    rewrite advance_maxSources in Hcases. exact Hcases.
  - now rewrite Hstep.
  - intros. apply Play_maxSources.
  - reflexivity.
  - reflexivity.
Qed.

(** C4 at three new requests when the device has two sources to hand out:
    two sources start, the third request is refused, the cap becomes 2 and
    the queue is cleared. *)
Lemma allocate_by_rule_witness :
  (maxSources example_requests < 2 ^ 32)%N
  /\ Allocates (queue (advance example_requests)) (advance example_requests)
       (allocate (queue (advance example_requests))
          (advance example_requests))
  /\ queue (Step 0%nat example_requests) = []
  /\ sources (Step 0%nat example_requests)
     = [ mkSource 5%N 4%N; mkSource 8%N 5%N ]
  /\ maxSources (Step 0%nat example_requests) = 2%N.
Proof.
  assert (H : (maxSources example_requests < 2 ^ 32)%N) by reflexivity.
  destruct (allocate_by_rule example_requests H) as (_ & Hrule & _ & Hq & _).
  split; [exact H|]. split; [exact Hrule|]. split; [exact Hq|].
  split; reflexivity.
Defined.

(** ** Update and the frame that follows *)

(** A sound among the looping sounds of the sources is looping, and a
    source plays it. *)
Lemma looping_sounds_existsb (st : Audio) (l : list Source)
  (sound : SoundPtr) :
  existsb (N.eqb sound) (looping_sounds st l) = true ->
  IsLooping (heap st sound) = true
  /\ existsb (N.eqb sound) (map GetSound l) = true.
Proof.
  intros H. apply existsb_exists in H. destruct H as (x & Hin & Hx).
  apply N.eqb_eq in Hx. subst x. unfold looping_sounds in Hin.
  apply in_map_iff in Hin. destruct Hin as (s & Hs & Hin).
  apply filter_In in Hin. destruct Hin as [Hin Hl]. subst sound.
  split; [exact Hl|]. apply existsb_exists. exists (GetSound s).
  split; [now apply in_map | apply N.eqb_refl].
Qed.

(** The first source of a looping sound with an entry is given the
    position and the velocity of the entry. *)
Lemma first_source_moved (st : Audio) (sound : SoundPtr) (m : QueueEntry)
  (l : list Source) :
  queue_find sound (queue st) = Some m ->
  IsLooping (heap st sound) = true ->
  forall before,
    existsb (N.eqb sound) (map GetSound before) = false ->
    existsb (N.eqb sound) (map GetSound l) = true ->
    exists s,
      In s l /\ GetSound s = sound
      /\ In (alSource3f_POSITION (ID s)
               (X (Position m) * 0.001) (Y (Position m) * 0.001) 0)
           (events_of_turns st before l)
      /\ In (alSource3f_VELOCITY (ID s)
               (X (Velocity m) * 0.001) (Y (Velocity m) * 0.001) 0)
           (events_of_turns st before l).
Proof.
  intros Hm Hl. induction l as [|x l IH]; intros before Hb Hex;
    [discriminate|].
  cbn [map existsb] in Hex. cbn [events_of_turns].
  destruct (N.eqb_spec sound (GetSound x)) as [Heq|Hne].
  - exists x. split; [now left|]. split; [now symmetry|].
    unfold events_in_turn. rewrite <- Heq, Hl, Hm, Hb.
    split; apply in_or_app; left; [now left | right; now left].
  - cbn [orb] in Hex.
    destruct (IH (before ++ [x])) as (s & Hin & Hs & Hp & Hv).
    + rewrite map_app, existsb_app. apply orb_false_iff.
      split; [exact Hb|]. cbn.
      apply N.eqb_neq in Hne. now rewrite Hne.
    + exact Hex.
    + exists s. split; [now right|]. split; [exact Hs|].
      split; apply in_or_app; now right.
Qed.

(** A single request that reaches the queue through [deferred] is played
    where it was requested. *)
Lemma Position_single_merged (position velocity : Point) :
  Position (AddEntry QueueEntry_new (Add QueueEntry_new position velocity))
  = position.
Proof.
  pose proof (contribution_weight_pos position) as Hw.
  rewrite <- Add_weight_spec in Hw.
  unfold Position, AddEntry, Add, QueueEntry_new. cbn.
  set (w := 1 / Rmax 1 (Dot position position)) in *.
  destruct (Req_dec_T (0 + (0 + w)) 0) as [Hz|Hnz]; [lra|].
  apply Point_eq; cbn; field; lra.
Qed.

(** C5.  [Update] leaves [deferred] empty and folds each of its bindings
    into the binding of the same sound in [queue] with the entry-merge
    [Add(const QueueEntry &)]: the merged entry has the sum, the speed and
    the weight of the two entries added, and is the deferred entry itself
    when [queue] had none for the sound; the other bindings of [queue]
    stay as they were.  So a request played from another thread than the
    main one is in [queue] right after [Update], with its weight, and a
    single request has the position it was requested at.  The [Step] that
    follows consumes the merged entry: when a source plays the sound and
    the sound is looping, the first such source is given the position and
    the velocity of the merged entry and the entry leaves the queue in the
    first loop; otherwise the entry is among those that the second loop
    serves by the allocation rule; and the queue is empty when [Step]
    returns. *)
Theorem Update_merges_deferred (listenerPosition velocity : Point)
  (st : Audio) :
  queue_ok (deferred st) ->
  deferred (Update listenerPosition velocity st) = []
  /\ (forall sound d,
         queue_find sound (deferred st) = Some d ->
         exists m,
           queue_find sound (queue (Update listenerPosition velocity st))
           = Some m
           /\ m = AddEntry (queue_get sound (queue st)) d
           /\ sum m = Point_add (sum (queue_get sound (queue st))) (sum d)
           /\ speed m = speed (queue_get sound (queue st)) + speed d
           /\ weight m = weight (queue_get sound (queue st)) + weight d
           /\ (queue_find sound (queue st) = None -> m = d)
           /\ queue_find sound
                (queue (advance (Update listenerPosition velocity st)))
              = (if existsb (N.eqb sound) (looping_sounds st (sources st))
                 then None
                 else Some m)
           /\ (existsb (N.eqb sound) (looping_sounds st (sources st)) = true ->
               exists s,
                 In s (sources st) /\ GetSound s = sound
                 /\ In (alSource3f_POSITION (ID s)
                          (X (Position m) * 0.001) (Y (Position m) * 0.001)
                          0)
                      (trace (advance (Update listenerPosition velocity st)))
                 /\ In (alSource3f_VELOCITY (ID s)
                          (X (Velocity m) * 0.001) (Y (Velocity m) * 0.001)
                          0)
                      (trace
                         (advance (Update listenerPosition velocity st))))
           /\ (existsb (N.eqb sound) (looping_sounds st (sources st)) = false ->
               In (sound, m)
                 (queue (advance (Update listenerPosition velocity st)))))
  /\ (forall sound,
         queue_find sound (deferred st) = None ->
         queue_find sound (queue (Update listenerPosition velocity st))
         = queue_find sound (queue st))
  /\ (forall tid sound position v,
         tid <> mainThreadID st -> sound <> 0%N ->
         Buffer (heap st sound) <> 0%N -> volume st <> 0 ->
         exists m,
           queue_find sound
             (queue
                (Update listenerPosition velocity
                   (Play tid sound position v st)))
           = Some m
           /\ m = AddEntry (queue_get sound (queue st))
                    (Add (queue_get sound (deferred st))
                       (Point_sub position (listener st))
                       (Point_sub v (listenerVelocity st)))
           /\ weight m
              = weight (queue_get sound (queue st))
                + (weight (queue_get sound (deferred st))
                   + contribution_weight (Point_sub position (listener st)))
           /\ sum m
              = Point_add (sum (queue_get sound (queue st)))
                  (Point_add (sum (queue_get sound (deferred st)))
                     (Point_scale
                        (contribution_weight
                           (Point_sub position (listener st)))
                        (Point_sub position (listener st))))
           /\ (queue_find sound (queue st) = None ->
               queue_find sound (deferred st) = None ->
               Position m = Point_sub position (listener st)))
  /\ Step (mainThreadID st) (Update listenerPosition velocity st)
     = set_queue []
         (allocate (queue (advance (Update listenerPosition velocity st)))
            (advance (Update listenerPosition velocity st)))
  /\ ((maxSources st < 2 ^ 32)%N ->
      Allocates (queue (advance (Update listenerPosition velocity st)))
        (advance (Update listenerPosition velocity st))
        (allocate (queue (advance (Update listenerPosition velocity st)))
           (advance (Update listenerPosition velocity st))))
  /\ queue
       (Step (mainThreadID st) (Update listenerPosition velocity st))
     = [].
Proof.
  intros Hok.
  assert (Hfind : forall s : Audio, queue_ok (deferred s) ->
            forall sound,
              queue_find sound (queue (Update listenerPosition velocity s))
              = match queue_find sound (deferred s) with
                | Some x => Some (AddEntry (queue_get sound (queue s)) x)
                | None => queue_find sound (queue s)
                end).
  { intros s Hs sound. unfold Update; simpl. now apply merge_deferred_find. }
  destruct (advance_in_turn (Update listenerPosition velocity st))
    as (_ & Hq & _ & Ht & _).
  change (sources (Update listenerPosition velocity st))
    with (sources st) in Hq, Ht.
  split; [reflexivity|]. split; [|split; [|split; [|split; [|split]]]].
  - intros sound d Hd.
    exists (AddEntry (queue_get sound (queue st)) d).
    assert (Hin : queue_find sound
                    (queue (advance (Update listenerPosition velocity st)))
                  = (if existsb (N.eqb sound)
                          (looping_sounds st (sources st))
                     then None
                     else Some (AddEntry (queue_get sound (queue st)) d))).
    { rewrite Hq, queue_in_turn_find.
      change (looping_sounds (Update listenerPosition velocity st)
                (sources st))
        with (looping_sounds st (sources st)).
      now rewrite Hfind, Hd. }
    split; [now rewrite Hfind, Hd|].
    split; [reflexivity|]. split; [reflexivity|].
    split; [reflexivity|]. split; [reflexivity|]. split; [|split; [|split]].
    + intros Hnone. unfold queue_get, map_get. unfold queue_find in Hnone.
      rewrite Hnone. destruct d as [[x y] sp w].
      unfold AddEntry, QueueEntry_new, Point_add, Point_zero. cbn.
      f_equal; [apply Point_eq; cbn; lra | lra | lra].
    + exact Hin.
    + intros Hex.
      destruct (looping_sounds_existsb st (sources st) sound Hex)
        as [Hloop Hplays].
      destruct (first_source_moved (Update listenerPosition velocity st)
                  sound (AddEntry (queue_get sound (queue st)) d)
                  (sources st)) with (before := @nil Source)
        as (s & Hs & Hsound & Hp & Hv).
      * now rewrite Hfind, Hd.
      * exact Hloop.
      * reflexivity.
      * exact Hplays.
      * exists s. split; [exact Hs|]. split; [exact Hsound|].
        rewrite Ht. split; apply in_or_app; now right.
    + intros Hex. rewrite Hex in Hin.
      exact (map_find_In N.eqb N.eqb_eq _ _ _ Hin).
  - intros sound Hd. now rewrite Hfind, Hd.
  - intros tid sound position v Htid Hs Hb Hv.
    exists (AddEntry (queue_get sound (queue st))
              (Add (queue_get sound (deferred st))
                 (Point_sub position (listener st))
                 (Point_sub v (listenerVelocity st)))).
    split.
    { rewrite Play_deferred by assumption. rewrite Hfind; simpl.
      - now rewrite queue_find_at_same.
      - now apply queue_at_ok. }
    split; [reflexivity|].
    destruct (Add_fields (queue_get sound (deferred st))
                (Point_sub position (listener st))
                (Point_sub v (listenerVelocity st))) as (Hw & Hsum & _).
    split; [cbn [weight AddEntry]; now rewrite Hw|].
    split; [cbn [sum AddEntry]; now rewrite Hsum|].
    intros Hq0 Hd0. unfold queue_get, map_get.
    unfold queue_find in Hq0, Hd0. rewrite Hq0, Hd0.
    apply Position_single_merged.
  - unfold Step. cbn [mainThreadID Update emit set_deferred set_queue
                      set_listener]. now rewrite Nat.eqb_refl.
  - intros Hcap. apply allocate_Allocates.
    now rewrite advance_maxSources.
  - apply (Step_clears_queue (Update listenerPosition velocity st)).
Qed.

(** C5 at a state where another thread has handed in a request for the
    looping sound 7, which source 1 plays, and one for the sound 8, which
    no source plays: after [Update] both are in [queue] with the weight of
    their contribution; in the [Step] that follows source 1 is given the
    position of the entry of sound 7, and the entry of sound 8 is served
    by the second loop, which starts source 4 for it. *)
Lemma Update_merges_deferred_witness :
  queue_ok (deferred example_handed_in)
  /\ deferred (Update (mkPoint 1 1) (mkPoint 0 0) example_handed_in) = []
  /\ queue_find 7%N
       (queue (Update (mkPoint 1 1) (mkPoint 0 0) example_handed_in))
     = Some
         (AddEntry QueueEntry_new
            (Add QueueEntry_new (mkPoint 3 4) (mkPoint 1 0)))
  /\ weight
       (AddEntry QueueEntry_new
          (Add QueueEntry_new (mkPoint 3 4) (mkPoint 1 0)))
     = weight QueueEntry_new
       + weight (Add QueueEntry_new (mkPoint 3 4) (mkPoint 1 0))
  /\ queue_find 7%N
       (queue
          (advance (Update (mkPoint 1 1) (mkPoint 0 0) example_handed_in)))
     = None
  /\ (exists s,
        In s (sources example_handed_in) /\ GetSound s = 7%N
        /\ In (alSource3f_POSITION (ID s)
                 (X (Position
                       (AddEntry QueueEntry_new
                          (Add QueueEntry_new (mkPoint 3 4) (mkPoint 1 0))))
                  * 0.001)
                 (Y (Position
                       (AddEntry QueueEntry_new
                          (Add QueueEntry_new (mkPoint 3 4) (mkPoint 1 0))))
                  * 0.001) 0)
             (trace
                (advance
                   (Update (mkPoint 1 1) (mkPoint 0 0) example_handed_in))))
  /\ In (8%N,
         AddEntry QueueEntry_new
           (Add QueueEntry_new (mkPoint 0 2) (mkPoint 0 1)))
       (queue
          (advance (Update (mkPoint 1 1) (mkPoint 0 0) example_handed_in)))
  /\ sources
       (Step 0%nat (Update (mkPoint 1 1) (mkPoint 0 0) example_handed_in))
     = [ mkSource 7%N 1%N; mkSource 8%N 4%N ]
  /\ In (alSourcePlay 4)
       (trace
          (Step 0%nat
             (Update (mkPoint 1 1) (mkPoint 0 0) example_handed_in)))
  /\ queue
       (Step 0%nat (Update (mkPoint 1 1) (mkPoint 0 0) example_handed_in))
     = []
  /\ Allocates
       (queue
          (advance (Update (mkPoint 1 1) (mkPoint 0 0) example_handed_in)))
       (advance (Update (mkPoint 1 1) (mkPoint 0 0) example_handed_in))
       (allocate
          (queue
             (advance
                (Update (mkPoint 1 1) (mkPoint 0 0) example_handed_in)))
          (advance (Update (mkPoint 1 1) (mkPoint 0 0) example_handed_in)))
  /\ (exists m,
        queue_find 7%N
          (queue
             (Update (mkPoint 1 1) (mkPoint 0 0)
                (Play 1%nat 7%N (mkPoint 3 4) (mkPoint 1 0)
                   (initial 0%nat [] example_heap (fun _ => true) []))))
        = Some m
        /\ weight m
           = 0 + (0 + contribution_weight (Point_sub (mkPoint 3 4) Point_zero))
        /\ Position m = Point_sub (mkPoint 3 4) Point_zero).
Proof.
  assert (Hquiet : queue_ok
                     (deferred
                        (initial 0%nat [] example_heap (fun _ => true) [])))
    by constructor.
  destruct (Update_merges_deferred (mkPoint 1 1) (mkPoint 0 0)
              (initial 0%nat [] example_heap (fun _ => true) []) Hquiet)
    as (_ & _ & _ & Hplay & _).
  destruct (Hplay 1%nat 7%N (mkPoint 3 4) (mkPoint 1 0))
    as (m & Hm & _ & Hw & _ & Hpos);
    [discriminate | discriminate | discriminate | simpl; lra |].
  assert (Hok : queue_ok (deferred example_handed_in)).
  { unfold queue_ok; simpl.
    repeat (constructor; [simpl; intuition discriminate|]). constructor. }
  destruct (Update_merges_deferred (mkPoint 1 1) (mkPoint 0 0)
              example_handed_in Hok)
    as (Hclear & Hmerge & _ & _ & Hstep & Hrule & Hempty).
  destruct (Hmerge 7%N (Add QueueEntry_new (mkPoint 3 4) (mkPoint 1 0))
              eq_refl)
    as (m7 & Hf7 & -> & _ & _ & Hw7 & _ & Hq7 & Hmoved & _).
  destruct (Hmerge 8%N (Add QueueEntry_new (mkPoint 0 2) (mkPoint 0 1))
              eq_refl)
    as (m8 & _ & -> & _ & _ & _ & _ & _ & _ & Hserved).
  destruct (Hmoved eq_refl) as (s & Hs & Hsound & Hp & _).
  split; [exact Hok|]. split; [exact Hclear|]. split; [exact Hf7|].
  split; [exact Hw7|]. split; [exact Hq7|].
  split; [exists s; repeat split; assumption|].
  split; [exact (Hserved eq_refl)|].
  change (mainThreadID example_handed_in) with 0%nat in Hstep, Hempty.
  split; [rewrite Hstep; reflexivity|].
  split; [rewrite Hstep; cbn; repeat (try (left; reflexivity); right)|].
  split; [exact Hempty|].
  split; [exact (Hrule eq_refl)|].
  exists m. split; [exact Hm|]. split; [exact Hw|].
  exact (Hpos eq_refl eq_refl).
Defined.

(** With a cap of 2 and three new requests, two sources start and the
    third request is dropped without asking the device: the cap stands and
    the third identifier is still to be handed out. *)
Example Step_at_cap :
  sources (Step 0%nat (set_al_pending [4%N; 5%N; 6%N]
                         (set_maxSources 2 example_requests)))
  = [ mkSource 5%N 4%N; mkSource 8%N 5%N ]
  /\ maxSources (Step 0%nat (set_al_pending [4%N; 5%N; 6%N]
                               (set_maxSources 2 example_requests)))
     = 2%N
  /\ al_pending (Step 0%nat (set_al_pending [4%N; 5%N; 6%N]
                               (set_maxSources 2 example_requests)))
     = [6%N]
  /\ queue (Step 0%nat (set_al_pending [4%N; 5%N; 6%N]
                          (set_maxSources 2 example_requests)))
     = [].
Proof. repeat split. Qed.

(** A recycled identifier is used before the device is asked: in the
    frame of [example_playing] the new request for sound 5 gets the
    identifier 3 that the first loop recycled. *)
Example Step_reuses_recycled :
  sources (Step 0%nat example_playing)
  = [ mkSource 7%N 1%N; mkSource 8%N 2%N; mkSource 5%N 3%N ]
  /\ recycledSources (Step 0%nat example_playing) = []
  /\ al_pending (Step 0%nat example_playing) = [4%N; 5%N]
  /\ maxSources (Step 0%nat example_playing) = 255%N.
Proof. repeat split. Qed.

(** ** The invariant of the scheduler *)

(** Filtering a list keeps the images of its elements distinct. *)
Lemma filter_distinct_images {A B : Type} (l : list A) (image : A -> B)
  (keep : A -> bool) (H : NoDup (map image l)) :
  NoDup (map image (filter keep l)).
Proof.
  induction l as [|a l IH]; simpl in *; [constructor|].
  inversion H as [|? ? Hnotin Hnd]; subst.
  destruct (keep a); simpl; [|now apply IH].
  constructor; [|now apply IH].
  intros Hin. apply Hnotin. apply in_map_iff in Hin.
  destruct Hin as (x & Hx & Hin). apply filter_In in Hin.
  apply in_map_iff. exists x. tauto.
Qed.

Lemma filter_swap {A : Type} (p q : A -> bool) (l : list A) :
  filter p (filter q l) = filter q (filter p l).
Proof.
  induction l as [|a l IH]; simpl; [reflexivity|].
  destruct (p a) eqn:Ep, (q a) eqn:Eq; simpl; rewrite ?Ep, ?Eq, IH;
    reflexivity.
Qed.

(** A prefix of a list: its elements are elements of the list, and it has
    no duplicates when the list has none. *)
Lemma prefix_incl {A : Type} (l : list A) : forall n, incl (firstn n l) l.
Proof.
  induction l as [|a l IH]; intros [|n] x Hx; simpl in *; try tauto.
  destruct Hx as [->|Hx]; [now left | right; exact (IH n x Hx)].
Qed.

Lemma prefix_NoDup {A : Type} (l : list A) :
  NoDup l -> forall n, NoDup (firstn n l).
Proof.
  induction 1 as [|a l Hnotin Hnd IH]; intros [|n]; simpl; try constructor.
  - intros Hin. apply Hnotin. exact (prefix_incl l n a Hin).
  - apply IH.
Qed.

Lemma map_erase_keys_In {K V : Type} (eqb : K -> K -> bool)
  (eqb_eq : forall a b, eqb a b = true <-> a = b) (k k' : K)
  (m : list (K * V)) :
  In k' (map fst (map_erase eqb k m)) <-> In k' (map fst m) /\ k' <> k.
Proof.
  induction m as [|[k0 v] m IH]; simpl; [tauto|].
  destruct (eqb k k0) eqn:E; simpl.
  - apply eqb_eq in E. subst k0. rewrite IH. intuition congruence.
  - rewrite IH. split.
    + intros [->|[H1 H2]]; [|tauto]. split; [now left|].
      intros ->. rewrite (proj2 (eqb_eq k k) eq_refl) in E. discriminate.
    + tauto.
Qed.

Lemma map_erase_keys_NoDup {K V : Type} (eqb : K -> K -> bool)
  (eqb_eq : forall a b, eqb a b = true <-> a = b) (k : K) (m : list (K * V)) :
  NoDup (map fst m) -> NoDup (map fst (map_erase eqb k m)).
Proof.
  induction m as [|[k0 v] m IH]; simpl; intros H; [constructor|].
  inversion H as [|? ? Hnotin Hnd]; subst.
  destruct (eqb k k0); simpl; [now apply IH|].
  constructor; [|now apply IH].
  rewrite (map_erase_keys_In eqb eqb_eq). tauto.
Qed.

Lemma erase_all_keys_In (l : list SoundPtr) :
  forall (q : SoundQueue) (sound : SoundPtr),
    In sound (map fst (erase_all l q)) ->
    In sound (map fst q) /\ ~ In sound l.
Proof.
  induction l as [|k l IH]; intros q sound; simpl; [tauto|].
  unfold erase_all in *; simpl. intros H. apply IH in H.
  destruct H as [H1 H2]. unfold queue_erase in H1.
  apply (map_erase_keys_In N.eqb N.eqb_eq) in H1.
  split; [tauto|]. intros [->|H3]; tauto.
Qed.

Lemma erase_all_ok (l : list SoundPtr) :
  forall q : SoundQueue, queue_ok q -> queue_ok (erase_all l q).
Proof.
  induction l as [|k l IH]; intros q H; [exact H|].
  unfold erase_all in *; simpl. apply IH. unfold queue_ok, queue_erase.
  now apply (map_erase_keys_NoDup N.eqb N.eqb_eq).
Qed.

Lemma looping_sounds_heap (st st' : Audio) (l : list Source) :
  heap st' = heap st -> looping_sounds st' l = looping_sounds st l.
Proof. intros H. unfold looping_sounds. now rewrite H. Qed.

Lemma looping_sounds_app (st : Audio) (l1 l2 : list Source) :
  looping_sounds st (l1 ++ l2)
  = looping_sounds st l1 ++ looping_sounds st l2.
Proof. unfold looping_sounds. now rewrite filter_app, map_app. Qed.

Lemma start_source_heap (sound : SoundPtr) (e : QueueEntry) (source : N)
  (st : Audio) :
  heap (start_source sound e source st) = heap st.
Proof. reflexivity. Qed.

(** The sources the second loop starts play the first queued sounds, one
    source each, and the loop leaves the memory, the deferred requests and
    the main thread as they are. *)
Lemma allocate_started (entries : SoundQueue) :
  forall st, exists started n,
    sources (allocate entries st) = sources st ++ started
    /\ map GetSound started = firstn n (map fst entries)
    /\ heap (allocate entries st) = heap st
    /\ deferred (allocate entries st) = deferred st
    /\ mainThreadID (allocate entries st) = mainThreadID st.
Proof.
  induction entries as [|[sound e] rest IH]; intros st; cbn [allocate].
  - exists [], 0%nat. now rewrite app_nil_r.
  - destruct (recycledSources st) as [|id0 ids] eqn:Erec.
    + destruct (maxSources st <=? N.of_nat (List.length (sources st)))%N.
      * exists [], 0%nat. now rewrite app_nil_r.
      * destruct (hd 0%N (al_pending st) =? 0)%N.
        -- exists [], 0%nat. simpl. now rewrite app_nil_r.
        -- match goal with
           | |- context [allocate rest ?s] =>
               destruct (IH s) as (l & n & Hs & Hk & Hh & Hd & Hm)
           end.
           rewrite Hs, Hh, Hd, Hm, start_source_sources.
           eexists (_ :: l), (S n). rewrite <- app_assoc.
           repeat split. simpl. now rewrite Hk.
    + match goal with
      | |- context [allocate rest ?s] =>
          destruct (IH s) as (l & n & Hs & Hk & Hh & Hd & Hm)
      end.
      rewrite Hs, Hh, Hd, Hm, start_source_sources.
      eexists (_ :: l), (S n). rewrite <- app_assoc.
      repeat split. simpl. now rewrite Hk.
Qed.

(** After a [Step] no two active sources play the same looping sound. *)
Lemma Step_sources_ok (tid : ThreadId) (st : Audio) :
  sources_ok st -> queue_ok (queue st) -> sources_ok (Step tid st).
Proof.
  intros Hs Hq. unfold Step.
  destruct (tid =? mainThreadID st)%nat; [|exact Hs]. cbn [negb].
  unfold sources_ok.
  change (sources (set_queue [] (allocate (queue (advance st)) (advance st))))
    with (sources (allocate (queue (advance st)) (advance st))).
  destruct (allocate_started (queue (advance st)) (advance st))
    as (started & n & Hsrc & Hkeys & Hheap & _).
  rewrite Hsrc.
  assert (Hh : heap (set_queue [] (allocate (queue (advance st)) (advance st)))
               = heap st).
  { change (heap (allocate (queue (advance st)) (advance st)) = heap st).
    rewrite Hheap, (advance_closed_form st Hs). reflexivity. }
  rewrite (looping_sounds_heap _ _ _ Hh), looping_sounds_app.
  rewrite (advance_closed_form st Hs) in Hkeys |- *.
  cbn [sources set_sources queue set_queue] in Hkeys |- *.
  apply NoDup_app.
  - unfold looping_sounds. rewrite filter_swap.
    apply filter_distinct_images. exact Hs.
  - unfold looping_sounds. apply filter_distinct_images. rewrite Hkeys.
    apply prefix_NoDup. now apply erase_all_ok.
  - intros sound Hin1 Hin2.
    assert (H1 : In sound (looping_sounds st (sources st))).
    { unfold looping_sounds in Hin1 |- *. apply in_map_iff in Hin1.
      destruct Hin1 as (x & Hx & Hin1). apply filter_In in Hin1.
      destruct Hin1 as [Hin1 Hl]. apply filter_In in Hin1.
      apply in_map_iff. exists x. split; [exact Hx|].
      apply filter_In. tauto. }
    assert (H2 : In sound (map GetSound started)).
    { unfold looping_sounds in Hin2. apply in_map_iff in Hin2.
      destruct Hin2 as (x & Hx & Hin2). apply filter_In in Hin2.
      apply in_map_iff. exists x. tauto. }
    rewrite Hkeys in H2. apply prefix_incl, erase_all_keys_In in H2. tauto.
Qed.

(** Key order implies that a sound is bound at most once. *)
Lemma queue_sorted_ok (q : SoundQueue) : queue_sorted q -> queue_ok q.
Proof.
  unfold queue_sorted, queue_ok.
  induction (map fst q) as [|k l IH]; intros H; [constructor|].
  apply StronglySorted_inv in H. destruct H as [Hl Hk].
  constructor; [|now apply IH].
  intros Hin. rewrite Forall_forall in Hk. specialize (Hk k Hin). lia.
Qed.

Lemma map_insert_sorted {V : Type} (k : N) (v : V) (m : list (N * V)) :
  StronglySorted N.lt (map fst m) ->
  map_find N.eqb k m = None ->
  StronglySorted N.lt (map fst (map_insert N.ltb k v m)).
Proof.
  induction m as [|[k0 v0] m IH]; simpl; intros Hs Hf.
  - repeat constructor.
  - destruct (N.eqb_spec k k0) as [|Hne]; [discriminate|].
    apply StronglySorted_inv in Hs. destruct Hs as [Hm Hk0].
    destruct (N.ltb_spec k k0) as [Hlt|Hge]; simpl.
    + constructor; [now constructor|].
      constructor; [exact Hlt|].
      rewrite Forall_forall in Hk0 |- *. intros x Hx.
      specialize (Hk0 x Hx). lia.
    + constructor; [now apply IH|].
      rewrite Forall_forall in Hk0 |- *. intros x Hx.
      apply map_insert_keys_In in Hx. destruct Hx as [->|Hx]; [lia|auto].
Qed.

Lemma map_erase_sorted {V : Type} (k : N) (m : list (N * V)) :
  StronglySorted N.lt (map fst m) ->
  StronglySorted N.lt (map fst (map_erase N.eqb k m)).
Proof.
  induction m as [|[k0 v0] m IH]; simpl; intros Hs; [constructor|].
  apply StronglySorted_inv in Hs. destruct Hs as [Hm Hk0].
  destruct (k =? k0)%N; simpl; [now apply IH|].
  constructor; [now apply IH|].
  rewrite Forall_forall in Hk0 |- *. intros x Hx.
  apply (map_erase_keys_In N.eqb N.eqb_eq) in Hx. now apply Hk0.
Qed.

(** [q[sound].Add(...)] keeps the bindings in key order. *)
Lemma queue_at_sorted (sound : SoundPtr) (f : QueueEntry -> QueueEntry)
  (q : SoundQueue) :
  queue_sorted q -> queue_sorted (queue_at sound f q).
Proof.
  unfold queue_sorted, queue_at, map_at. intros H.
  destruct (map_find N.eqb sound q) eqn:E.
  - now rewrite map_modify_keys.
  - now apply map_insert_sorted.
Qed.

Lemma merge_deferred_sorted (d : SoundQueue) :
  forall q : SoundQueue,
    queue_sorted q -> queue_sorted (fold_left merge_deferred d q).
Proof.
  induction d as [|it d IH]; intros q H; simpl; [exact H|].
  apply IH. unfold merge_deferred. now apply queue_at_sorted.
Qed.

(** A list splits into the elements a test picks and the others. *)
Lemma filter_split_perm {A : Type} (pick : A -> bool) (l : list A) :
  Permutation l (filter pick l ++ filter (fun a => negb (pick a)) l).
Proof.
  induction l as [|a l IH]; simpl; [constructor|].
  destruct (pick a); simpl.
  - now constructor.
  - now apply Permutation_cons_app.
Qed.

(** The second loop moves identifiers from the recycled sources and from
    the device to the active sources. *)
Lemma allocate_ids (entries : SoundQueue) :
  forall st, Permutation (all_ids (allocate entries st)) (all_ids st).
Proof.
  induction entries as [|[sound e] rest IH]; intros st; cbn [allocate];
    [reflexivity|].
  destruct (recycledSources st) as [|id0 ids] eqn:Erec.
  - destruct (maxSources st <=? N.of_nat (List.length (sources st)))%N;
      [reflexivity|].
    destruct (N.eqb_spec (hd 0%N (al_pending st)) 0) as [Hz|Hne].
    + unfold all_ids.
      cbn [sources recycledSources al_pending set_maxSources emit
           set_al_pending].
      destruct (al_pending st) as [|id pending]; [reflexivity|].
      simpl in Hz. subst id. reflexivity.
    + rewrite IH. unfold all_ids.
      cbn [sources recycledSources al_pending start_source emit set_sources
           set_al_pending].
      rewrite Erec. destruct (al_pending st) as [|id pending];
        [contradiction|].
      simpl in Hne |- *. apply N.eqb_neq in Hne. rewrite Hne. simpl.
      rewrite map_app, <- app_assoc. reflexivity.
  - rewrite IH. unfold all_ids.
    cbn [sources recycledSources al_pending start_source emit set_sources
         set_recycledSources].
    rewrite Erec.
    rewrite (app_removelast_last 0%N (l := id0 :: ids)) at 3
      by discriminate.
    rewrite map_app, <- !app_assoc. apply Permutation_app_head.
    cbn [map ID]. rewrite !app_assoc. apply Permutation_app_tail.
    apply Permutation_app_comm.
Qed.

(** With every identifier in one place only, the identifiers in use are
    all different and none of them is handed out again. *)
Lemma device_ok_ids (st : Audio) :
  device_ok st -> ids_ok st /\ pending_fresh st.
Proof.
  unfold device_ok, all_ids, ids_ok, pending_fresh. intros H. split.
  - rewrite app_assoc in H. now apply NoDup_app_remove_r in H.
  - intros id Hin Hnz Hsrc. revert Hsrc. intros Hsrc.
    apply (app_NoDup_apart _ _ id H Hsrc).
    apply in_or_app. right. apply filter_In. split; [exact Hin|].
    apply N.eqb_neq in Hnz. now rewrite Hnz.
Qed.

Lemma Play_ids (tid : ThreadId) (sound : SoundPtr)
  (position velocity : Point) (st : Audio) :
  all_ids (Play tid sound position velocity st) = all_ids st.
Proof.
  unfold Play.
  destruct ((sound =? 0)%N || (Buffer (heap st sound) =? 0)%N
            || is_zero (volume st)); [reflexivity|].
  now destruct (tid =? mainThreadID st)%nat.
Qed.


(** * Further properties of the code *)

(** ** The coalescer: merging, order and bounds *)

Lemma QueueEntry_eq (e e' : QueueEntry) :
  sum e = sum e' -> speed e = speed e' -> weight e = weight e' -> e = e'.
Proof. destruct e, e'; simpl; intros -> -> ->; reflexivity. Qed.

Lemma total_weight_app (cs1 cs2 : list Contribution) :
  total_weight (cs1 ++ cs2) = total_weight cs1 + total_weight cs2.
Proof. induction cs1 as [|c cs1 IH]; simpl; [lra | rewrite IH; lra]. Qed.

Lemma weighted_sum_app (cs1 cs2 : list Contribution) :
  weighted_sum (cs1 ++ cs2)
  = Point_add (weighted_sum cs1) (weighted_sum cs2).
Proof.
  induction cs1 as [|c cs1 IH]; simpl.
  - now rewrite Point_add_zero_l.
  - now rewrite IH, Point_add_assoc.
Qed.

Lemma radial_speed_sum_app (cs1 cs2 : list Contribution) :
  radial_speed_sum (cs1 ++ cs2)
  = radial_speed_sum cs1 + radial_speed_sum cs2.
Proof. induction cs1 as [|c cs1 IH]; simpl; [lra | rewrite IH; lra]. Qed.

(** X1.  Merging into an entry [e] an entry built from the contributions
    [cs] gives what adding the contributions to [e] one by one gives: the
    entry-merge [Add(const QueueEntry &)] loses nothing of what
    [Add(position, velocity)] accumulated.  So the merge of the entries of
    two lists of contributions is the entry of the two lists together, and
    merging a fresh entry changes nothing. *)
Theorem AddEntry_Added (e : QueueEntry) (cs cs' : list Contribution) :
  AddEntry e (Added cs) = AddAll e cs
  /\ AddEntry (Added cs) (Added cs') = Added (cs ++ cs')
  /\ AddEntry e QueueEntry_new = e.
Proof.
  assert (H : forall e0 l, AddEntry e0 (Added l) = AddAll e0 l).
  { intros e0 l. apply QueueEntry_eq; simpl.
    - now rewrite Added_sum, AddAll_sum.
    - now rewrite Added_speed, AddAll_speed.
    - now rewrite Added_weight, AddAll_weight. }
  split; [apply H|]. split.
  - rewrite H. unfold Added, AddAll. now rewrite fold_left_app.
  - apply QueueEntry_eq; simpl; [apply Point_eq; simpl; lra | lra | lra].
Qed.

Lemma total_weight_perm (cs cs' : list Contribution) :
  Permutation cs cs' -> total_weight cs = total_weight cs'.
Proof.
  induction 1 as [|c l l' _ IH|c c' l|l l' l'' _ IH1 _ IH2]; simpl;
    [reflexivity | rewrite IH; reflexivity | lra | congruence].
Qed.

Lemma weighted_sum_perm (cs cs' : list Contribution) :
  Permutation cs cs' -> weighted_sum cs = weighted_sum cs'.
Proof.
  induction 1 as [|c l l' _ IH|c c' l|l l' l'' _ IH1 _ IH2]; simpl;
    [reflexivity | rewrite IH; reflexivity | | congruence].
  apply Point_eq; simpl; lra.
Qed.

Lemma radial_speed_sum_perm (cs cs' : list Contribution) :
  Permutation cs cs' -> radial_speed_sum cs = radial_speed_sum cs'.
Proof.
  induction 1 as [|c l l' _ IH|c c' l|l l' l'' _ IH1 _ IH2]; simpl;
    [reflexivity | rewrite IH; reflexivity | lra | congruence].
Qed.

(** X2.  In exact arithmetic the entry does not depend on the order of the
    [Add] calls: the same contributions in another order give the same
    entry, hence the same position and velocity. *)
Theorem Added_order (cs cs' : list Contribution) :
  Permutation cs cs' ->
  Added cs = Added cs'
  /\ Position (Added cs) = Position (Added cs')
  /\ Velocity (Added cs) = Velocity (Added cs').
Proof.
  intros H.
  assert (E : Added cs = Added cs').
  { apply QueueEntry_eq.
    - rewrite !Added_sum. now apply weighted_sum_perm.
    - rewrite !Added_speed. now apply radial_speed_sum_perm.
    - rewrite !Added_weight. now apply total_weight_perm. }
  now rewrite E.
Qed.

Lemma Added_order_witness :
  Permutation [ (mkPoint 3 4, mkPoint 1 0); (mkPoint 0 2, mkPoint 0 1) ]
              [ (mkPoint 0 2, mkPoint 0 1); (mkPoint 3 4, mkPoint 1 0) ]
  /\ Added [ (mkPoint 3 4, mkPoint 1 0); (mkPoint 0 2, mkPoint 0 1) ]
     = Added [ (mkPoint 0 2, mkPoint 0 1); (mkPoint 3 4, mkPoint 1 0) ].
Proof.
  assert (H : Permutation
                [ (mkPoint 3 4, mkPoint 1 0); (mkPoint 0 2, mkPoint 0 1) ]
                [ (mkPoint 0 2, mkPoint 0 1); (mkPoint 3 4, mkPoint 1 0) ])
    by apply perm_swap.
  split; [exact H | exact (proj1 (Added_order _ _ H))].
Defined.

Lemma weighted_sum_box (a b c d : R) (cs : list Contribution) :
  (forall p, In p cs -> a <= X (fst p) <= b /\ c <= Y (fst p) <= d) ->
  a * total_weight cs <= X (weighted_sum cs) <= b * total_weight cs
  /\ c * total_weight cs <= Y (weighted_sum cs) <= d * total_weight cs.
Proof.
  induction cs as [|p cs IH]; intros H; simpl; [lra|].
  destruct (H p (or_introl eq_refl)) as [Hx Hy].
  destruct IH as [IHx IHy]; [intros q Hq; apply H; now right|].
  pose proof (contribution_weight_pos (fst p)) as Hw.
  split; split; nra.
Qed.

(** X3.  In exact arithmetic ([double] taken as a real number, without
    rounding or overflow) the coalesced position lies in every box that
    holds all the contributed positions: with at least one contribution,
    if every
    position has its abscissa between [a] and [b] and its ordinate between
    [c] and [d], so has [Position()].  A single request is played where
    it was requested. *)
Theorem Position_in_box (a b c d : R) (cs : list Contribution) :
  cs <> [] ->
  (forall p, In p cs -> a <= X (fst p) <= b /\ c <= Y (fst p) <= d) ->
  a <= X (Position (Added cs)) <= b
  /\ c <= Y (Position (Added cs)) <= d.
Proof.
  intros Hne Hbox.
  assert (Hw : 0 < total_weight cs)
    by (destruct cs; [contradiction | apply total_weight_pos]).
  destruct (weighted_sum_box a b c d cs Hbox) as [Hx Hy].
  unfold Position. rewrite Added_weight, Added_sum.
  destruct (Req_dec_T (total_weight cs) 0) as [Hz|_]; [lra|].
  assert (Hi : 0 < / total_weight cs) by now apply Rinv_0_lt_compat.
  assert (Hone : total_weight cs * / total_weight cs = 1)
    by (apply Rinv_r; lra).
  unfold Point_div, Rdiv; simpl.
  set (i := / total_weight cs) in *. set (w := total_weight cs) in *.
  set (sx := X (weighted_sum cs)) in *. set (sy := Y (weighted_sum cs)) in *.
  assert (Hax : a = a * w * i) by (rewrite Rmult_assoc, Hone; lra).
  assert (Hbx : b = b * w * i) by (rewrite Rmult_assoc, Hone; lra).
  assert (Hcy : c = c * w * i) by (rewrite Rmult_assoc, Hone; lra).
  assert (Hdy : d = d * w * i) by (rewrite Rmult_assoc, Hone; lra).
  split; split.
  - rewrite Hax. apply Rmult_le_compat_r; lra.
  - rewrite Hbx. apply Rmult_le_compat_r; lra.
  - rewrite Hcy. apply Rmult_le_compat_r; lra.
  - rewrite Hdy. apply Rmult_le_compat_r; lra.
Qed.

Lemma Position_in_box_witness :
  [ (mkPoint 0 0, mkPoint 0 0); (mkPoint 3 4, mkPoint 1 0);
    (mkPoint 1 0, mkPoint 0 1) ] <> []
  /\ 0 <= X (Position
              (Added [ (mkPoint 0 0, mkPoint 0 0); (mkPoint 3 4, mkPoint 1 0);
                       (mkPoint 1 0, mkPoint 0 1) ])) <= 3
  /\ 0 <= Y (Position
              (Added [ (mkPoint 0 0, mkPoint 0 0); (mkPoint 3 4, mkPoint 1 0);
                       (mkPoint 1 0, mkPoint 0 1) ])) <= 4.
Proof.
  assert (H : [ (mkPoint 0 0, mkPoint 0 0); (mkPoint 3 4, mkPoint 1 0);
                (mkPoint 1 0, mkPoint 0 1) ] <> []) by discriminate.
  split; [exact H|].
  apply (Position_in_box 0 3 0 4 _ H).
  intros p [<-|[<-|[<-|[]]]]; simpl; lra.
Defined.

(** X4.  [Velocity()] is parallel to [Position()], and when the position
    has a length, the length of [Velocity()] is the absolute value of the
    accumulated [speed], whatever the distance of the position. *)
Theorem Velocity_length (e : QueueEntry) :
  X (Velocity e) * Y (Position e) = Y (Velocity e) * X (Position e)
  /\ (Length (Position e) <> 0 -> Length (Velocity e) = Rabs (speed e)).
Proof.
  unfold Velocity.
  destruct (Req_dec_T (Length (Position e)) 0) as [Hz|Hnz].
  - split; [lra | contradiction].
  - split; [simpl; lra|]. intros _.
    set (pos := Position e) in *.
    set (k := speed e / Length pos).
    assert (Hlen : 0 < Length pos)
      by (pose proof (Length_nonneg pos); lra).
    unfold Length at 1, Dot; simpl.
    replace (X pos * k * (X pos * k) + Y pos * k * (Y pos * k))
      with (Rsqr k * Dot pos pos) by (unfold Rsqr, Dot; lra).
    rewrite sqrt_mult by (try apply Rle_0_sqr; apply Dot_self_nonneg).
    rewrite sqrt_Rsqr_abs. fold (Length pos). unfold k, Rdiv.
    rewrite Rabs_mult, (Rabs_right (/ Length pos)).
    + rewrite Rmult_assoc, Rinv_l by lra. lra.
    + apply Rle_ge. left. now apply Rinv_0_lt_compat.
Qed.

Lemma Velocity_length_witness :
  Length (Position (mkQueueEntry (mkPoint 2 0) 2 2)) <> 0
  /\ Length (Velocity (mkQueueEntry (mkPoint 2 0) 2 2)) = Rabs 2.
Proof.
  assert (H : Length (Position (mkQueueEntry (mkPoint 2 0) 2 2)) <> 0)
    by (rewrite Position_twice, Length_unit_x; lra).
  split; [exact H|].
  exact (proj2 (Velocity_length (mkQueueEntry (mkPoint 2 0) 2 2)) H).
Defined.

(** ** The volume *)

(** X5.  [SetVolume] stores the level clamped to the range from 0 to 1,
    which [Volume] returns, while the device is given the level as it
    came; a level in the range is stored as it is, and after a level of 0
    or less every [Play] is ignored. *)
Theorem SetVolume_clamps (level : R) (st : Audio) :
  0 <= Volume (SetVolume level st) <= 1
  /\ (0 <= level <= 1 -> Volume (SetVolume level st) = level)
  /\ (1 <= level -> Volume (SetVolume level st) = 1)
  /\ (level <= 0 ->
      Volume (SetVolume level st) = 0
      /\ forall tid sound position velocity,
           Play tid sound position velocity (SetVolume level st)
           = SetVolume level st)
  /\ trace (SetVolume level st) = trace st ++ [alListenerf_GAIN level].
Proof.
  assert (Hv : Volume (SetVolume level st) = Rmin 1 (Rmax 0 level))
    by reflexivity.
  rewrite Hv.
  split; [|split; [|split; [|split]]].
  - unfold Rmin, Rmax.
    destruct (Rle_dec 0 level), (Rle_dec 1 level), (Rle_dec 1 0); lra.
  - intros [H0 H1]. rewrite Rmax_right by lra. now rewrite Rmin_right by lra.
  - intros H1. rewrite Rmax_right by lra. now rewrite Rmin_left by lra.
  - intros H0. assert (Hz : Rmin 1 (Rmax 0 level) = 0).
    { rewrite Rmax_left by lra. now rewrite Rmin_right by lra. }
    split; [exact Hz|]. intros. apply Play_muted. exact Hz.
  - reflexivity.
Qed.

Lemma SetVolume_clamps_witness :
  0 <= 1 / 2 <= 1
  /\ Volume (SetVolume (1 / 2) example_playing) = 1 / 2
  /\ 1 <= 3
  /\ Volume (SetVolume 3 example_playing) = 1
  /\ -1 <= 0
  /\ Volume (SetVolume (-1) example_playing) = 0
  /\ Play 0%nat 7%N (mkPoint 1 0) (mkPoint 0 0)
       (SetVolume (-1) example_playing)
     = SetVolume (-1) example_playing.
Proof.
  assert (H1 : 0 <= 1 / 2 <= 1) by lra.
  assert (H2 : 1 <= 3) by lra.
  assert (H3 : -1 <= 0) by lra.
  destruct (SetVolume_clamps (1 / 2) example_playing) as (_ & Hin & _).
  destruct (SetVolume_clamps 3 example_playing) as (_ & _ & Hhigh & _).
  destruct (SetVolume_clamps (-1) example_playing) as (_ & _ & _ & Hlow & _).
  destruct (Hlow H3) as [Hz Hplay].
  split; [exact H1|]. split; [exact (Hin H1)|].
  split; [exact H2|]. split; [exact (Hhigh H2)|].
  split; [exact H3|]. split; [exact Hz | apply Hplay].
Defined.

(** ** Play from the main thread *)

Lemma Play_main (sound : SoundPtr) (position velocity : Point) (st : Audio) :
  sound <> 0%N -> Buffer (heap st sound) <> 0%N -> volume st <> 0 ->
  Play (mainThreadID st) sound position velocity st
  = set_queue
      (queue_at sound
         (fun e =>
            Add e (Point_sub position (listener st))
              (Point_sub velocity (listenerVelocity st)))
         (queue st)) st.
Proof.
  intros Hs Hb Hv. unfold Play, is_zero.
  apply N.eqb_neq in Hs, Hb. rewrite Hs, Hb.
  destruct (Req_dec_T (volume st) 0) as [|_]; [contradiction|]. simpl.
  now rewrite Nat.eqb_refl.
Qed.

Lemma map_insert_length {K V : Type} (ltb : K -> K -> bool) (k : K) (v : V)
  (m : list (K * V)) :
  List.length (map_insert ltb k v m) = S (List.length m).
Proof.
  induction m as [|[k' v'] m IH]; simpl; [reflexivity|].
  destruct (ltb k k'); simpl; [reflexivity | now rewrite IH].
Qed.

(** X6.  A [Play] from the main thread of a loaded sound, at a volume that
    is not zero, folds the request, relative to the listener, into the
    entry of the sound in [queue], and into a fresh entry when the sound
    has none; the entries of the other sounds, [deferred], the sources
    and the device are left alone.  A sound that has an entry gets no
    second one, so two requests for one sound in a frame share one entry
    that holds both. *)
Theorem Play_main_coalesces (sound : SoundPtr) (position velocity : Point)
  (st : Audio) :
  sound <> 0%N -> Buffer (heap st sound) <> 0%N -> volume st <> 0 ->
  queue_find sound (queue (Play (mainThreadID st) sound position velocity st))
  = Some
      (Add (queue_get sound (queue st))
         (Point_sub position (listener st))
         (Point_sub velocity (listenerVelocity st)))
  /\ (forall sound', sound' <> sound ->
        queue_find sound'
          (queue (Play (mainThreadID st) sound position velocity st))
        = queue_find sound' (queue st))
  /\ deferred (Play (mainThreadID st) sound position velocity st)
     = deferred st
  /\ sources (Play (mainThreadID st) sound position velocity st) = sources st
  /\ trace (Play (mainThreadID st) sound position velocity st) = trace st
  /\ (queue_find sound (queue st) <> None ->
      map fst (queue (Play (mainThreadID st) sound position velocity st))
      = map fst (queue st))
  /\ (queue_find sound (queue st) = None ->
      List.length
        (queue (Play (mainThreadID st) sound position velocity st))
      = S (List.length (queue st)))
  /\ (forall position' velocity',
        queue_find sound
          (queue
             (Play (mainThreadID st) sound position' velocity'
                (Play (mainThreadID st) sound position velocity st)))
        = Some
            (Add
               (Add (queue_get sound (queue st))
                  (Point_sub position (listener st))
                  (Point_sub velocity (listenerVelocity st)))
               (Point_sub position' (listener st))
               (Point_sub velocity' (listenerVelocity st)))).
Proof.
  intros Hs Hb Hv. rewrite (Play_main sound position velocity st Hs Hb Hv).
  cbn [queue deferred sources trace set_queue].
  split; [apply queue_find_at_same|].
  split; [intros sound' Hne; apply queue_find_at_other; congruence|].
  split; [reflexivity|]. split; [reflexivity|]. split; [reflexivity|].
  split; [|split].
  - intros Hfind. unfold queue_at, map_at. unfold queue_find in Hfind.
    destruct (map_find N.eqb sound (queue st)); [|contradiction].
    apply map_modify_keys.
  - intros Hfind. unfold queue_at, map_at. unfold queue_find in Hfind.
    rewrite Hfind. apply map_insert_length.
  - intros position' velocity'.
    set (st1 := set_queue
                  (queue_at sound
                     (fun e =>
                        Add e (Point_sub position (listener st))
                          (Point_sub velocity (listenerVelocity st)))
                     (queue st)) st).
    change (mainThreadID st) with (mainThreadID st1).
    rewrite (Play_main sound position' velocity' st1 Hs Hb Hv).
    cbn [queue set_queue st1 listener listenerVelocity].
    rewrite queue_find_at_same. unfold queue_get at 1, map_get.
    fold (queue_find sound
            (queue_at sound
               (fun e =>
                  Add e (Point_sub position (listener st))
                    (Point_sub velocity (listenerVelocity st)))
               (queue st))).
    now rewrite queue_find_at_same.
Qed.

Lemma Play_main_coalesces_witness :
  7%N <> 0%N
  /\ Buffer (heap example_requests 7%N) <> 0%N
  /\ volume example_requests <> 0
  /\ queue_find 7%N (queue example_requests) = None
  /\ List.length
       (queue (Play 0%nat 7%N (mkPoint 1 0) (mkPoint 0 0) example_requests))
     = 4%nat
  /\ queue_find 5%N (queue example_requests) <> None
  /\ map fst
       (queue (Play 0%nat 5%N (mkPoint 1 0) (mkPoint 0 0) example_requests))
     = [5%N; 8%N; 9%N].
Proof.
  assert (H7 : 7%N <> 0%N) by discriminate.
  assert (H5 : 5%N <> 0%N) by discriminate.
  assert (Hb7 : Buffer (heap example_requests 7%N) <> 0%N) by discriminate.
  assert (Hb5 : Buffer (heap example_requests 5%N) <> 0%N) by discriminate.
  assert (Hv : volume example_requests <> 0) by (simpl; lra).
  assert (Hn : queue_find 7%N (queue example_requests) = None)
    by reflexivity.
  assert (Hp : queue_find 5%N (queue example_requests) <> None)
    by discriminate.
  destruct (Play_main_coalesces 7%N (mkPoint 1 0) (mkPoint 0 0)
              example_requests H7 Hb7 Hv)
    as (_ & _ & _ & _ & _ & _ & Hnew & _).
  destruct (Play_main_coalesces 5%N (mkPoint 1 0) (mkPoint 0 0)
              example_requests H5 Hb5 Hv)
    as (_ & _ & _ & _ & _ & Hold & _).
  split; [exact H7|]. split; [exact Hb7|]. split; [exact Hv|].
  split; [exact Hn|]. split; [exact (Hnew Hn)|].
  split; [exact Hp | exact (Hold Hp)].
Defined.

(** X7.  Only the position and the velocity relative to the listener
    count: a request made after the listener and the source have both
    been moved by [shift], and their velocities changed by [drift], leaves
    the same [queue] and the same [deferred] as the request made
    before. *)
Theorem Play_relative (tid : ThreadId) (sound : SoundPtr)
  (position velocity shift drift listenerPosition listenerSpeed : Point)
  (st : Audio) :
  queue
    (Play tid sound (Point_add position shift) (Point_add velocity drift)
       (Update (Point_add listenerPosition shift)
          (Point_add listenerSpeed drift) st))
  = queue
      (Play tid sound position velocity
         (Update listenerPosition listenerSpeed st))
  /\ deferred
       (Play tid sound (Point_add position shift) (Point_add velocity drift)
          (Update (Point_add listenerPosition shift)
             (Point_add listenerSpeed drift) st))
     = deferred
         (Play tid sound position velocity
            (Update listenerPosition listenerSpeed st)).
Proof.
  assert (Hsub : forall a b c : Point,
            Point_sub (Point_add a c) (Point_add b c) = Point_sub a b)
    by (intros; apply Point_eq; simpl; lra).
  unfold Play.
  cbn [Update heap volume mainThreadID listener listenerVelocity queue
       deferred emit set_deferred set_queue set_listener].
  rewrite !Hsub.
  destruct ((sound =? 0)%N || (Buffer (heap st sound) =? 0)%N
            || is_zero (volume st)); [split; reflexivity|].
  destruct (tid =? mainThreadID st)%nat; split; reflexivity.
Qed.

(** X8.  [Play(sound)], without a position, plays the sound at the
    listener: for a loaded sound without an entry yet, the entry made has
    weight 1 and its position and velocity are zero, wherever the
    listener is and however it moves. *)
Theorem Play_here_at_listener (sound : SoundPtr) (st : Audio) :
  sound <> 0%N -> Buffer (heap st sound) <> 0%N -> volume st <> 0 ->
  queue_find sound (queue st) = None ->
  weight (queue_get sound (queue (Play_here (mainThreadID st) sound st))) = 1
  /\ Position
       (queue_get sound (queue (Play_here (mainThreadID st) sound st)))
     = Point_zero
  /\ Velocity
       (queue_get sound (queue (Play_here (mainThreadID st) sound st)))
     = Point_zero.
Proof.
  intros Hs Hb Hv Hnone. unfold Play_here.
  rewrite (Play_main sound _ _ st Hs Hb Hv). cbn [queue set_queue].
  unfold queue_get at 1 2 3, map_get.
  fold (queue_find sound
          (queue_at sound
             (fun e =>
                Add e (Point_sub (listener st) (listener st))
                  (Point_sub Point_zero (listenerVelocity st)))
             (queue st))).
  rewrite queue_find_at_same. unfold queue_get, map_get.
  unfold queue_find in Hnone. rewrite Hnone.
  rewrite Add_near by (unfold Dot; simpl; nra).
  assert (Hpos : Position
                   (mkQueueEntry
                      (Point_add (sum QueueEntry_new)
                         (Point_sub (listener st) (listener st)))
                      (speed QueueEntry_new
                       + Dot (Point_sub (listener st) (listener st))
                           (Point_sub Point_zero (listenerVelocity st)))
                      (weight QueueEntry_new + 1))
                 = Point_zero).
  { unfold Position; simpl.
    destruct (Req_dec_T (0 + 1) 0) as [H|_]; [lra|].
    apply Point_eq; simpl; lra. }
  split; [simpl; lra|]. split; [exact Hpos|].
  unfold Velocity. rewrite Hpos.
  assert (Hlen : Length Point_zero = 0).
  { unfold Length, Dot; simpl. replace (0 * 0 + 0 * 0) with 0 by lra.
    apply sqrt_0. }
  rewrite Hlen. destruct (Req_dec_T 0 0) as [_|H]; [reflexivity|lra].
Qed.

Lemma Play_here_at_listener_witness :
  7%N <> 0%N
  /\ Buffer (heap example_requests 7%N) <> 0%N
  /\ volume example_requests <> 0
  /\ queue_find 7%N (queue example_requests) = None
  /\ Position (queue_get 7%N (queue (Play_here 0%nat 7%N example_requests)))
     = Point_zero.
Proof.
  assert (H7 : 7%N <> 0%N) by discriminate.
  assert (Hb7 : Buffer (heap example_requests 7%N) <> 0%N) by discriminate.
  assert (Hv : volume example_requests <> 0) by (simpl; lra).
  assert (Hn : queue_find 7%N (queue example_requests) = None)
    by reflexivity.
  split; [exact H7|]. split; [exact Hb7|]. split; [exact Hv|].
  split; [exact Hn|].
  exact (proj1 (proj2 (Play_here_at_listener 7%N example_requests
                         H7 Hb7 Hv Hn))).
Defined.

(** ** Requests from two threads *)

Lemma AddEntry_AddAll (e : QueueEntry) (cs : list Contribution) :
  AddEntry e (Added cs) = AddAll e cs.
Proof.
  apply QueueEntry_eq; simpl.
  - now rewrite Added_sum, AddAll_sum.
  - now rewrite Added_speed, AddAll_speed.
  - now rewrite Added_weight, AddAll_weight.
Qed.

Lemma Play_listener (tid : ThreadId) (sound : SoundPtr)
  (position velocity : Point) (st : Audio) :
  listener (Play tid sound position velocity st) = listener st
  /\ listenerVelocity (Play tid sound position velocity st)
     = listenerVelocity st
  /\ mainThreadID (Play tid sound position velocity st) = mainThreadID st
  /\ heap (Play tid sound position velocity st) = heap st
  /\ volume (Play tid sound position velocity st) = volume st.
Proof.
  unfold Play.
  destruct ((sound =? 0)%N || (Buffer (heap st sound) =? 0)%N
            || is_zero (volume st)); [now repeat split|].
  now destruct (tid =? mainThreadID st)%nat.
Qed.

(** X9.  Requests for one sound made in one frame by the main thread and
    by another thread end, after [Update], in one entry of [queue], which
    is the entry of the two contributions, each relative to the listener
    at the time of its [Play], made together: its position is their
    weighted average. *)
Theorem requests_coalesce_across_threads (tid : ThreadId) (sound : SoundPtr)
  (p1 v1 p2 v2 listenerPosition listenerSpeed : Point) (st : Audio) :
  sound <> 0%N -> Buffer (heap st sound) <> 0%N -> volume st <> 0 ->
  tid <> mainThreadID st ->
  queue_ok (deferred st) ->
  queue_find sound (queue st) = None ->
  queue_find sound (deferred st) = None ->
  queue_find sound
    (queue
       (Update listenerPosition listenerSpeed
          (Play tid sound p2 v2
             (Play (mainThreadID st) sound p1 v1 st))))
  = Some
      (Added
         [ (Point_sub p1 (listener st), Point_sub v1 (listenerVelocity st));
           (Point_sub p2 (listener st), Point_sub v2 (listenerVelocity st)) ])
  /\ Position
       (queue_get sound
          (queue
             (Update listenerPosition listenerSpeed
                (Play tid sound p2 v2
                   (Play (mainThreadID st) sound p1 v1 st)))))
     = weighted_average
         [ (Point_sub p1 (listener st), Point_sub v1 (listenerVelocity st));
           (Point_sub p2 (listener st), Point_sub v2 (listenerVelocity st)) ].
Proof.
  intros Hs Hb Hv Htid Hok Hq Hd.
  set (c1 := (Point_sub p1 (listener st),
              Point_sub v1 (listenerVelocity st))).
  set (c2 := (Point_sub p2 (listener st),
              Point_sub v2 (listenerVelocity st))).
  assert (Hfind :
    queue_find sound
      (queue
         (Update listenerPosition listenerSpeed
            (Play tid sound p2 v2
               (Play (mainThreadID st) sound p1 v1 st))))
    = Some (Added [c1; c2])).
  { rewrite (Play_main sound p1 v1 st Hs Hb Hv).
    set (st1 := set_queue _ st).
    rewrite (Play_deferred tid sound p2 v2 st1) by assumption.
    unfold Update. cbn [queue deferred emit set_deferred set_queue
                        set_listener].
    rewrite merge_deferred_find by (now apply queue_at_ok).
    rewrite queue_find_at_same.
    cbn [st1 queue deferred set_queue listener listenerVelocity].
    unfold queue_get at 1, map_get.
    fold (queue_find sound
            (queue_at sound
               (fun e =>
                  Add e (Point_sub p1 (listener st))
                    (Point_sub v1 (listenerVelocity st)))
               (queue st))).
    rewrite queue_find_at_same. unfold queue_get, map_get.
    unfold queue_find in Hq, Hd. rewrite Hq, Hd. f_equal.
    change (Add QueueEntry_new (Point_sub p1 (listener st))
              (Point_sub v1 (listenerVelocity st)))
      with (Added [c1]).
    change (Add QueueEntry_new (Point_sub p2 (listener st))
              (Point_sub v2 (listenerVelocity st)))
      with (Added [c2]).
    rewrite AddEntry_AddAll. reflexivity. }
  split; [exact Hfind|].
  unfold queue_get, map_get. unfold queue_find in Hfind. rewrite Hfind.
  unfold Position, weighted_average. rewrite Added_weight, Added_sum.
  destruct (Req_dec_T (total_weight [c1; c2]) 0) as [Hz|_];
    [|reflexivity].
  exfalso. revert Hz. apply Rgt_not_eq, total_weight_pos.
Qed.

Lemma requests_coalesce_across_threads_witness :
  queue_find 7%N
    (queue
       (Update (mkPoint 1 1) (mkPoint 0 0)
          (Play 1%nat 7%N (mkPoint 3 4) (mkPoint 1 0)
             (Play 0%nat 7%N (mkPoint 0 2) (mkPoint 0 1)
                example_requests))))
  = Some
      (Added
         [ (Point_sub (mkPoint 0 2) Point_zero,
            Point_sub (mkPoint 0 1) Point_zero);
           (Point_sub (mkPoint 3 4) Point_zero,
            Point_sub (mkPoint 1 0) Point_zero) ]).
Proof.
  assert (H7 : 7%N <> 0%N) by discriminate.
  assert (Hb7 : Buffer (heap example_requests 7%N) <> 0%N) by discriminate.
  assert (Hv : volume example_requests <> 0) by (simpl; lra).
  assert (Ht : 1%nat <> mainThreadID example_requests) by discriminate.
  assert (Hok : queue_ok (deferred example_requests)) by constructor.
  exact (proj1 (requests_coalesce_across_threads 1%nat 7%N
                  (mkPoint 0 2) (mkPoint 0 1) (mkPoint 3 4) (mkPoint 1 0)
                  (mkPoint 1 1) (mkPoint 0 0) example_requests
                  H7 Hb7 Hv Ht Hok eq_refl eq_refl)).
Defined.

(** ** Step: what the pool of sources keeps *)

(** One turn of the first loop moves a source to [newSources] or its
    identifier to [recycledSources], and leaves the rest alone. *)
Lemma advance_source_moves (acc : list Source) (st : Audio) (s : Source) :
  (fst (advance_source (acc, st) s) = acc ++ [s]
   /\ recycledSources (snd (advance_source (acc, st) s))
      = recycledSources st
   \/ fst (advance_source (acc, st) s) = acc
      /\ recycledSources (snd (advance_source (acc, st) s))
         = recycledSources st ++ [ID s])
  /\ maxSources (snd (advance_source (acc, st) s)) = maxSources st
  /\ al_pending (snd (advance_source (acc, st) s)) = al_pending st
  /\ deferred (snd (advance_source (acc, st) s)) = deferred st
  /\ heap (snd (advance_source (acc, st) s)) = heap st
  /\ volume (snd (advance_source (acc, st) s)) = volume st
  /\ listener (snd (advance_source (acc, st) s)) = listener st
  /\ listenerVelocity (snd (advance_source (acc, st) s))
     = listenerVelocity st
  /\ sounds (snd (advance_source (acc, st) s)) = sounds st
  /\ loadQueue (snd (advance_source (acc, st) s)) = loadQueue st
  /\ mainThreadID (snd (advance_source (acc, st) s)) = mainThreadID st.
Proof.
  unfold advance_source.
  destruct (IsLooping (heap st (GetSound s))).
  - destruct (queue_find (GetSound s) (queue st)); simpl; tauto.
  - destruct (al_playing st (ID s)); simpl; tauto.
Qed.

Lemma advance_fold_moves (l : list Source) :
  forall (acc : list Source) (st : Audio),
    Permutation
      (map ID (fst (fold_left advance_source l (acc, st)))
       ++ recycledSources (snd (fold_left advance_source l (acc, st))))
      (map ID acc ++ map ID l ++ recycledSources st)
    /\ maxSources (snd (fold_left advance_source l (acc, st)))
       = maxSources st
    /\ al_pending (snd (fold_left advance_source l (acc, st)))
       = al_pending st
    /\ deferred (snd (fold_left advance_source l (acc, st))) = deferred st
    /\ heap (snd (fold_left advance_source l (acc, st))) = heap st
    /\ volume (snd (fold_left advance_source l (acc, st))) = volume st
    /\ listener (snd (fold_left advance_source l (acc, st))) = listener st
    /\ listenerVelocity (snd (fold_left advance_source l (acc, st)))
       = listenerVelocity st
    /\ sounds (snd (fold_left advance_source l (acc, st))) = sounds st
    /\ loadQueue (snd (fold_left advance_source l (acc, st)))
       = loadQueue st
    /\ mainThreadID (snd (fold_left advance_source l (acc, st)))
       = mainThreadID st.
Proof.
  induction l as [|s l IH]; intros acc st; cbn [fold_left].
  - simpl. repeat split; reflexivity.
  - destruct (advance_source_moves acc st s)
      as (Hmove & Hm & Hp & Hd & Hh & Hv & Hl & Hlv & Hs & Hq & Ht).
    destruct (advance_source (acc, st) s) as [acc' st'] eqn:E.
    cbn [fst snd] in *.
    destruct (IH acc' st')
      as (IHperm & IHm & IHp & IHd & IHh & IHv & IHl & IHlv & IHs & IHq
          & IHt).
    split; [|repeat split; congruence].
    rewrite IHperm. cbn [map].
    destruct Hmove as [[-> ->]|[-> ->]].
    + rewrite map_app. cbn [map]. rewrite <- app_assoc. reflexivity.
    + apply Permutation_app_head.
      rewrite app_assoc.
      rewrite (Permutation_app_comm (map ID l ++ recycledSources st)).
      reflexivity.
Qed.

Lemma advance_moves (st : Audio) :
  Permutation (map ID (sources (advance st)) ++ recycledSources (advance st))
    (map ID (sources st) ++ recycledSources st)
  /\ maxSources (advance st) = maxSources st
  /\ al_pending (advance st) = al_pending st
  /\ deferred (advance st) = deferred st
  /\ heap (advance st) = heap st
  /\ volume (advance st) = volume st
  /\ listener (advance st) = listener st
  /\ listenerVelocity (advance st) = listenerVelocity st
  /\ sounds (advance st) = sounds st
  /\ loadQueue (advance st) = loadQueue st
  /\ mainThreadID (advance st) = mainThreadID st.
Proof.
  unfold advance. pose proof (advance_fold_moves (sources st) [] st) as H.
  destruct (fold_left advance_source (sources st) ([], st)) as [acc st'].
  cbn [fst snd map app] in H. exact H.
Qed.

Lemma allocate_frame (entries : SoundQueue) :
  forall st,
    deferred (allocate entries st) = deferred st
    /\ heap (allocate entries st) = heap st
    /\ volume (allocate entries st) = volume st
    /\ listener (allocate entries st) = listener st
    /\ listenerVelocity (allocate entries st) = listenerVelocity st
    /\ sounds (allocate entries st) = sounds st
    /\ loadQueue (allocate entries st) = loadQueue st
    /\ mainThreadID (allocate entries st) = mainThreadID st
    /\ al_playing (allocate entries st) = al_playing st.
Proof.
  induction entries as [|[sound e] rest IH]; intros st; cbn [allocate].
  - repeat split.
  - destruct (recycledSources st) as [|id0 ids].
    + destruct (maxSources st <=? N.of_nat (List.length (sources st)))%N;
        [repeat split|].
      destruct (hd 0%N (al_pending st) =? 0)%N; [repeat split|].
      exact (IH (start_source sound e (hd 0%N (al_pending st))
                   (emit [alGenSources (hd 0%N (al_pending st))]
                      (set_al_pending (tl (al_pending st)) st)))).
    + exact (IH (start_source sound e (last (id0 :: ids) 0%N)
                   (set_recycledSources (removelast (id0 :: ids)) st))).
Qed.

(** X10.  [Step] neither loses nor makes up a source identifier: the
    identifiers of the active sources, the recycled ones and the ones,
    other than 0, that the device is still to hand out are the same
    after [Step] as before, each as many times; they only change
    places. *)
Theorem Step_conserves_identifiers (tid : ThreadId) (st : Audio) :
  Permutation (all_ids (Step tid st)) (all_ids st).
Proof.
  unfold Step.
  destruct (tid =? mainThreadID st)%nat; [|reflexivity]. cbn [negb].
  change (all_ids (set_queue [] (allocate (queue (advance st)) (advance st))))
    with (all_ids (allocate (queue (advance st)) (advance st))).
  rewrite allocate_ids. unfold all_ids.
  destruct (advance_moves st) as (Hperm & _ & Hpend & _).
  rewrite Hpend, !app_assoc. now apply Permutation_app_tail.
Qed.

Lemma allocate_pool (entries : SoundQueue) :
  forall st,
    (maxSources st < 2 ^ 32)%N -> pool_bounded st ->
    pool_bounded (allocate entries st).
Proof.
  unfold pool_bounded.
  induction entries as [|[sound e] rest IH]; intros st Hcap Hpool;
    cbn [allocate]; [exact Hpool|].
  destruct (recycledSources st) as [|id0 ids] eqn:Erec.
  - destruct (N.leb_spec (maxSources st)
                (N.of_nat (List.length (sources st)))) as [Hle|Hlt];
      [now rewrite Erec|].
    destruct (hd 0%N (al_pending st) =? 0)%N.
    + cbn [emit set_al_pending set_maxSources sources recycledSources
           maxSources].
      rewrite (to_unsigned_small _ _ Hlt Hcap), Erec. simpl. lia.
    + apply IH; [exact Hcap|].
      cbn [start_source emit set_sources set_al_pending sources
           recycledSources maxSources].
      rewrite Erec, length_app. simpl. lia.
  - apply IH; [exact Hcap|].
    cbn [start_source emit set_sources set_recycledSources sources
         recycledSources maxSources].
    rewrite length_app, removelast_length.
    cbn [List.length] in *. lia.
Qed.

(** X11.  The scheduler never holds more sources than the cap: when the
    active and the recycled sources together are no more than
    [maxSources], they still are after [Step], by whatever thread, with
    the cap that [Step] leaves; so the active sources alone are no more
    than the cap either. *)
Theorem Step_pool_bounded (tid : ThreadId) (st : Audio) :
  (maxSources st < 2 ^ 32)%N -> pool_bounded st ->
  pool_bounded (Step tid st)
  /\ (N.of_nat (List.length (sources (Step tid st)))
      <= maxSources (Step tid st))%N.
Proof.
  intros Hcap Hpool.
  assert (H : pool_bounded (Step tid st)).
  { unfold Step.
    destruct (tid =? mainThreadID st)%nat; [|exact Hpool]. cbn [negb].
    destruct (advance_moves st) as (Hperm & Hmax & _).
    assert (Hadv : pool_bounded (advance st)).
    { unfold pool_bounded in *. rewrite Hmax.
      apply Permutation_length in Hperm.
      rewrite !length_app, !length_map in Hperm. now rewrite Hperm. }
    assert (Hcap' : (maxSources (advance st) < 2 ^ 32)%N)
      by now rewrite Hmax.
    exact (allocate_pool (queue (advance st)) (advance st) Hcap' Hadv). }
  split; [exact H|]. unfold pool_bounded in H. lia.
Qed.

Lemma Step_pool_bounded_witness :
  (maxSources example_playing < 2 ^ 32)%N
  /\ pool_bounded example_playing
  /\ pool_bounded (Step 0%nat example_playing).
Proof.
  assert (Hcap : (maxSources example_playing < 2 ^ 32)%N) by reflexivity.
  assert (Hpool : pool_bounded example_playing)
    by (unfold pool_bounded; simpl; lia).
  split; [exact Hcap|]. split; [exact Hpool|].
  exact (proj1 (Step_pool_bounded 0%nat example_playing Hcap Hpool)).
Defined.

(** X12.  After [Step] no looping sound is played by two sources at once,
    if none was before and [queue] binds each sound once. *)
Theorem Step_looping_unique (tid : ThreadId) (st : Audio) :
  sources_ok st -> queue_ok (queue st) -> sources_ok (Step tid st).
Proof. apply Step_sources_ok. Qed.

Lemma Step_looping_unique_witness :
  sources_ok example_playing
  /\ queue_ok (queue example_playing)
  /\ sources_ok (Step 0%nat example_playing).
Proof.
  assert (Hq : queue_ok (queue example_playing)).
  { unfold queue_ok. simpl.
    repeat (constructor; [simpl; intuition discriminate|]). constructor. }
  split; [exact example_playing_ok|]. split; [exact Hq|].
  exact (Step_looping_unique 0%nat example_playing example_playing_ok Hq).
Defined.

(** X13.  [Step] leaves alone what is not its business: the requests that
    wait in [deferred] for the next [Update], the listener, the volume,
    the table of sounds and the list of paths to load are the same after
    [Step], by whatever thread. *)
Theorem Step_leaves_alone (tid : ThreadId) (st : Audio) :
  deferred (Step tid st) = deferred st
  /\ listener (Step tid st) = listener st
  /\ listenerVelocity (Step tid st) = listenerVelocity st
  /\ volume (Step tid st) = volume st
  /\ sounds (Step tid st) = sounds st
  /\ loadQueue (Step tid st) = loadQueue st
  /\ mainThreadID (Step tid st) = mainThreadID st.
Proof.
  unfold Step.
  destruct (tid =? mainThreadID st)%nat; [|repeat split]. cbn [negb].
  destruct (advance_moves st)
    as (_ & _ & _ & Hd & _ & Hv & Hl & Hlv & Hs & Hq & Ht).
  destruct (allocate_frame (queue (advance st)) (advance st))
    as (Ad & _ & Av & Al & Alv & As & Aq & At & _).
  cbn [set_queue deferred listener listenerVelocity volume sounds loadQueue
       mainThreadID].
  repeat split; congruence.
Qed.

(** X14.  While the recycled identifiers suffice, no request is dropped
    and the device is not asked: when the second loop of [Step] has no
    more entries to serve than there are recycled identifiers, every
    entry gets a source, the identifier recycled last being used first,
    the identifiers not used stay recycled, and the cap and what the
    device has to hand out are left alone. *)
Theorem allocate_reuses_recycled (entries : SoundQueue) :
  forall st,
    (List.length entries <= List.length (recycledSources st))%nat ->
    sources (allocate entries st)
    = sources st
      ++ map (fun it => mkSource (fst (fst it)) (snd it))
           (combine entries (rev (recycledSources st)))
    /\ recycledSources (allocate entries st)
       = firstn (List.length (recycledSources st) - List.length entries)
           (recycledSources st)
    /\ maxSources (allocate entries st) = maxSources st
    /\ al_pending (allocate entries st) = al_pending st.
Proof.
  induction entries as [|[sound e] rest IH]; intros st Hlen; cbn [allocate].
  - simpl. rewrite app_nil_r, Nat.sub_0_r, firstn_all. repeat split.
  - destruct (recycledSources st) as [|id0 ids] eqn:Erec;
      [simpl in Hlen; lia|].
    assert (Hne : id0 :: ids <> []) by discriminate.
    pose proof (app_removelast_last 0%N Hne) as Hsplit.
    set (front := removelast (id0 :: ids)) in *.
    set (id := last (id0 :: ids) 0%N) in *.
    assert (Hfront : List.length (id0 :: ids) = S (List.length front))
      by (rewrite Hsplit, length_app; simpl; lia).
    destruct (IH (start_source sound e id (set_recycledSources front st)))
      as (Hs & Hr & Hm & Hp).
    { cbn [start_source emit set_sources set_recycledSources
           recycledSources]. rewrite Hfront in Hlen. simpl in Hlen. lia. }
    cbn [start_source emit set_sources set_recycledSources sources
         recycledSources maxSources al_pending] in Hs, Hr, Hm, Hp.
    rewrite Hs, Hr, Hm, Hp. repeat split.
    + rewrite Hsplit, rev_app_distr. cbn [rev app combine map fst snd].
      rewrite <- app_assoc. reflexivity.
    + rewrite Hfront. cbn [List.length Nat.sub]. rewrite Hsplit.
      rewrite firstn_app.
      replace (List.length front - List.length rest - List.length front)%nat
        with 0%nat by lia.
      cbn [firstn]. now rewrite app_nil_r.
Qed.

Lemma allocate_reuses_recycled_witness :
  (List.length (queue (advance example_playing))
   <= List.length (recycledSources (advance example_playing)))%nat
  /\ sources (allocate (queue (advance example_playing))
                (advance example_playing))
     = [ mkSource 7%N 1%N; mkSource 8%N 2%N; mkSource 5%N 3%N ].
Proof.
  assert (H : (List.length (queue (advance example_playing))
               <= List.length (recycledSources (advance example_playing)))%nat)
    by (simpl; lia).
  split; [exact H|].
  rewrite (proj1 (allocate_reuses_recycled
                    (queue (advance example_playing))
                    (advance example_playing) H)).
  reflexivity.
Defined.

(** ** Quit *)

Lemma deleted_sources_app (l1 l2 : list Teardown) :
  deleted_sources (l1 ++ l2) = deleted_sources l1 ++ deleted_sources l2.
Proof. unfold deleted_sources. apply flat_map_app. Qed.

Lemma deleted_buffers_app (l1 l2 : list Teardown) :
  deleted_buffers (l1 ++ l2) = deleted_buffers l1 ++ deleted_buffers l2.
Proof. unfold deleted_buffers. apply flat_map_app. Qed.

(** X15.  [Quit], before it joins the thread of [Load], deletes every
    source identifier the scheduler holds,
    active or recycled, once, in that order, so no identifier is deleted
    twice when they are all different; it stops each active source right
    before deleting it; it deletes the buffer of every sound of the table,
    loaded or not; and it empties the sources, the recycled identifiers
    and the table, while the requests in [queue] and [deferred] stay. *)
Theorem Quit_releases (st : Audio) :
  deleted_sources (snd (Quit_release st))
  = map ID (sources st) ++ recycledSources st
  /\ (ids_ok st -> NoDup (deleted_sources (snd (Quit_release st))))
  /\ (forall pre s post,
        sources st = pre ++ s :: post ->
        exists before after,
          snd (Quit_release st)
          = before ++ Quit_alSourceStop (ID s) :: alDeleteSources (ID s)
                      :: after)
  /\ deleted_buffers (snd (Quit_release st))
     = map (fun it => Buffer (snd it)) (sounds st)
  /\ sources (fst (Quit_release st)) = []
  /\ recycledSources (fst (Quit_release st)) = []
  /\ sounds (fst (Quit_release st)) = []
  /\ queue (fst (Quit_release st)) = queue st
  /\ deferred (fst (Quit_release st)) = deferred st.
Proof.
  assert (Hsrc : forall l : list Source,
            deleted_sources
              (flat_map (fun source => [ Quit_alSourceStop (ID source);
                                         alDeleteSources (ID source) ]) l)
            = map ID l
            /\ deleted_buffers
                 (flat_map (fun source => [ Quit_alSourceStop (ID source);
                                            alDeleteSources (ID source) ]) l)
               = []).
  { induction l as [|s l [IH1 IH2]]; simpl; [now split|].
    split; [now f_equal | exact IH2]. }
  assert (Hrec : forall l : list N,
            deleted_sources (map alDeleteSources l) = l
            /\ deleted_buffers (map alDeleteSources l) = []).
  { induction l as [|id l [IH1 IH2]]; simpl; [now split|].
    split; [now f_equal | exact IH2]. }
  assert (Hbuf : forall t : list (string * Sound),
            deleted_sources
              (map (fun it => alDeleteBuffers (Buffer (snd it))) t) = []
            /\ deleted_buffers
                 (map (fun it => alDeleteBuffers (Buffer (snd it))) t)
               = map (fun it => Buffer (snd it)) t).
  { induction t as [|it t [IH1 IH2]]; simpl; [now split|].
    split; [exact IH1 | now f_equal]. }
  assert (Hdel : deleted_sources (snd (Quit_release st))
                 = map ID (sources st) ++ recycledSources st).
  { unfold Quit_release. cbn [snd]. rewrite !deleted_sources_app.
    rewrite (proj1 (Hsrc _)), (proj1 (Hrec _)), (proj1 (Hbuf _)).
    now rewrite app_nil_r. }
  split; [exact Hdel|]. split; [intros H; rewrite Hdel; exact H|].
  split; [|split; [|repeat split]].
  - intros pre s post Hsplit. unfold Quit_release. cbn [snd]. rewrite Hsplit.
    rewrite flat_map_app. cbn [flat_map]. rewrite <- !app_assoc.
    cbn [app]. eauto.
  - unfold Quit_release. cbn [snd]. rewrite !deleted_buffers_app.
    rewrite (proj2 (Hsrc _)), (proj2 (Hrec _)), (proj2 (Hbuf _)).
    reflexivity.
Qed.

Lemma Quit_releases_witness :
  ids_ok example_playing
  /\ NoDup (deleted_sources (snd (Quit_release example_playing)))
  /\ deleted_sources (snd (Quit_release example_playing)) = [1%N; 2%N; 3%N]
  /\ sources example_playing
     = [ mkSource 7%N 1%N ] ++ mkSource 8%N 2%N :: [ mkSource 9%N 3%N ].
Proof.
  destruct (Quit_releases example_playing) as (Hdel & Hnd & _).
  split; [exact example_playing_ids|].
  split; [exact (Hnd example_playing_ids)|].
  split; [exact Hdel | reflexivity].
Defined.

(** ** The table of sounds: Get, Progress and Load *)

Lemma map_modify_same_value {K V : Type} (eqb : K -> K -> bool) (k : K)
  (m : list (K * V)) :
  map_modify eqb k (fun v => v) m = m.
Proof.
  induction m as [|[k' v] m IH]; simpl; [reflexivity|].
  destruct (eqb k k'); [reflexivity | now rewrite IH].
Qed.

Lemma map_modify_insert {K V : Type} (eqb ltb : K -> K -> bool)
  (eqb_eq : forall a b, eqb a b = true <-> a = b) (k : K) (f : V -> V)
  (v : V) (m : list (K * V)) :
  map_find eqb k m = None ->
  map_modify eqb k f (map_insert ltb k v m) = map_insert ltb k (f v) m.
Proof.
  assert (Hrefl : eqb k k = true) by now apply eqb_eq.
  induction m as [|[k' v'] m IH]; simpl; intros Hnone.
  - now rewrite Hrefl.
  - destruct (eqb k k') eqn:E; [discriminate|].
    destruct (ltb k k'); simpl.
    + now rewrite Hrefl.
    + rewrite E. now rewrite IH.
Qed.

Lemma map_modify_twice {K V : Type} (eqb : K -> K -> bool) (k : K)
  (f g : V -> V) (m : list (K * V)) :
  map_modify eqb k f (map_modify eqb k g m)
  = map_modify eqb k (fun v => f (g v)) m.
Proof.
  induction m as [|[k' v] m IH]; simpl; [reflexivity|].
  destruct (eqb k k') eqn:E; simpl; rewrite E; [reflexivity|].
  now rewrite IH.
Qed.

Lemma sounds_find_at_same (name : string) (f : Sound -> Sound)
  (t : list (string * Sound)) :
  map_find String.eqb name (sounds_at name f t)
  = Some (f (map_get String.eqb Sound_new name t)).
Proof. apply map_find_at_same, String.eqb_eq. Qed.

Lemma sounds_find_at_other (name name' : string) (f : Sound -> Sound)
  (t : list (string * Sound)) :
  name <> name' ->
  map_find String.eqb name' (sounds_at name f t)
  = map_find String.eqb name' t.
Proof. apply map_find_at_other, String.eqb_eq. Qed.

(** X16.  [Get] finds the sound of a name or makes one: after [Get] the
    table binds the name to the sound returned and the other names are
    bound as before; a name that the table does not have is bound to a
    sound that is not loaded (its buffer is 0) and the table has one entry
    more; a name that the table has keeps its sound and the table does
    not change; and a second [Get] of the name returns the same sound and
    changes nothing. *)
Theorem Get_finds_or_makes (name : string) (st : Audio) :
  map_find String.eqb name (sounds (snd (Get name st)))
  = Some (fst (Get name st))
  /\ (forall name', name' <> name ->
        map_find String.eqb name' (sounds (snd (Get name st)))
        = map_find String.eqb name' (sounds st))
  /\ (map_find String.eqb name (sounds st) = None ->
      fst (Get name st) = Sound_new
      /\ Buffer (fst (Get name st)) = 0%N
      /\ List.length (sounds (snd (Get name st)))
         = S (List.length (sounds st)))
  /\ (forall s, map_find String.eqb name (sounds st) = Some s ->
        fst (Get name st) = s /\ sounds (snd (Get name st)) = sounds st)
  /\ Get name (snd (Get name st)) = Get name st.
Proof.
  assert (Hfst : fst (Get name st)
                 = map_get String.eqb Sound_new name (sounds st)).
  { unfold Get. cbn [fst]. unfold map_get at 1.
    now rewrite sounds_find_at_same. }
  assert (Hfind : map_find String.eqb name (sounds (snd (Get name st)))
                  = Some (fst (Get name st))).
  { rewrite Hfst. unfold Get. cbn [snd sounds set_sounds].
    now rewrite sounds_find_at_same. }
  split; [exact Hfind|]. split; [|split; [|split]].
  - intros name' Hne. unfold Get. cbn [snd sounds set_sounds].
    apply sounds_find_at_other. congruence.
  - intros Hnone. rewrite Hfst. unfold map_get. rewrite Hnone.
    split; [reflexivity|]. split; [reflexivity|].
    unfold Get. cbn [snd sounds set_sounds].
    unfold sounds_at, map_at. rewrite Hnone. apply map_insert_length.
  - intros s Hs. rewrite Hfst. unfold map_get. rewrite Hs.
    split; [reflexivity|].
    unfold Get. cbn [snd sounds set_sounds].
    unfold sounds_at, map_at. rewrite Hs. apply map_modify_same_value.
  - set (st' := snd (Get name st)) in *.
    set (s := fst (Get name st)) in *.
    assert (Hsame : sounds_at name (fun x => x) (sounds st') = sounds st').
    { unfold sounds_at, map_at. rewrite Hfind.
      apply map_modify_same_value. }
    unfold Get at 1. rewrite Hsame. unfold map_get. rewrite Hfind.
    unfold st', s, Get. reflexivity.
Qed.

(** X17.  [Progress()] counts the sounds looked up, loaded or not: while
    paths are left to load, a [Get] of a name that the table does not
    have raises [Progress()], from [done / (done + left)] to
    [(done + 1) / (done + 1 + left)], and a [Get] of a name that the
    table has leaves it as it is. *)
Theorem Get_raises_Progress (name : string) (st : Audio) :
  loadQueue st <> [] ->
  (map_find String.eqb name (sounds st) = None ->
   Progress (snd (Get name st))
   = (INR (List.length (sounds st)) + 1)
     / (INR (List.length (sounds st)) + 1
        + INR (List.length (loadQueue st)))
   /\ Progress st < Progress (snd (Get name st)))
  /\ (map_find String.eqb name (sounds st) <> None ->
      Progress (snd (Get name st)) = Progress st).
Proof.
  intros Hq. split.
  - intros Hnone.
    assert (Hlen : List.length (sounds (snd (Get name st)))
                   = S (List.length (sounds st))).
    { unfold Get. cbn [snd sounds set_sounds].
      unfold sounds_at, map_at. rewrite Hnone. apply map_insert_length. }
    unfold Progress. rewrite Hlen.
    change (loadQueue (snd (Get name st))) with (loadQueue st).
    destruct (loadQueue st) as [|p ps] eqn:E; [contradiction|].
    rewrite S_INR.
    set (d := INR (List.length (sounds st))).
    set (r := INR (List.length (p :: ps))).
    assert (Hd : 0 <= d) by apply pos_INR.
    assert (Hr : 0 < r) by (apply lt_0_INR; simpl; lia).
    split; [reflexivity|].
    assert (Hdiff : (d + 1) / (d + 1 + r) - d / (d + r)
                    = r / ((d + 1 + r) * (d + r))) by (field; lra).
    assert (Hpos : 0 < r / ((d + 1 + r) * (d + r))).
    { apply Rdiv_lt_0_compat; [exact Hr|]. apply Rmult_lt_0_compat; lra. }
    lra.
  - intros Hsome. destruct (map_find String.eqb name (sounds st)) as [s|]
      eqn:E; [|contradiction].
    unfold Progress, Get. cbn [snd sounds loadQueue set_sounds].
    unfold sounds_at, map_at. rewrite E.
    now rewrite map_modify_same_value.
Qed.

Lemma Get_raises_Progress_witness :
  loadQueue
    (initial 0%nat ["sounds/a.wav"%string; "sounds/b~.wav"%string]
       example_heap (fun _ => true) []) <> []
  /\ map_find String.eqb "a"%string
       (sounds
          (initial 0%nat ["sounds/a.wav"%string; "sounds/b~.wav"%string]
             example_heap (fun _ => true) [])) = None
  /\ Progress
       (initial 0%nat ["sounds/a.wav"%string; "sounds/b~.wav"%string]
          example_heap (fun _ => true) [])
     < Progress
         (snd
            (Get "a"%string
               (initial 0%nat ["sounds/a.wav"%string; "sounds/b~.wav"%string]
                  example_heap (fun _ => true) []))).
Proof.
  assert (H1 : loadQueue
                 (initial 0%nat
                    ["sounds/a.wav"%string; "sounds/b~.wav"%string]
                    example_heap (fun _ => true) []) <> [])
    by discriminate.
  split; [exact H1|]. split; [reflexivity|].
  exact (proj2 (proj1 (Get_raises_Progress "a"%string _ H1) eq_refl)).
Defined.

(** X18.  [Progress()] is 1 exactly when no path is left to load, and
    below 1 otherwise; with paths left and an empty table it is 0. *)
Theorem Progress_complete (st : Audio) :
  (Progress st = 1 <-> loadQueue st = [])
  /\ (loadQueue st <> [] -> Progress st < 1)
  /\ (loadQueue st <> [] -> sounds st = [] -> Progress st = 0).
Proof.
  assert (Hlt : loadQueue st <> [] -> Progress st < 1).
  { intros Hq. unfold Progress.
    destruct (loadQueue st) as [|p ps] eqn:E; [contradiction|].
    set (d := INR (List.length (sounds st))).
    set (r := INR (List.length (p :: ps))).
    assert (Hd : 0 <= d) by apply pos_INR.
    assert (Hr : 0 < r) by (apply lt_0_INR; simpl; lia).
    assert (Hdiff : 1 - d / (d + r) = r / (d + r)) by (field; lra).
    assert (Hpos : 0 < r / (d + r)) by (apply Rdiv_lt_0_compat; lra).
    lra. }
  split; [|split; [exact Hlt|]].
  - split.
    + intros H1. destruct (loadQueue st) as [|p ps] eqn:E; [reflexivity|].
      assert (Hne : p :: ps <> []) by discriminate.
      specialize (Hlt Hne). lra.
    + intros Hq. unfold Progress. now rewrite Hq.
  - intros Hq Hs. unfold Progress. rewrite Hs.
    destruct (loadQueue st); [contradiction|]. simpl. lra.
Qed.

Lemma Progress_complete_witness :
  loadQueue
    (initial 0%nat ["sounds/a.wav"%string] example_heap (fun _ => true) [])
  <> []
  /\ Progress
       (initial 0%nat ["sounds/a.wav"%string] example_heap
          (fun _ => true) []) = 0.
Proof.
  assert (H1 : loadQueue
                 (initial 0%nat ["sounds/a.wav"%string] example_heap
                    (fun _ => true) []) <> []) by discriminate.
  split; [exact H1|].
  exact (proj2 (proj2 (Progress_complete _)) H1 eq_refl).
Defined.

Lemma load_path_registers (decode : string -> N) (p : string) (st : Audio) :
  Name p <> ""%string ->
  map_find String.eqb (Name p) (sounds (load_path decode p st))
  = Some (Sound_Load decode p Sound_new).
Proof.
  intros Hname. unfold load_path.
  destruct (String.eqb (Name p) "") eqn:E.
  - apply String.eqb_eq in E. contradiction.
  - cbn [sounds set_sounds]. now rewrite sounds_find_at_same.
Qed.

Lemma load_path_other_name (decode : string -> N) (p name : string)
  (st : Audio) :
  Name p <> name ->
  map_find String.eqb name (sounds (load_path decode p st))
  = map_find String.eqb name (sounds st).
Proof.
  intros Hname. unfold load_path.
  destruct (String.eqb (Name p) ""); [reflexivity|].
  cbn [sounds set_sounds]. now apply sounds_find_at_other.
Qed.

Lemma load_paths_other_names (decode : string -> N) (name : string)
  (ps : list string) :
  forall st,
    (forall p, In p ps -> Name p <> name) ->
    map_find String.eqb name
      (sounds (fold_left (fun s p => load_path decode p s) ps st))
    = map_find String.eqb name (sounds st).
Proof.
  induction ps as [|p ps IH]; intros st Hps; [reflexivity|].
  cbn [fold_left]. rewrite IH.
  - apply load_path_other_name, Hps. now left.
  - intros p' Hp'. apply Hps. now right.
Qed.

(** X19.  Of the paths that [Load] reads, the first discovered of a name
    is the one whose sound the table holds in the end: the paths are read
    from the back of the list, so that the first one is read last.  [Load]
    returns, with no path left and [Progress()] at 1. *)
Theorem Load_first_discovered (decode : string -> N) (st : Audio)
  (pre post : list string) (p : string) :
  removelast (loadQueue st) = pre ++ p :: post ->
  Name p <> ""%string ->
  (forall p', In p' pre -> Name p' <> Name p) ->
  exists st',
    Load decode st = Some st'
    /\ loadQueue st' = []
    /\ Progress st' = 1
    /\ map_find String.eqb (Name p) (sounds st')
       = Some (Sound_Load decode p Sound_new).
Proof.
  intros Hq Hname Hpre.
  assert (Hne : loadQueue st <> []).
  { intros E. rewrite E in Hq. simpl in Hq. now destruct pre. }
  eexists. split; [apply (Load_all_but_last decode st Hne)|].
  split; [reflexivity|]. split.
  - unfold Progress. reflexivity.
  - cbn [sounds set_loadQueue]. rewrite Hq.
    rewrite rev_app_distr. cbn [rev]. rewrite <- app_assoc.
    rewrite fold_left_app. cbn [app fold_left].
    rewrite load_paths_other_names.
    + now apply load_path_registers.
    + intros p' Hp'. apply Hpre. now apply in_rev.
Qed.

Lemma Load_first_discovered_witness :
  exists st',
    Load (fun p => N.of_nat (String.length p))
      (initial 0%nat
         ["a/sounds/x.wav"%string; "b/sounds/x~.wav"%string;
          "sounds/y.wav"%string]
         example_heap (fun _ => true) []) = Some st'
    /\ loadQueue st' = []
    /\ Progress st' = 1
    /\ map_find String.eqb (Name "a/sounds/x.wav") (sounds st')
       = Some
           (Sound_Load (fun p => N.of_nat (String.length p))
              "a/sounds/x.wav" Sound_new).
Proof.
  apply (Load_first_discovered (fun p => N.of_nat (String.length p))
           (initial 0%nat
              ["a/sounds/x.wav"%string; "b/sounds/x~.wav"%string;
               "sounds/y.wav"%string]
              example_heap (fun _ => true) [])
           [] ["b/sounds/x~.wav"%string] "a/sounds/x.wav"%string).
  - reflexivity.
  - vm_compute. discriminate.
  - intros p' [].
Defined.

(** X20.  [Load] binds no name but those of the paths it reads, which are
    the paths of the list without the last one: a name that none of them
    has is bound after [Load] as it was before, also when it is the name
    of the last path. *)
Theorem Load_other_names (decode : string -> N) (st : Audio)
  (name : string) :
  loadQueue st <> [] ->
  (forall p, In p (removelast (loadQueue st)) -> Name p <> name) ->
  exists st',
    Load decode st = Some st'
    /\ map_find String.eqb name (sounds st')
       = map_find String.eqb name (sounds st).
Proof.
  intros Hne Hps.
  eexists. split; [apply (Load_all_but_last decode st Hne)|].
  cbn [sounds set_loadQueue]. apply load_paths_other_names.
  intros p Hp. apply Hps. now apply in_rev.
Qed.

Lemma Load_other_names_witness :
  exists st',
    Load (fun p => N.of_nat (String.length p))
      (initial 0%nat ["sounds/x.wav"%string; "sounds/y.wav"%string]
         example_heap (fun _ => true) []) = Some st'
    /\ map_find String.eqb (Name "sounds/y.wav") (sounds st')
       = map_find String.eqb (Name "sounds/y.wav")
           (sounds
              (initial 0%nat ["sounds/x.wav"%string; "sounds/y.wav"%string]
                 example_heap (fun _ => true) [])).
Proof.
  apply (Load_other_names (fun p => N.of_nat (String.length p))
           (initial 0%nat ["sounds/x.wav"%string; "sounds/y.wav"%string]
              example_heap (fun _ => true) [])
           (Name "sounds/y.wav")).
  - discriminate.
  - intros p [Hp|[]]. subst p. vm_compute. discriminate.
Defined.

(** X21.  Looking a sound up before its file is read makes no difference
    to what reading the file leaves: [Get] binds the name to a sound that
    is not loaded, and the loader's step fills that entry, where it would
    have made the entry itself. *)
Theorem Get_then_load_path (decode : string -> N) (path : string)
  (st : Audio) :
  Name path <> ""%string ->
  load_path decode path (snd (Get (Name path) st))
  = load_path decode path st.
Proof.
  intros Hname. unfold load_path.
  destruct (String.eqb (Name path) "") eqn:E.
  { apply String.eqb_eq in E. contradiction. }
  unfold Get. cbn [snd sounds set_sounds].
  assert (Hat : sounds_at (Name path) (Sound_Load decode path)
                  (sounds_at (Name path) (fun s => s) (sounds st))
                = sounds_at (Name path) (Sound_Load decode path)
                    (sounds st)).
  { unfold sounds_at at 1. unfold map_at.
    rewrite sounds_find_at_same.
    unfold sounds_at, map_at.
    destruct (map_find String.eqb (Name path) (sounds st)) as [s|] eqn:F.
    - now rewrite map_modify_same_value.
    - apply (map_modify_insert String.eqb String.ltb String.eqb_eq).
      exact F. }
  rewrite Hat. destruct st. reflexivity.
Qed.

Lemma Get_then_load_path_witness :
  Name "sounds/x~.wav" <> ""%string
  /\ load_path (fun p => N.of_nat (String.length p)) "sounds/x~.wav"
       (snd
          (Get (Name "sounds/x~.wav")
             (initial 0%nat [] example_heap (fun _ => true) [])))
     = load_path (fun p => N.of_nat (String.length p)) "sounds/x~.wav"
         (initial 0%nat [] example_heap (fun _ => true) []).
Proof.
  assert (H1 : Name "sounds/x~.wav" <> ""%string)
    by (vm_compute; discriminate).
  split; [exact H1|].
  exact (Get_then_load_path (fun p => N.of_nat (String.length p))
           "sounds/x~.wav"
           (initial 0%nat [] example_heap (fun _ => true) []) H1).
Defined.

(** ** Names of sound files *)

Lemma string_length_append (a b : string) :
  String.length (a ++ b)%string = (String.length a + String.length b)%nat.
Proof. induction a as [|x a IH]; simpl; [reflexivity | now rewrite IH]. Qed.

Lemma string_append_assoc (a b c : string) :
  ((a ++ b) ++ c)%string = (a ++ (b ++ c))%string.
Proof. induction a as [|x a IH]; simpl; [reflexivity | now rewrite IH]. Qed.

Lemma substring_skip (a b : string) (n m : nat) :
  substring (String.length a + n) m (a ++ b)%string = substring n m b.
Proof. induction a as [|x a IH]; simpl; [reflexivity | exact IH]. Qed.

Lemma substring_front (a b : string) :
  forall m, (m <= String.length a)%nat ->
    substring 0 m (a ++ b)%string = substring 0 m a.
Proof.
  induction a as [|x a IH]; intros m Hm; simpl in *.
  - assert (m = 0%nat) by lia. subst m. destruct b; reflexivity.
  - destruct m as [|m]; [reflexivity|]. rewrite IH by lia. reflexivity.
Qed.

Lemma substring_whole (a : string) : substring 0 (String.length a) a = a.
Proof. induction a as [|x a IH]; simpl; [reflexivity | now rewrite IH]. Qed.

Lemma substring_length_bound (s : string) :
  forall n m,
    (String.length (substring n m s) <= String.length s - n)%nat.
Proof.
  induction s as [|x s IH]; intros n m.
  - destruct n, m; simpl; lia.
  - destruct n as [|n].
    + destruct m as [|m]; simpl; [lia|]. specialize (IH 0%nat m). lia.
    + simpl. apply IH.
Qed.

Lemma char_is_skip (a b : string) (n : nat) (c : ascii) :
  char_is (String.length a + n) c (a ++ b)%string = char_is n c b.
Proof.
  unfold char_is. rewrite Nat.add_comm.
  now rewrite <- append_correct2.
Qed.

Lemma char_is_front (a b : string) (n : nat) (c : ascii) :
  (n < String.length a)%nat ->
  char_is n c (a ++ b)%string = char_is n c a.
Proof.
  intros Hn. unfold char_is. now rewrite <- append_correct1.
Qed.

Lemma rfind_from_sound (needle path : string) :
  forall i found,
    rfind_from needle path i = Some found ->
    substring found (String.length needle) path = needle
    /\ (found <= i)%nat.
Proof.
  induction i as [|i IH]; intros found; simpl;
    destruct (String.eqb (substring _ (String.length needle) path) needle)
      eqn:E; intros H; try discriminate.
  - injection H as <-. apply String.eqb_eq in E. now split.
  - injection H as <-. apply String.eqb_eq in E. now split.
  - destruct (IH found H) as [H1 H2]. split; [exact H1 | lia].
Qed.

Lemma rfind_from_last (needle path : string) (found : nat) :
  substring found (String.length needle) path = needle ->
  forall i,
    (found <= i)%nat ->
    (forall j, (found < j)%nat -> (j <= i)%nat ->
       substring j (String.length needle) path <> needle) ->
    rfind_from needle path i = Some found.
Proof.
  intros Hf. induction i as [|i IH]; intros Hle Hno.
  - assert (found = 0%nat) by lia. subst found. simpl.
    now rewrite Hf, String.eqb_refl.
  - simpl.
    destruct (String.eqb (substring (S i) (String.length needle) path)
                needle) eqn:E.
    + apply String.eqb_eq in E.
      destruct (Nat.eq_dec found (S i)) as [->|Hne]; [reflexivity|].
      exfalso. apply (Hno (S i)); [lia | lia | exact E].
    + destruct (Nat.eq_dec found (S i)) as [->|Hne].
      * rewrite Hf, String.eqb_refl in E. discriminate.
      * apply IH; [lia|]. intros j H1 H2. apply Hno; lia.
Qed.

Lemma rfind_sound (needle path : string) (found : nat) :
  rfind needle path = Some found ->
  substring found (String.length needle) path = needle.
Proof.
  unfold rfind.
  destruct (String.length path <? String.length needle)%nat;
    [discriminate|].
  intros H. now apply rfind_from_sound in H.
Qed.

Lemma rfind_none (needle path : string) :
  (forall j, substring j (String.length needle) path <> needle) ->
  rfind needle path = None.
Proof.
  intros Hno. destruct (rfind needle path) as [found|] eqn:E;
    [|reflexivity].
  apply rfind_sound in E. now apply Hno in E.
Qed.

Lemma sounds_dir_once (rest : string) (k : nat) :
  index 0 "sounds/" rest = None ->
  substring (S k) 7 ("sounds/" ++ rest)%string <> "sounds/"%string.
Proof.
  intros Hrest.
  destruct k as [|[|[|[|[|[|k]]]]]]; simpl;
    try (intros H; inversion H; fail).
  apply (index_correct3 0 k "sounds/" rest Hrest); [discriminate | lia].
Qed.

Lemma rfind_sounds_dir (dir rest : string) :
  index 0 "sounds/" rest = None ->
  rfind "sounds/" (dir ++ "sounds/" ++ rest)%string
  = Some (String.length dir).
Proof.
  intros Hrest. unfold rfind.
  rewrite !string_length_append.
  change (String.length "sounds/") with 7%nat.
  destruct (String.length dir + (7 + String.length rest) <? 7)%nat eqn:E.
  { apply Nat.ltb_lt in E. lia. }
  apply rfind_from_last.
  - change (String.length "sounds/") with 7%nat.
    rewrite <- (Nat.add_0_r (String.length dir)) at 1.
    rewrite substring_skip. simpl. destruct rest; reflexivity.
  - lia.
  - intros j H1 _. change (String.length "sounds/") with 7%nat.
    replace j with (String.length dir + S (j - String.length dir - 1))%nat
      by lia.
    rewrite substring_skip. now apply sounds_dir_once.
Qed.

Lemma ends_in_wav (front : string) :
  substring (String.length (front ++ ".wav")%string - 4) 4
    (front ++ ".wav")%string = ".wav"%string.
Proof.
  rewrite string_length_append. change (String.length ".wav") with 4%nat.
  replace (String.length front + 4 - 4)%nat
    with (String.length front + 0)%nat by lia.
  now rewrite substring_skip.
Qed.

(** X22.  The name of a file [<dir>sounds/<stem>.wav], where no further
    [sounds/] follows, is [<stem>], without its last character when that
    is the marker [~]: directories before [sounds/] are dropped and
    directories after it are kept. *)
Theorem Name_recognises (dir stem : string) :
  index 0 "sounds/" (stem ++ ".wav")%string = None ->
  Name (dir ++ "sounds/" ++ stem ++ ".wav")%string
  = if char_is (String.length stem - 1) "~" stem
    then substring 0 (String.length stem - 1) stem
    else stem.
Proof.
  intros Hstem. unfold Name.
  rewrite (rfind_sounds_dir dir _ Hstem).
  assert (Hlen : String.length (dir ++ "sounds/" ++ stem ++ ".wav")%string
                 = (String.length dir + (7 + (String.length stem + 4)))%nat).
  { rewrite !string_length_append. reflexivity. }
  assert (Hwav : substring
                   (String.length (dir ++ "sounds/" ++ stem ++ ".wav")%string
                    - 4) 4 (dir ++ "sounds/" ++ stem ++ ".wav")%string
                 = ".wav"%string).
  { rewrite <- (string_append_assoc "sounds/" stem ".wav").
    rewrite <- (string_append_assoc dir ("sounds/" ++ stem) ".wav").
    apply ends_in_wav. }
  rewrite Hwav, Hlen.
  destruct (String.length dir + (7 + (String.length stem + 4)) <? 4)%nat
    eqn:E; [apply Nat.ltb_lt in E; lia|].
  rewrite String.eqb_refl. cbn [orb negb].
  destruct stem as [|x stem].
  - cbn [String.length Nat.sub].
    replace (String.length dir + (7 + (0 + 4)) - 4 - 1)%nat
      with (String.length dir + 6)%nat by lia.
    rewrite char_is_skip.
    change (char_is 6 "~" ("sounds/" ++ "" ++ ".wav")%string) with false.
    cbv iota.
    replace (String.length dir + (7 + (0 + 4)) - 4
             - (String.length dir + 7))%nat with 0%nat by lia.
    rewrite substring_skip. reflexivity.
  - set (s := String x stem) in *.
    assert (Hs : (0 < String.length s)%nat) by (unfold s; simpl; lia).
    replace (String.length dir + (7 + (String.length s + 4)) - 4 - 1)%nat
      with (String.length dir + (7 + (String.length s - 1)))%nat by lia.
    rewrite char_is_skip.
    change (char_is (7 + (String.length s - 1)) "~"
              ("sounds/" ++ s ++ ".wav")%string)
      with (char_is (String.length "sounds/" + (String.length s - 1)) "~"
              ("sounds/" ++ s ++ ".wav")%string).
    rewrite char_is_skip, char_is_front by lia.
    destruct (char_is (String.length s - 1) "~" s); cbv iota.
    + replace (String.length dir + (7 + (String.length s - 1))
               - (String.length dir + 7))%nat
        with (String.length s - 1)%nat by lia.
      rewrite substring_skip.
      change (substring 7 (String.length s - 1)
                ("sounds/" ++ s ++ ".wav")%string)
        with (substring 0 (String.length s - 1) (s ++ ".wav")%string).
      apply substring_front. lia.
    + replace (String.length dir + (7 + (String.length s + 4)) - 4
               - (String.length dir + 7))%nat
        with (String.length s) by lia.
      rewrite substring_skip.
      change (substring 7 (String.length s)
                ("sounds/" ++ s ++ ".wav")%string)
        with (substring 0 (String.length s) (s ++ ".wav")%string).
      rewrite substring_front by lia. apply substring_whole.
Qed.

Lemma Name_recognises_witness :
  index 0 "sounds/" ("ui/click~" ++ ".wav")%string = None
  /\ Name ("data/" ++ "sounds/" ++ "ui/click~" ++ ".wav")%string
     = "ui/click"%string.
Proof.
  assert (H1 : index 0 "sounds/" ("ui/click~" ++ ".wav")%string = None)
    by reflexivity.
  split; [exact H1|].
  exact (Name_recognises "data/" "ui/click~" H1).
Defined.

Lemma substring_length_exact (s : string) :
  forall n m,
    (n + m <= String.length s)%nat ->
    String.length (substring n m s) = m.
Proof.
  induction s as [|x s IH]; intros n m H; simpl in H.
  - assert (n = 0%nat) by lia. assert (m = 0%nat) by lia. now subst.
  - destruct n as [|n].
    + destruct m as [|m]; simpl; [reflexivity|]. rewrite IH; [reflexivity|lia].
    + simpl. apply IH. lia.
Qed.

(** X23.  The subtraction [end - start] in [Name] never wraps: in a path
    that ends in [.wav], the last [sounds/] ends before the extension,
    and before the marker [~] when the name has one.  So the name is the
    part of the path from [start] to [end], of length [end - start]. *)
Theorem Name_start_before_end (path : string) (found : nat) :
  substring (String.length path - 4) 4 path = ".wav"%string ->
  rfind "sounds/" path = Some found ->
  (found + 7
   <= (if char_is (String.length path - 4 - 1) "~" path
       then String.length path - 4 - 1 else String.length path - 4))%nat
  /\ Name path
     = substring (found + 7)
         ((if char_is (String.length path - 4 - 1) "~" path
           then String.length path - 4 - 1 else String.length path - 4)
          - (found + 7)) path
  /\ String.length (Name path)
     = ((if char_is (String.length path - 4 - 1) "~" path
         then String.length path - 4 - 1 else String.length path - 4)
        - (found + 7))%nat.
Proof.
  intros Hwav Hfound.
  assert (Hlen : (4 <= String.length path)%nat).
  { pose proof (substring_length_bound path (String.length path - 4) 4) as H.
    rewrite Hwav in H. simpl in H. lia. }
  assert (Hf : substring found 7 path = "sounds/"%string)
    by exact (rfind_sound "sounds/" path found Hfound).
  assert (Hend : (found + 7 <= String.length path)%nat).
  { pose proof (substring_length_bound path found 7) as H.
    rewrite Hf in H. simpl in H. lia. }
  assert (Hget : forall k, (k < 7)%nat ->
            String.get (k + found) path = String.get k "sounds/").
  { intros k Hk. rewrite <- (substring_correct1 path found 7 k Hk).
    now rewrite Hf. }
  assert (Hdot : String.get (String.length path - 4) path = Some "."%char).
  { change (String.length path - 4)%nat
      with (0 + (String.length path - 4))%nat.
    rewrite <- (substring_correct1 path (String.length path - 4) 4 0)
      by lia.
    now rewrite Hwav. }
  assert (Hext : (found + 7 <= String.length path - 4)%nat).
  { destruct (Compare_dec.le_lt_dec (found + 7) (String.length path - 4))
      as [H|H];
      [exact H | exfalso].
    assert (Hk : exists k, (3 <= k < 7)%nat
                           /\ (k + found = String.length path - 4)%nat).
    { exists (String.length path - 4 - found)%nat. lia. }
    destruct Hk as (k & Hk & Hpos).
    rewrite <- Hpos, (Hget k) in Hdot by lia.
    destruct k as [|[|[|[|[|[|[|k]]]]]]]; try lia; discriminate. }
  assert (Hstart :
            (found + 7
             <= (if char_is (String.length path - 4 - 1) "~" path
                 then String.length path - 4 - 1
                 else String.length path - 4))%nat).
  { destruct (char_is (String.length path - 4 - 1) "~" path) eqn:C;
      [|exact Hext].
    destruct (Nat.eq_dec (found + 7) (String.length path - 4)) as [H|H];
      [exfalso | lia].
    unfold char_is in C.
    replace (String.length path - 4 - 1)%nat with (6 + found)%nat in C
      by lia.
    rewrite (Hget 6%nat) in C by lia. discriminate. }
  assert (HName : Name path
            = substring (found + 7)
                ((if char_is (String.length path - 4 - 1) "~" path
                  then String.length path - 4 - 1
                  else String.length path - 4) - (found + 7)) path).
  { unfold Name. rewrite Hwav, Hfound, String.eqb_refl.
    destruct (String.length path <? 4)%nat eqn:E;
      [apply Nat.ltb_lt in E; lia | reflexivity]. }
  split; [exact Hstart|]. split; [exact HName|].
  rewrite HName. apply substring_length_exact.
  destruct (char_is (String.length path - 4 - 1) "~" path); lia.
Qed.

Lemma Name_start_before_end_witness :
  (0 + 7
   <= (if char_is (String.length "sounds/~.wav" - 4 - 1) "~" "sounds/~.wav"
       then String.length "sounds/~.wav" - 4 - 1
       else String.length "sounds/~.wav" - 4))%nat
  /\ String.length (Name "sounds/~.wav") = 0%nat.
Proof.
  destruct (Name_start_before_end "sounds/~.wav" 0 eq_refl eq_refl)
    as (H1 & _ & H3).
  split; [exact H1 | exact H3].
Defined.

(** X24.  A path that does not end in [.wav], or that has no [sounds/]
    in it, has no name, and the loader's step does nothing with it. *)
Theorem Name_rejects (decode : string -> N) (path : string) (st : Audio) :
  substring (String.length path - 4) 4 path <> ".wav"%string
  \/ (forall j, substring j 7 path <> "sounds/"%string) ->
  Name path = ""%string /\ load_path decode path st = st.
Proof.
  intros H.
  assert (HName : Name path = ""%string).
  { unfold Name. destruct H as [H|H].
    - destruct (String.eqb (substring (String.length path - 4) 4 path)
                  ".wav") eqn:E.
      + apply String.eqb_eq in E. contradiction.
      + now rewrite Bool.orb_true_r.
    - rewrite (rfind_none "sounds/" path H).
      now destruct (_ || _). }
  split; [exact HName|]. unfold load_path. now rewrite HName.
Qed.

Lemma Name_rejects_witness :
  Name "data/sounds/readme.txt" = ""%string
  /\ load_path (fun p => N.of_nat (String.length p))
       "data/sounds/readme.txt"
       (initial 0%nat [] example_heap (fun _ => true) [])
     = initial 0%nat [] example_heap (fun _ => true) [].
Proof.
  apply (Name_rejects (fun p => N.of_nat (String.length p))
           "data/sounds/readme.txt"
           (initial 0%nat [] example_heap (fun _ => true) [])).
  left. vm_compute. discriminate.
Defined.

(** ** Quit and the thread of Load *)

Lemma thread_steps_app (decode : string -> N) (s s' s'' : Threads) :
  thread_steps decode s s' ->
  thread_steps decode s' s'' ->
  thread_steps decode s s''.
Proof.
  induction 1 as [|s0 s1 s2 Hstep _ IH]; intros H; [exact H|].
  exact (steps_more decode s0 s1 s'' Hstep (IH H)).
Qed.

Lemma Quit_release_calls (st : Audio) (c : Teardown) :
  In c (snd (Quit_release st)) ->
  match c with
  | Quit_alSourceStop _ | alDeleteSources _ | alDeleteBuffers _ => True
  | _ => False
  end.
Proof.
  unfold Quit_release. cbn [snd]. rewrite !in_app_iff.
  intros [H|[H|H]].
  - apply in_flat_map in H. destruct H as (source & _ & [<-|[<-|[]]]);
      exact I.
  - apply in_map_iff in H. destruct H as (id & <- & _). exact I.
  - apply in_map_iff in H. destruct H as (it & <- & _). exact I.
Qed.

(** The thread of [Load], left alone, does what [Load] does. *)
Lemma Load_thread_runs (decode : string -> N) :
  forall fuel path s st',
    loader s = Reading path ->
    locked s = false ->
    Load_loop decode fuel path (audio s) = Some st' ->
    thread_steps decode s
      (mkThreads st' false LoadReturned (quitter s) (calls s)).
Proof.
  induction fuel as [|fuel IH]; intros path s st' Hl Hm Hrun;
    [discriminate|].
  rewrite Load_loop_turn in Hrun.
  apply (steps_more decode s _ _ (Load_reads decode path s Hl)).
  set (s1 := mkThreads (load_path decode path (audio s)) (locked s) AtLock
               (quitter s) (calls s)).
  assert (Hpop : thread_step decode s1 _)
    by exact (Load_pops decode s1 eq_refl Hm).
  apply (steps_more decode s1 _ _ Hpop).
  cbn [audio quitter calls s1].
  destruct (removelast (loadQueue (load_path decode path (audio s))))
    as [|x q] eqn:E.
  - injection Hrun as <-. apply steps_none.
  - exact (IH (last (x :: q) ""%string)
             (mkThreads
                (set_loadQueue (x :: q) (load_path decode path (audio s)))
                false (Reading (last (x :: q) ""%string)) (quitter s)
                (calls s))
             st' eq_refl eq_refl Hrun).
Qed.

(** X25.  [Quit] called while the thread of [Load] has not returned can
    block for ever: [Quit] holds [audioMutex] while it joins the thread,
    and the loop of [Load] needs the mutex to pop a path before it can
    return.  Once [Quit] has taken the mutex, whatever steps follow, it
    stays in the join, [Load] does not return, no path is popped, and no
    call is made after the releases: the device is not closed. *)
Theorem Quit_blocks_while_loading (decode : string -> N) (s : Threads) :
  quitter s = AtEntry ->
  locked s = false ->
  loader s <> NotStarted ->
  loader s <> LoadReturned ->
  exists s1,
    thread_step decode s s1
    /\ forall s',
         thread_steps decode s1 s' ->
         quitter s' = AtJoin
         /\ loader s' <> LoadReturned
         /\ loadQueue (audio s') = loadQueue (audio s)
         /\ calls s' = calls s ++ snd (Quit_release (audio s)).
Proof.
  intros Hq Hm Hstarted Hrunning.
  exists (mkThreads (fst (Quit_release (audio s))) true (loader s) AtJoin
            (calls s ++ snd (Quit_release (audio s)))).
  split; [exact (Quit_locks decode s Hq Hm)|].
  intros s' Hsteps.
  set (s1 := mkThreads (fst (Quit_release (audio s))) true (loader s)
               AtJoin (calls s ++ snd (Quit_release (audio s)))) in *.
  assert (Hinv : quitter s1 = AtJoin /\ locked s1 = true
                 /\ loader s1 <> NotStarted /\ loader s1 <> LoadReturned)
    by (repeat split; assumption).
  assert (Hkeep : loadQueue (audio s1) = loadQueue (audio s)
                  /\ calls s1 = calls s ++ snd (Quit_release (audio s)))
    by (split; reflexivity).
  clearbody s1. clear Hq Hm Hstarted Hrunning.
  induction Hsteps as [s1|s1 s2 s3 Hstep _ IH].
  - destruct Hinv as (H1 & _ & _ & H4). destruct Hkeep as [H5 H6].
    repeat split; assumption.
  - destruct Hinv as (H1 & H2 & H3 & H4). destruct Hkeep as [H5 H6].
    inversion Hstep as [path s0 Hl|s0 Hl Hm|s0 Hq Hm|s0 Hq Hl|s0 Hq Hl];
      subst; try congruence.
    apply IH.
    + repeat split; cbn; [exact H1 | exact H2 | discriminate | discriminate].
    + split; cbn; [|exact H6]. now rewrite load_path_loadQueue.
Qed.

Lemma Quit_blocks_while_loading_witness :
  exists s1,
    thread_step (fun p => N.of_nat (String.length p))
      (threads_after_Init
         (initial 0%nat ["sounds/a.wav"%string] example_heap
            (fun _ => true) [])) s1
    /\ forall s',
         thread_steps (fun p => N.of_nat (String.length p)) s1 s' ->
         quitter s' = AtJoin
         /\ loader s' <> LoadReturned
         /\ loadQueue (audio s') = ["sounds/a.wav"%string]
         /\ calls s' = [].
Proof.
  apply (Quit_blocks_while_loading (fun p => N.of_nat (String.length p))
           (threads_after_Init
              (initial 0%nat ["sounds/a.wav"%string] example_heap
                 (fun _ => true) []))).
  - reflexivity.
  - reflexivity.
  - discriminate.
  - discriminate.
Defined.

(** X26.  When [Audio::Init] found no sound file, so that it did not
    start the thread of [Load], [Quit] does not return: it releases the
    sources and the buffers, the join throws, and the device is never
    closed. *)
Theorem Quit_without_load_thread (decode : string -> N) (st : Audio) :
  loadQueue st = [] ->
  (exists s',
     thread_steps decode (threads_after_Init st) s'
     /\ quitter s' = QuitThrown
     /\ audio s' = fst (Quit_release st)
     /\ calls s' = snd (Quit_release st) ++ [loadThread_join])
  /\ forall s',
       thread_steps decode (threads_after_Init st) s' ->
       quitter s' <> QuitReturned /\ ~ In alcCloseDevice (calls s').
Proof.
  intros Hempty. split.
  - eexists. split.
    + eapply steps_more; [apply Quit_locks; reflexivity|].
      eapply steps_more; [|apply steps_none].
      apply Quit_join_throws; [reflexivity|].
      unfold threads_after_Init. cbn [loader]. now rewrite Hempty.
    + repeat split.
  - intros s' Hsteps.
    assert (Hinv : loader (threads_after_Init st) = NotStarted
                   /\ quitter (threads_after_Init st) <> QuitReturned
                   /\ ~ In alcCloseDevice (calls (threads_after_Init st))).
    { unfold threads_after_Init. cbn. rewrite Hempty.
      split; [reflexivity|]. split; [discriminate | tauto]. }
    induction Hsteps as [s1|s1 s2 s3 Hstep _ IH].
    + tauto.
    + destruct Hinv as (H1 & H2 & H3). apply IH.
      inversion Hstep as [path s0 Hl|s0 Hl Hm|s0 Hq Hm|s0 Hq Hl|s0 Hq Hl];
        subst; cbn; try congruence.
      * split; [exact H1|]. split; [discriminate|].
        rewrite in_app_iff. intros [H|H]; [tauto|].
        exact (Quit_release_calls _ _ H).
      * split; [exact H1|]. split; [discriminate|].
        rewrite in_app_iff. intros [H|[H|[]]]; [tauto | discriminate].
Qed.

Lemma Quit_without_load_thread_witness :
  loadQueue example_playing = []
  /\ exists s',
       thread_steps (fun p => N.of_nat (String.length p))
         (threads_after_Init example_playing) s'
       /\ quitter s' = QuitThrown
       /\ audio s' = fst (Quit_release example_playing)
       /\ calls s' = snd (Quit_release example_playing) ++ [loadThread_join].
Proof.
  split; [reflexivity|].
  exact (proj1
           (Quit_without_load_thread (fun p => N.of_nat (String.length p))
              example_playing eq_refl)).
Defined.

(** X27.  When the thread of [Load] is left to finish before [Quit] takes
    the mutex, the thread does what [Load] does and [Quit] returns: it has
    released the sources and the buffers of the table that [Load] left,
    joined the thread and closed the device, and the mutex is free. *)
Theorem Quit_after_Load (decode : string -> N) (st : Audio) :
  loadQueue st <> [] ->
  exists st' s',
    Load decode st = Some st'
    /\ thread_steps decode (threads_after_Init st) s'
    /\ quitter s' = QuitReturned
    /\ loader s' = LoadReturned
    /\ locked s' = false
    /\ audio s' = fst (Quit_release st')
    /\ calls s' = snd (Quit_release st') ++ loadThread_join :: Quit_close.
Proof.
  intros Hne.
  pose proof (Load_all_but_last decode st Hne) as Hload.
  set (st' := set_loadQueue []
                (fold_left (fun s p => load_path decode p s)
                   (rev (removelast (loadQueue st))) st)) in *.
  exists st'.
  exists (mkThreads (fst (Quit_release st')) false LoadReturned QuitReturned
            (snd (Quit_release st') ++ loadThread_join :: Quit_close)).
  split; [exact Hload|]. split; [|repeat split].
  apply (thread_steps_app decode _
           (mkThreads st' false LoadReturned AtEntry [])).
  - apply (Load_thread_runs decode (List.length (loadQueue st)) ""%string
             (threads_after_Init st) st').
    + unfold threads_after_Init. cbn [loader].
      destruct (loadQueue st); [contradiction | reflexivity].
    + reflexivity.
    + exact Hload.
  - apply (steps_more decode _
             (mkThreads (fst (Quit_release st')) true LoadReturned AtJoin
                (snd (Quit_release st')))).
    + exact (Quit_locks decode (mkThreads st' false LoadReturned AtEntry [])
               eq_refl eq_refl).
    + apply (steps_more decode _
               (mkThreads (fst (Quit_release st')) false LoadReturned
                  QuitReturned
                  (snd (Quit_release st') ++ loadThread_join :: Quit_close))).
      * exact (Quit_joins decode
                 (mkThreads (fst (Quit_release st')) true LoadReturned AtJoin
                    (snd (Quit_release st'))) eq_refl eq_refl).
      * apply steps_none.
Qed.

Lemma Quit_after_Load_witness :
  exists st' s',
    Load (fun p => N.of_nat (String.length p))
      (initial 0%nat ["sounds/a.wav"%string; "sounds/b.wav"%string]
         example_heap (fun _ => true) []) = Some st'
    /\ thread_steps (fun p => N.of_nat (String.length p))
         (threads_after_Init
            (initial 0%nat ["sounds/a.wav"%string; "sounds/b.wav"%string]
               example_heap (fun _ => true) [])) s'
    /\ quitter s' = QuitReturned
    /\ loader s' = LoadReturned
    /\ locked s' = false
    /\ audio s' = fst (Quit_release st')
    /\ calls s' = snd (Quit_release st') ++ loadThread_join :: Quit_close.
Proof.
  apply (Quit_after_Load (fun p => N.of_nat (String.length p))
           (initial 0%nat ["sounds/a.wav"%string; "sounds/b.wav"%string]
              example_heap (fun _ => true) [])).
  discriminate.
Defined.

(** ** States that can be reached *)

(** [Step] only moves identifiers between the active sources, the
    recycled ones and the device. *)
Lemma Step_all_ids (tid : ThreadId) (st : Audio) :
  Permutation (all_ids (Step tid st)) (all_ids st).
Proof.
  unfold Step.
  destruct (tid =? mainThreadID st)%nat; [|reflexivity]. cbn [negb].
  change (all_ids (set_queue [] (allocate (queue (advance st)) (advance st))))
    with (all_ids (allocate (queue (advance st)) (advance st))).
  rewrite allocate_ids. unfold all_ids.
  destruct (advance_moves st) as (Hperm & _ & Hpend & _).
  rewrite Hpend, !app_assoc. now apply Permutation_app_tail.
Qed.

Lemma Invariant_initial (tid : ThreadId) (paths : list string)
  (heap : SoundPtr -> Sound) (playing : N -> bool) (pending : list N) :
  device_ok (initial tid paths heap playing pending) ->
  Invariant (initial tid paths heap playing pending).
Proof.
  intros H. unfold Invariant, queue_sorted; simpl.
  repeat split; try constructor. exact H.
Qed.

Lemma Invariant_Play (tid : ThreadId) (sound : SoundPtr)
  (position velocity : Point) (st : Audio) :
  Invariant st -> Invariant (Play tid sound position velocity st).
Proof.
  intros (Hq & Hd & Hc & Hi).
  assert (Hi' : device_ok (Play tid sound position velocity st))
    by (unfold device_ok; now rewrite Play_ids).
  revert Hi'. unfold Play.
  destruct ((sound =? 0)%N || (Buffer (heap st sound) =? 0)%N
            || is_zero (volume st)); [now repeat split|].
  destruct (tid =? mainThreadID st)%nat; intros Hi'.
  - repeat split; auto. now apply queue_at_sorted.
  - repeat split; auto. simpl. now apply queue_at_sorted.
Qed.

Lemma Invariant_Update (position velocity : Point) (st : Audio) :
  Invariant st -> Invariant (Update position velocity st).
Proof.
  intros (Hq & Hd & Hc & Hi). repeat split; auto.
  - simpl. now apply merge_deferred_sorted.
  - constructor.
Qed.

Lemma Step_maxSources (tid : ThreadId) (st : Audio) :
  (maxSources st < 2 ^ 32)%N -> (maxSources (Step tid st) <= maxSources st)%N.
Proof.
  intros Hc. unfold Step.
  destruct (tid =? mainThreadID st)%nat; cbn [negb]; [|lia].
  assert (Hc' : (maxSources (advance st) < 2 ^ 32)%N)
    by now rewrite advance_maxSources.
  destruct (allocate_refusal (queue (advance st)) (advance st) Hc')
    as (front & _ & [[_ Hm]|(_ & _ & Hm)]);
    rewrite advance_maxSources in Hm; simpl; lia.
Qed.

Lemma Invariant_Step (tid : ThreadId) (st : Audio) :
  Invariant st -> Invariant (Step tid st).
Proof.
  intros (Hq & Hd & Hc & Hi).
  split; [|split; [|split]].
  - unfold Step. destruct (tid =? mainThreadID st)%nat; [constructor|exact Hq].
  - unfold Step. destruct (tid =? mainThreadID st)%nat; [|exact Hd].
    cbn [negb].
    destruct (allocate_started (queue (advance st)) (advance st))
      as (_ & _ & _ & _ & _ & Hdef & _).
    change (queue_sorted
              (deferred (allocate (queue (advance st)) (advance st)))).
    destruct (advance_moves st) as (_ & _ & _ & Hadv & _).
    rewrite Hdef, Hadv. exact Hd.
  - pose proof (Step_maxSources tid st Hc). lia.
  - unfold device_ok.
    apply (Permutation_NoDup (l := all_ids st)); [|exact Hi].
    symmetry. apply Step_all_ids.
Qed.

(** Every state the scheduler can reach satisfies the invariant, so the
    conditions on the identifiers, the request maps and the cap under
    which the loops of [Step] and [Update] are described hold at every
    call. *)
Lemma Reachable_Invariant (st : Audio) : Reachable st -> Invariant st.
Proof.
  induction 1 as [tid paths heap playing pending Hdev
                  | level st _ IH | p v st _ IH | tid sound p v st _ IH
                  | tid st _ IH | playing pending st _ IH Hdev
                  | h st _ IH].
  - now apply Invariant_initial.
  - exact IH.
  - now apply Invariant_Update.
  - now apply Invariant_Play.
  - now apply Invariant_Step.
  - destruct IH as (Hq & Hd & Hc & _). now repeat split.
  - exact IH.
Qed.

(** In every state that can be reached the identifiers in use are all
    different, the device hands out none of them again, the request maps
    bind each sound once and the cap is an [unsigned]. *)
Lemma Reachable_conditions (st : Audio) :
  Reachable st ->
  ids_ok st /\ pending_fresh st
  /\ queue_ok (queue st) /\ queue_ok (deferred st)
  /\ (maxSources st < 2 ^ 32)%N.
Proof.
  intros H. apply Reachable_Invariant in H.
  destruct H as (Hq & Hd & Hc & Hi).
  destruct (device_ok_ids st Hi) as [Hids Hfresh].
  repeat split; auto using queue_sorted_ok.
Qed.

(** That no two sources play the same looping sound is kept by the calls
    of the facade, by the device, and by a loader that does not change
    the looping flag of a sound that a source plays. *)
Lemma sources_ok_kept (st : Audio) :
  sources_ok st ->
  (forall level, sources_ok (SetVolume level st))
  /\ (forall position velocity, sources_ok (Update position velocity st))
  /\ (forall tid sound position velocity,
        sources_ok (Play tid sound position velocity st))
  /\ (forall tid, queue_ok (queue st) -> sources_ok (Step tid st))
  /\ (forall playing pending, sources_ok (set_device playing pending st))
  /\ (forall h,
        (forall s, In s (sources st) ->
           IsLooping (h (GetSound s)) = IsLooping (heap st (GetSound s))) ->
        sources_ok (set_heap h st)).
Proof.
  intros Hs. split; [intros level; exact Hs|].
  split; [intros position velocity; exact Hs|]. split; [|split; [|split]].
  - intros tid sound position velocity. unfold Play.
    destruct ((sound =? 0)%N || (Buffer (heap st sound) =? 0)%N
              || is_zero (volume st)); [exact Hs|].
    destruct (tid =? mainThreadID st)%nat; exact Hs.
  - intros tid Hq. now apply Step_sources_ok.
  - intros playing pending. exact Hs.
  - intros h Hloop.
    unfold sources_ok, looping_sounds in *. cbn [sources heap set_heap].
    rewrite (filter_ext_in _ (fun s => IsLooping (heap st (GetSound s))));
      [exact Hs | exact Hloop].
Qed.

(** In every state that can be reached, the first loop of [Step] leaves a
    queue in key order. *)
Lemma Reachable_advance_sorted (st : Audio) :
  Reachable st -> queue_sorted (queue (advance st)).
Proof.
  intros H. apply Reachable_Invariant in H. destruct H as (Hq & _).
  destruct (advance_in_turn st) as (_ & Hturn & _). rewrite Hturn.
  unfold queue_in_turn.
  revert Hq. generalize (queue st). unfold erase_all.
  induction (looping_sounds st (sources st)) as [|k l IH]; intros q Hq;
    [exact Hq|].
  simpl. apply IH. unfold queue_sorted, queue_erase.
  now apply map_erase_sorted.
Qed.

(** A frame from the initial state, with a request from each thread, ends
    in a state that can be reached: the conditions above are not empty. *)
Example Reachable_frame :
  Reachable
    (Step 0%nat
       (Update (mkPoint 1 1) (mkPoint 0 0)
          (Play 0%nat 8%N (mkPoint 2 0) (mkPoint 0 0) example_deferred))).
Proof.
  apply Reachable_Step, Reachable_Update, Reachable_Play.
  unfold example_deferred. apply Reachable_Play, Reachable_initial.
  unfold device_ok, all_ids. simpl. constructor.
Qed.

(** The loader can make two sources play the same looping sound: the
    state is reached by two frames that play a sound which plays once,
    followed by the loading of a looping file into that sound.  So that no
    two sources play the same looping sound is no invariant of the
    scheduler, and the first loop of [Step] is described source by
    source. *)
Example Reachable_same_looping_sound :
  Reachable example_flipped
  /\ sources example_flipped = [ mkSource 8%N 4%N; mkSource 8%N 5%N ]
  /\ ~ sources_ok example_flipped.
Proof.
  assert (Hplay : forall st,
            volume st = 1 -> mainThreadID st = 0%nat ->
            Buffer (heap st 8%N) = 4%N ->
            Play 0%nat 8%N (mkPoint 1 0) (mkPoint 0 0) st
            = set_queue
                (queue_at 8%N
                   (fun e =>
                      Add e (Point_sub (mkPoint 1 0) (listener st))
                        (Point_sub (mkPoint 0 0) (listenerVelocity st)))
                   (queue st)) st).
  { intros st Hv Hm Hb. unfold Play, is_zero. rewrite Hb, Hv, Hm.
    destruct (Req_dec_T 1 0) as [H|_]; [lra | reflexivity]. }
  assert (Hsrc : sources example_flipped
                 = [ mkSource 8%N 4%N; mkSource 8%N 5%N ]).
  { unfold example_flipped.
    rewrite (Hplay (initial 0%nat [] example_heap (fun _ => true)
                      [4%N; 5%N])) by reflexivity.
    rewrite Hplay by reflexivity. reflexivity. }
  split; [|split; [exact Hsrc|]].
  - unfold example_flipped.
    apply Reachable_loaded, Reachable_Step, Reachable_Play, Reachable_Step,
      Reachable_Play, Reachable_initial.
    unfold device_ok, all_ids. simpl.
    repeat (constructor; [simpl; intuition discriminate|]). constructor.
  - unfold sources_ok, looping_sounds. rewrite Hsrc. simpl. intros H.
    inversion H as [|? ? Hnotin _]; subst. apply Hnotin. now left.
Qed.
